(** * tinynet optimizers: a shallow embedding of [src/utils/optimizers.py]

    The three optimizer classes ([GradientDescent], [Momentum], [Adam]) walk
    over a list of layers and update every parameter array in place.  The
    embedding keeps what the Python code relies on:

    - numpy arrays are objects: a layer's [params] and [grads] dictionaries
      hold references into a heap of arrays, the local variable [param] is
      such a reference, and [a -= b] overwrites the array behind [a];
    - dictionaries are insertion-ordered association lists;
    - failures (missing key, shape mismatch, missing optimizer state) are
      results of an error monad;
    - scalars are an interface with two instances, the real numbers for
      the algebra and IEEE binary64 for running the code on concrete inputs. *)

From Stdlib Require Import PrimFloat Reals Lra ZArith.
From stdpp Require Import gmap strings list.

Set Warnings "-inexact-float".

(** ** Scalars *)

(** The arithmetic the optimizers use on array elements and on the
    hyper-parameters [lr], [beta], [eps]. *)
Class Scalar (A : Type) := {
  fzero : A;
  fone : A;
  fadd : A → A → A;
  fsub : A → A → A;
  fmul : A → A → A;
  fdiv : A → A → A;
  fsqrt : A → A;
}.

(** [b ** t] for a float [b] and an integer [t], as the product of [t]
    factors [b] (its reciprocal for a negative [t]).  Over the reals this is
    the value of the power.  In binary64 Python's [**] calls the C library's
    [pow], which rounds once where the product rounds at every factor: the
    two agree at [t = 0] and [t = 1] and can differ in the last digit from
    there on.  The range errors of [**] ([OverflowError] for a result or an
    exponent out of range, [ZeroDivisionError] for [0.0] to a negative power)
    have no counterpart here. *)
Fixpoint power `{Scalar A} (b : A) (n : nat) : A :=
  match n with
  | O => fone
  | S n' => fmul b (power b n')
  end.

Definition fpow `{Scalar A} (b : A) (t : Z) : A :=
  if (t <? 0)%Z then fdiv fone (power b (Z.to_nat (- t)))
  else power b (Z.to_nat t).

(** Exact arithmetic. *)
#[global] Instance R_scalar : Scalar R := {
  fzero := 0%R;
  fone := 1%R;
  fadd := Rplus;
  fsub := Rminus;
  fmul := Rmult;
  fdiv := Rdiv;
  fsqrt := sqrt;
}.

(** numpy's float64. *)
#[global] Instance binary64_scalar : Scalar float := {
  fzero := 0%float;
  fone := 1%float;
  fadd := PrimFloat.add;
  fsub := PrimFloat.sub;
  fmul := PrimFloat.mul;
  fdiv := PrimFloat.div;
  fsqrt := PrimFloat.sqrt;
}.

(** ** Errors *)

Inductive error :=
| KeyError (k : string)        (* d[k] for a key that is not in d *)
| ValueError                   (* operands could not be broadcast together *)
| AttributeError (a : string)  (* self.layer_v before init_params *)
| IndexError                   (* self.layer_v[l] out of range *)
| DanglingReference.           (* a reference without an object; no Python
                                  program can produce one *)

Inductive result (X : Type) :=
| Ok (x : X)
| Raise (e : error).
Arguments Ok {X} x.
Arguments Raise {X} e.

(** ** Arrays *)

Section Arrays.
Context `{Scalar A}.

(** An ndarray: its shape and its elements in row-major order. *)
Record ndarray := NDArray { shape : list nat; data : list A }.

Definition size_of (s : list nat) : nat := foldr Nat.mul 1 s.

(** [np.zeros(shape)] *)
Definition np_zeros (s : list nat) : ndarray :=
  NDArray s (replicate (size_of s) fzero).

(** [np.square(a)] *)
Definition np_square (a : ndarray) : ndarray :=
  NDArray (shape a) (map (λ x, fmul x x) (data a)).

(** [np.sqrt(a)] *)
Definition np_sqrt (a : ndarray) : ndarray :=
  NDArray (shape a) (map fsqrt (data a)).

(** [c * a] for a Python float [c] *)
Definition rmul (c : A) (a : ndarray) : ndarray :=
  NDArray (shape a) (map (fmul c) (data a)).

(** [a / c] for a Python float [c] *)
Definition truediv_scalar (a : ndarray) (c : A) : ndarray :=
  NDArray (shape a) (map (λ x, fdiv x c) (data a)).

(** [a + c] for a Python float [c] *)
Definition add_scalar (a : ndarray) (c : A) : ndarray :=
  NDArray (shape a) (map (λ x, fadd x c) (data a)).

(** [f] applied element by element; the result has the shape of [a]. *)
Definition zip_arr (f : A → A → A) (a b : ndarray) : ndarray :=
  NDArray (shape a) (zip_with f (data a) (data b)).

(** Element-wise operation on two arrays.  The layer contract gives
    a parameter, its gradient and its moment buffers one shape; operands
    of different shapes are the shape-mismatch failure (broadcasting of
    unequal shapes is not modelled). *)
Definition elementwise (f : A → A → A) (a b : ndarray) : result ndarray :=
  if decide (shape a = shape b) then Ok (zip_arr f a b) else Raise ValueError.

(** [a + b], [a - b], [a / b] *)
Definition nd_add := elementwise fadd.
Definition nd_sub := elementwise fsub.
Definition nd_div := elementwise fdiv.

(** Every numpy array holds as many elements as its shape says. *)
Definition well_formed (a : ndarray) : Prop :=
  length (data a) = size_of (shape a).

#[global] Instance ndarray_inhabited : Inhabited ndarray :=
  populate (NDArray [] []).
End Arrays.
Arguments ndarray A : clear implicits.

(** ** Dictionaries *)

Section Dict.
Context {V : Type}.

(** A Python dict: keys in insertion order, each key once. *)
Definition dict := list (string * V).

Definition keys (d : dict) : list string := d.*1.
Definition values (d : dict) : list V := d.*2.

(** [d[k]] *)
Fixpoint getitem (d : dict) (k : string) : result V :=
  match d with
  | [] => Raise (KeyError k)
  | (k', v) :: d' => if String.eqb k' k then Ok v else getitem d' k
  end.

(** [d[k] = v]: rebinds an existing key where it stands, appends a new one *)
Fixpoint setitem (d : dict) (k : string) (v : V) : dict :=
  match d with
  | [] => [(k, v)]
  | (k', v') :: d' =>
      if String.eqb k' k then (k, v) :: d' else (k', v') :: setitem d' k v
  end.
End Dict.
Arguments dict V : clear implicits.

(** ** Layers, regularizers, the store *)

Definition ref := nat.

(** A layer as the optimizers see it: two dictionaries of array objects. *)
Record layer := Layer { params : dict ref; grads : dict ref }.

Section Store.
Context `{Scalar A}.

(** The [regularizer] argument.  The module [regularizers] is outside this
    file; an instance of [regularizers.L2] is its [compute_term_delta]
    method, every other object passes no [isinstance] test. *)
Inductive regularizer :=
| L2 (compute_term_delta : ndarray A → A → ndarray A)
| OtherRegularizer.

Definition is_L2 (r : option regularizer) : bool :=
  match r with Some (L2 _) => true | _ => false end.

(** One call [regularizer.compute_term_delta(param, m)]: the object passed
    and the value it held at the time of the call. *)
Record call := Call { call_obj : ref; call_arg : ndarray A; call_m : A }.

(** The array objects and the calls made to the regularizer so far. *)
Record store := Store { heap : gmap ref (ndarray A); calls : list call }.

(** State and failure. *)
Definition M (X : Type) : Type := store → result (X * store).

Definition ret {X} (x : X) : M X := λ s, Ok (x, s).

Definition bind {X Y} (c : M X) (k : X → M Y) : M Y :=
  λ s, match c s with
       | Ok (x, s') => k x s'
       | Raise e => Raise e
       end.

Definition lift {X} (r : result X) : M X :=
  λ s, match r with Ok x => Ok (x, s) | Raise e => Raise e end.

(** Read the array behind a reference. *)
Definition load (r : ref) : M (ndarray A) :=
  λ s, match heap s !! r with
       | Some a => Ok (a, s)
       | None => Raise DanglingReference
       end.

(** [ndarray.__isub__]: subtract in place, return the same object. *)
Definition isub (r : ref) (b : ndarray A) : M ref :=
  λ s, match heap s !! r with
       | Some a =>
           match nd_sub a b with
           | Ok a' => Ok (r, Store (<[r := a']> (heap s)) (calls s))
           | Raise e => Raise e
           end
       | None => Raise DanglingReference
       end.

(** [regularizer.compute_term_delta(param, m)], recorded. *)
Definition call_compute_term_delta
    (f : ndarray A → A → ndarray A) (param : ref) (m : A) : M (ndarray A) :=
  λ s, match heap s !! param with
       | Some a => Ok (f a m, Store (heap s) (calls s ++ [Call param a m]))
       | None => Raise DanglingReference
       end.

(** [for x in xs: body], threading what the body rebinds. *)
Fixpoint for_each {X S} (xs : list X) (body : X → S → M S) (acc : S) : M S :=
  match xs with
  | [] => ret acc
  | x :: xs' => bind (body x acc) (for_each xs' body)
  end.
End Store.
Arguments regularizer A : clear implicits.
Arguments call A : clear implicits.
Arguments store A : clear implicits.
Arguments M A X : clear implicits.

Notation "'let*' x ':=' c 'in' k" := (bind c (λ x, k))
  (at level 10, x name, c at level 100, k at level 200,
   format "'[v' 'let*'  x  ':='  c  'in'  '/' k ']'").

Section Common.
Context `{Scalar A}.

(** [layer.params[k] = x] *)
Definition set_param (ly : layer) (k : string) (x : ref) : layer :=
  Layer (setitem (params ly) k x) (grads ly).

(** The block that closes the body of all three [update_params]:
<<
    if k is 'W':
        if isinstance(regularizer, regularizers.L2):
            layer.params[k] -= self.lr * regularizer.compute_term_delta(param, m)
>>
    [k is 'W'] compares with the interned one-character string, which is
    equality of strings.  [param] is the object bound before the gradient
    step of the same iteration. *)
Definition weight_decay (lr m : A) (reg : option (regularizer A))
    (ly : layer) (k : string) (param : ref) : M A layer :=
  if String.eqb k "W" then
    match reg with
    | Some (L2 compute_term_delta) =>
        let* x := lift (getitem (params ly) k) in
        let* delta := call_compute_term_delta compute_term_delta param m in
        let* x' := isub x (rmul lr delta) in
        ret (set_param ly k x')
    | _ => ret ly
    end
  else ret ly.
End Common.

(** ** GradientDescent *)

Module GradientDescent.
Section Defs.
Context `{Scalar A}.

Record optimizer := Make { lr : A }.

(** The body of the inner loop, for one key [k] of [layer.params]. *)
Definition update_key (self : optimizer) (m : A) (reg : option (regularizer A))
    (k : string) (ly : layer) : M A layer :=
  let* param := lift (getitem (params ly) k) in
  let* grad := lift (getitem (grads ly) ("d" +:+ k)) in
  (* layer.params[k] -= self.lr * grad *)
  let* x := lift (getitem (params ly) k) in
  let* g := load grad in
  let* x' := isub x (rmul (lr self) g) in
  let ly := set_param ly k x' in
  weight_decay (lr self) m reg ly k param.

(** [for k in layer.params: ...] *)
Definition update_layer (self : optimizer) (m : A) (reg : option (regularizer A))
    (ly : layer) : M A layer :=
  for_each (keys (params ly)) (update_key self m reg) ly.

(** [update_params(self, layers, m, regularizer=None)]; the result is the
    list of layers as the call leaves them. *)
Definition update_params (self : optimizer) (layers : list layer) (m : A)
    (reg : option (regularizer A)) : M A (list layer) :=
  for_each layers
    (λ ly done, let* ly' := update_layer self m reg ly in ret (done ++ [ly'])) [].
End Defs.
Arguments optimizer A : clear implicits.
End GradientDescent.

(** ** Momentum *)

Module Momentum.
Section Defs.
Context `{Scalar A}.

(** [layer_v] is [None] until [init_params] has run (the attribute does
    not exist yet). *)
Record optimizer := Make {
  lr : A;
  beta : A;
  layer_v : option (list (dict (ndarray A)));
}.

(** [__init__(self, lr, beta)] *)
Definition new (lr beta : A) : optimizer := Make lr beta None.

(** [self.layer_v[l]] *)
Definition get_v (self : optimizer) (l : nat) : result (dict (ndarray A)) :=
  match layer_v self with
  | None => Raise (AttributeError "layer_v")
  | Some lv => match lv !! l with Some v => Ok v | None => Raise IndexError end
  end.

(** The dictionary [v] is the object stored at [self.layer_v[l]]: what the
    loop body writes into [v] is written there. *)
Definition put_v (self : optimizer) (l : nat) (v : dict (ndarray A)) : optimizer :=
  Make (lr self) (beta self) (option_map (λ lv, <[l := v]> lv) (layer_v self)).

(** [v['d' + k] = np.zeros(layer.params[k].shape)] for every key *)
Definition zeros_like_params (ly : layer) : M A (dict (ndarray A)) :=
  for_each (keys (params ly))
    (λ k v,
       let* p := lift (getitem (params ly) k) in
       let* a := load p in
       ret (setitem v ("d" +:+ k) (np_zeros (shape a)))) [].

Definition init_params (self : optimizer) (layers : list layer) : M A optimizer :=
  let* lv := for_each layers
               (λ ly lv, let* v := zeros_like_params ly in ret (lv ++ [v])) [] in
  ret (Make (lr self) (beta self) (Some lv)).

(** The body of the inner loop, for one key [k] of [layer.params]. *)
Definition update_key (self : optimizer) (t : Z) (m : A) (reg : option (regularizer A))
    (k : string) (st : dict (ndarray A) * layer) : M A (dict (ndarray A) * layer) :=
  let '(v, ly) := st in
  let* param := lift (getitem (params ly) k) in
  let* grad := lift (getitem (grads ly) ("d" +:+ k)) in
  (* v['d' + k] = self.beta * v['d' + k] + (1 - self.beta) * grad *)
  let* vk := lift (getitem v ("d" +:+ k)) in
  let* g := load grad in
  let* vk' := lift (nd_add (rmul (beta self) vk)
                           (rmul (fsub fone (beta self)) g)) in
  let v := setitem v ("d" +:+ k) vk' in
  (* v_corrected = v['d' + k] / (1 - self.beta ** t) *)
  let* vk := lift (getitem v ("d" +:+ k)) in
  let v_corrected := truediv_scalar vk (fsub fone (fpow (beta self) t)) in
  (* layer.params[k] -= self.lr * v_corrected *)
  let* x := lift (getitem (params ly) k) in
  let* x' := isub x (rmul (lr self) v_corrected) in
  let ly := set_param ly k x' in
  let* ly := weight_decay (lr self) m reg ly k param in
  ret (v, ly).

(** One round of the outer loop: layer number [l]. *)
Definition update_layer (t : Z) (m : A) (reg : option (regularizer A))
    (l : nat) (ly : layer) (self : optimizer) : M A (optimizer * layer) :=
  let* v := lift (get_v self l) in
  let* st := for_each (keys (params ly)) (update_key self t m reg) (v, ly) in
  ret (put_v self l st.1, st.2).

(** [update_params(self, layers, t, m, regularizer=None)]; the result is
    the optimizer and the list of layers as the call leaves them. *)
Definition update_params (self : optimizer) (layers : list layer) (t : Z) (m : A)
    (reg : option (regularizer A)) : M A (optimizer * list layer) :=
  for_each (imap pair layers)
    (λ '(l, ly) '(self, done),
       let* r := update_layer t m reg l ly self in
       ret (r.1, done ++ [r.2]))
    (self, []).
End Defs.
Arguments optimizer A : clear implicits.
End Momentum.

(** ** Adam *)

Module Adam.
Section Defs.
Context `{Scalar A}.

Record optimizer := Make {
  lr : A;
  beta1 : A;
  beta2 : A;
  eps : A;
  layer_v : option (list (dict (ndarray A)));
  layer_s : option (list (dict (ndarray A)));
}.

(** [__init__(self, lr, beta1, beta2, eps)] *)
Definition new (lr beta1 beta2 eps : A) : optimizer :=
  Make lr beta1 beta2 eps None None.

Definition get_v (self : optimizer) (l : nat) : result (dict (ndarray A)) :=
  match layer_v self with
  | None => Raise (AttributeError "layer_v")
  | Some lv => match lv !! l with Some v => Ok v | None => Raise IndexError end
  end.

Definition get_s (self : optimizer) (l : nat) : result (dict (ndarray A)) :=
  match layer_s self with
  | None => Raise (AttributeError "layer_s")
  | Some ls => match ls !! l with Some s => Ok s | None => Raise IndexError end
  end.

Definition put_vs (self : optimizer) (l : nat) (v s : dict (ndarray A)) : optimizer :=
  Make (lr self) (beta1 self) (beta2 self) (eps self)
    (option_map (λ lv, <[l := v]> lv) (layer_v self))
    (option_map (λ ls, <[l := s]> ls) (layer_s self)).

(** The two dictionaries [v] and [s] filled by one pass over the keys. *)
Definition zeros_like_params (ly : layer)
    : M A (dict (ndarray A) * dict (ndarray A)) :=
  for_each (keys (params ly))
    (λ k '(v, s),
       let* p := lift (getitem (params ly) k) in
       let* a := load p in
       let v := setitem v ("d" +:+ k) (np_zeros (shape a)) in
       let* p := lift (getitem (params ly) k) in
       let* a := load p in
       let s := setitem s ("d" +:+ k) (np_zeros (shape a)) in
       ret (v, s)) ([], []).

Definition init_params (self : optimizer) (layers : list layer) : M A optimizer :=
  let* vs := for_each layers
               (λ ly '(lv, ls),
                  let* r := zeros_like_params ly in
                  ret (lv ++ [r.1], ls ++ [r.2])) ([], []) in
  ret (Make (lr self) (beta1 self) (beta2 self) (eps self)
         (Some vs.1) (Some vs.2)).

(** The body of the inner loop, for one key [k] of [layer.params]. *)
Definition update_key (self : optimizer) (t : Z) (m : A) (reg : option (regularizer A))
    (k : string) (st : dict (ndarray A) * dict (ndarray A) * layer)
    : M A (dict (ndarray A) * dict (ndarray A) * layer) :=
  let '(v, s, ly) := st in
  let* param := lift (getitem (params ly) k) in
  let* grad := lift (getitem (grads ly) ("d" +:+ k)) in
  (* v['d' + k] = self.beta1 * v['d' + k] + (1 - self.beta1) * grad *)
  let* vk := lift (getitem v ("d" +:+ k)) in
  let* g := load grad in
  let* vk' := lift (nd_add (rmul (beta1 self) vk)
                           (rmul (fsub fone (beta1 self)) g)) in
  let v := setitem v ("d" +:+ k) vk' in
  (* s['d' + k] = self.beta2 * s['d' + k] + (1 - self.beta2) * np.square(grad) *)
  let* sk := lift (getitem s ("d" +:+ k)) in
  let* g := load grad in
  let* sk' := lift (nd_add (rmul (beta2 self) sk)
                           (rmul (fsub fone (beta2 self)) (np_square g))) in
  let s := setitem s ("d" +:+ k) sk' in
  (* v_corrected = v['d' + k] / (1 - self.beta1 ** t) *)
  let* vk := lift (getitem v ("d" +:+ k)) in
  let v_corrected := truediv_scalar vk (fsub fone (fpow (beta1 self) t)) in
  (* s_corrected = s['d' + k] / (1 - self.beta2 ** t) *)
  let* sk := lift (getitem s ("d" +:+ k)) in
  let s_corrected := truediv_scalar sk (fsub fone (fpow (beta2 self) t)) in
  (* layer.params[k] -= self.lr * v_corrected / (np.sqrt(s_corrected) + self.eps) *)
  let* x := lift (getitem (params ly) k) in
  let* step := lift (nd_div (rmul (lr self) v_corrected)
                            (add_scalar (np_sqrt s_corrected) (eps self))) in
  let* x' := isub x step in
  let ly := set_param ly k x' in
  let* ly := weight_decay (lr self) m reg ly k param in
  ret (v, s, ly).

Definition update_layer (t : Z) (m : A) (reg : option (regularizer A))
    (l : nat) (ly : layer) (self : optimizer) : M A (optimizer * layer) :=
  let* v := lift (get_v self l) in
  let* s := lift (get_s self l) in
  let* st := for_each (keys (params ly)) (update_key self t m reg) (v, s, ly) in
  ret (put_vs self l st.1.1 st.1.2, st.2).

Definition update_params (self : optimizer) (layers : list layer) (t : Z) (m : A)
    (reg : option (regularizer A)) : M A (optimizer * list layer) :=
  for_each (imap pair layers)
    (λ '(l, ly) '(self, done),
       let* r := update_layer t m reg l ly self in
       ret (r.1, done ++ [r.2]))
    (self, []).
End Defs.
Arguments optimizer A : clear implicits.
End Adam.

(** * Properties *)

(** ** Arrays and dictionaries *)

Section ArrayFacts.
Context `{Scalar A}.

Lemma elementwise_ok f (a b : ndarray A) :
  shape a = shape b → elementwise f a b = Ok (zip_arr f a b).
Proof. intros Hs. unfold elementwise. by rewrite decide_True. Qed.

Lemma elementwise_shape f (a b c : ndarray A) :
  elementwise f a b = Ok c → shape c = shape a.
Proof.
  unfold elementwise. case_decide; [|done]. by intros [= <-].
Qed.

Lemma np_zeros_well_formed s : well_formed (A := A) (np_zeros s).
Proof. unfold well_formed. simpl. by rewrite length_replicate. Qed.
End ArrayFacts.

Section DictFacts.
Context {V : Type}.
Implicit Types (d : dict V) (k : string) (v : V).

Lemma getitem_elem_of d k v : getitem d k = Ok v → (k, v) ∈ d.
Proof.
  induction d as [|[k' v'] d IH]; simpl; [done|].
  destruct (String.eqb_spec k' k) as [->|Hne].
  - intros [= ->]. left.
  - intros Hg. right. by apply IH.
Qed.

Lemma elem_of_getitem d k v : NoDup (keys d) → (k, v) ∈ d → getitem d k = Ok v.
Proof.
  unfold keys. induction d as [|[k' v'] d IH]; simpl.
  - by intros _ ?%elem_of_nil.
  - intros [Hnin Hnd]%NoDup_cons [Heq|Hin]%elem_of_cons.
    + injection Heq as -> ->. by rewrite String.eqb_refl.
    + destruct (String.eqb_spec k' k) as [->|Hne]; [|by apply IH].
      exfalso. apply Hnin. apply list_elem_of_fmap. by exists (k, v).
Qed.

Lemma getitem_notin d k : k ∉ keys d → getitem d k = Raise (KeyError k).
Proof.
  unfold keys. induction d as [|[k' v'] d IH]; simpl; [done|].
  intros [Hne Hnin]%not_elem_of_cons.
  destruct (String.eqb_spec k' k) as [->|_]; [done|]. by apply IH.
Qed.

Lemma setitem_same d k v : getitem d k = Ok v → setitem d k v = d.
Proof.
  induction d as [|[k' v'] d IH]; simpl; [done|].
  destruct (String.eqb_spec k' k) as [->|Hne].
  - by intros [= ->].
  - intros Hg. by rewrite IH.
Qed.

Lemma getitem_setitem_eq d k v : getitem (setitem d k v) k = Ok v.
Proof.
  induction d as [|[k' v'] d IH]; simpl.
  - by rewrite String.eqb_refl.
  - destruct (String.eqb_spec k' k) as [->|Hne]; simpl.
    + by rewrite String.eqb_refl.
    + by destruct (String.eqb_spec k' k).
Qed.

Lemma getitem_setitem_ne d k k' v :
  k ≠ k' → getitem (setitem d k v) k' = getitem d k'.
Proof.
  intros Hne. induction d as [|[k0 v0] d IH]; simpl.
  - by destruct (String.eqb_spec k k').
  - destruct (String.eqb_spec k0 k) as [->|Hne0]; simpl.
    + by destruct (String.eqb_spec k k').
    + destruct (String.eqb_spec k0 k'); [done|apply IH].
Qed.

Lemma setitem_snoc d k v : k ∉ keys d → setitem d k v = d ++ [(k, v)].
Proof.
  unfold keys. induction d as [|[k' v'] d IH]; simpl; [done|].
  intros [Hne Hnin]%not_elem_of_cons.
  destruct (String.eqb_spec k' k) as [->|_]; [done|]. by rewrite IH.
Qed.
End DictFacts.

(** The key of the gradient and of the moment buffers of parameter [k]. *)
Lemma grad_key_inj k k' : "d" +:+ k = "d" +:+ k' → k = k'.
Proof. intros [= Heq]. exact Heq. Qed.

(** ** The store *)

Section StoreFacts.
Context `{Scalar A}.
Implicit Types (h : gmap ref (ndarray A)) (W : list (ref * ndarray A)).

(** A list of assignments to array objects, performed from left to right. *)
Definition write_all W h : gmap ref (ndarray A) :=
  foldl (λ h w, <[w.1 := w.2]> h) h W.

Lemma write_all_app W1 W2 h :
  write_all (W1 ++ W2) h = write_all W2 (write_all W1 h).
Proof. apply foldl_app. Qed.

Lemma lookup_write_all_notin W h r :
  r ∉ W.*1 → write_all W h !! r = h !! r.
Proof.
  revert h. induction W as [|[r' a] W IH]; intros h; simpl; [done|].
  intros [Hne Hnin]%not_elem_of_cons.
  rewrite IH; [|done]. by rewrite lookup_insert_ne.
Qed.

Lemma lookup_write_all_in W h r a :
  NoDup W.*1 → (r, a) ∈ W → write_all W h !! r = Some a.
Proof.
  revert h. induction W as [|[r' a'] W IH]; intros h; simpl.
  - by intros _ ?%elem_of_nil.
  - intros [Hnin Hnd]%NoDup_cons [Heq|Hin]%elem_of_cons.
    + injection Heq as -> ->.
      rewrite lookup_write_all_notin; [|done]. by rewrite lookup_insert_eq.
    + by apply IH.
Qed.

Lemma for_each_ext {X S} (xs : list X) (body body' : X → S → M A S) acc s :
  (∀ x acc s, x ∈ xs → body x acc s = body' x acc s) →
  for_each xs body acc s = for_each xs body' acc s.
Proof.
  revert acc s. induction xs as [|x xs IH]; intros acc s Hext; simpl; [done|].
  unfold bind. rewrite Hext; [|left].
  destruct (body' x acc s) as [[acc' s']|e]; [|done].
  apply IH. intros ????. apply Hext. by right.
Qed.

Lemma for_each_fmap {X Y S} (f : Y → X) (ys : list Y) (body : X → S → M A S) acc s :
  for_each (f <$> ys) body acc s = for_each ys (λ y, body (f y)) acc s.
Proof.
  revert acc s. induction ys as [|y ys IH]; intros acc s; simpl; [done|].
  unfold bind. destruct (body (f y) acc s) as [[acc' s']|e]; [|done]. apply IH.
Qed.
End StoreFacts.

(** ** Loops over items with disjoint footprints

    Both loops of [update_params] have one shape: every round reads a
    few array objects and one entry of the optimizer state, and overwrites
    its own arrays and that entry.  When no round overwrites what a later
    round reads, the loop does what all rounds would do from the initial
    state. *)

Section Loop.
Context `{Scalar A}.
Context {X S ST CTX K E : Type} `{EqDecision K}.
Context (mk : ST → CTX → S) (next : X → CTX → CTX).
Context (key : X → K) (rd : K → ST → option E) (wr : K → E → ST → ST).
Context (body : X → S → M A S).
Context (pre : X → E → gmap ref (ndarray A) → Prop).
Context (new_entry : X → E → gmap ref (ndarray A) → E).
Context (writes : X → E → gmap ref (ndarray A) → list (ref * ndarray A)).
Context (new_calls : X → E → gmap ref (ndarray A) → list (call A)).
Context (reads : X → ref → Prop) (targets : X → list ref).

Hypothesis rd_wr_eq : ∀ k e st, is_Some (rd k st) → rd k (wr k e st) = Some e.
Hypothesis rd_wr_ne : ∀ k k' e st, k ≠ k' → rd k' (wr k e st) = rd k' st.
Hypothesis body_spec : ∀ x e st ctx s,
  rd (key x) st = Some e → pre x e (heap s) →
  body x (mk st ctx) s =
    Ok (mk (wr (key x) (new_entry x e (heap s)) st) (next x ctx),
        Store (write_all (writes x e (heap s)) (heap s))
              (calls s ++ new_calls x e (heap s))).
Hypothesis footprint : ∀ x e h h',
  (∀ r, reads x r → h !! r = h' !! r) → pre x e h →
  pre x e h' ∧ new_entry x e h' = new_entry x e h ∧
  writes x e h' = writes x e h ∧ new_calls x e h' = new_calls x e h.
Hypothesis writes_targets : ∀ x e h, pre x e h → (writes x e h).*1 = targets x.

(** What round [x] does when it starts from state [st0] and heap [h0]. *)
Definition item_writes (st0 : ST) (h0 : gmap ref (ndarray A)) (x : X) :=
  match rd (key x) st0 with Some e => writes x e h0 | None => [] end.

Definition item_calls (st0 : ST) (h0 : gmap ref (ndarray A)) (x : X) :=
  match rd (key x) st0 with Some e => new_calls x e h0 | None => [] end.

Definition item_state (st0 : ST) (h0 : gmap ref (ndarray A)) (st : ST) (x : X) :=
  match rd (key x) st0 with
  | Some e => wr (key x) (new_entry x e h0) st
  | None => st
  end.

(** No round overwrites an array that a later round reads. *)
Fixpoint indep (xs : list X) : Prop :=
  match xs with
  | [] => True
  | x :: xs' => (∀ y r, y ∈ xs' → r ∈ targets x → ¬ reads y r) ∧ indep xs'
  end.

Lemma loop_gen st0 h0 xs st ctx s :
  NoDup (key <$> xs) → indep xs →
  (∀ x, x ∈ xs →
     ∃ e, rd (key x) st0 = Some e ∧ rd (key x) st = Some e ∧ pre x e h0) →
  (∀ x r, x ∈ xs → reads x r → heap s !! r = h0 !! r) →
  for_each xs body (mk st ctx) s =
    Ok (mk (foldl (item_state st0 h0) st xs) (foldl (flip next) ctx xs),
        Store (write_all (xs ≫= item_writes st0 h0) (heap s))
              (calls s ++ (xs ≫= item_calls st0 h0))).
Proof.
  revert st ctx s. induction xs as [|x xs IH]; intros st ctx s Hnd Hind Hpre Hagree.
  - simpl. unfold ret. rewrite app_nil_r. by destruct s.
  - apply NoDup_cons in Hnd as [Hk Hnd]. destruct Hind as [Hx Hind].
    destruct (Hpre x) as (e & He0 & He & Hp); [left|].
    destruct (footprint x e h0 (heap s)) as (Hp' & Hne & Hw & Hc); [|done|].
    { intros r Hr. symmetry. apply (Hagree x); [left|done]. }
    assert (item_state st0 h0 st x = wr (key x) (new_entry x e h0) st) as Hs'
      by (unfold item_state; by rewrite He0).
    assert (item_writes st0 h0 x = writes x e h0) as Hw'
      by (unfold item_writes; by rewrite He0).
    assert (item_calls st0 h0 x = new_calls x e h0) as Hc'
      by (unfold item_calls; by rewrite He0).
    cbn [for_each]. unfold bind. rewrite (body_spec x e st ctx s He Hp').
    rewrite Hne, Hw, Hc. rewrite IH; [|done|done|..].
    + cbn [foldl heap calls]. rewrite !bind_cons, Hs', Hw', Hc'.
      by rewrite write_all_app, (assoc_L (++)).
    + intros y Hy. destruct (Hpre y) as (e' & He0' & He' & Hp''); [by right|].
      exists e'. split_and!; [done| |done].
      rewrite rd_wr_ne; [done|]. intros Heq. apply Hk.
      rewrite Heq. by apply list_elem_of_fmap_2.
    + intros y r Hy Hr. simpl.
      rewrite lookup_write_all_notin.
      * apply (Hagree y); [by right|done].
      * rewrite writes_targets; [|done]. intros Hin. by apply (Hx y r).
Qed.

Lemma loop_spec st h xs ctx c :
  NoDup (key <$> xs) → indep xs →
  (∀ x, x ∈ xs → ∃ e, rd (key x) st = Some e ∧ pre x e h) →
  for_each xs body (mk st ctx) (Store h c) =
    Ok (mk (foldl (item_state st h) st xs) (foldl (flip next) ctx xs),
        Store (write_all (xs ≫= item_writes st h) h)
              (c ++ (xs ≫= item_calls st h))).
Proof.
  intros Hnd Hind Hpre.
  apply (loop_gen st h xs st ctx (Store h c)); [done|done| |done].
  intros x Hx. destruct (Hpre x Hx) as (e & He & Hp). by exists e.
Qed.

Lemma final_state_notin st0 h0 xs st k :
  k ∉ key <$> xs → rd k (foldl (item_state st0 h0) st xs) = rd k st.
Proof.
  revert st. induction xs as [|x xs IH]; intros st; simpl; [done|].
  intros [Hne Hnin]%not_elem_of_cons. rewrite IH; [|done].
  unfold item_state. destruct (rd (key x) st0); [|done].
  by rewrite rd_wr_ne.
Qed.

Lemma final_state_in st0 h0 xs st x e :
  NoDup (key <$> xs) → x ∈ xs →
  rd (key x) st0 = Some e → is_Some (rd (key x) st) →
  rd (key x) (foldl (item_state st0 h0) st xs) = Some (new_entry x e h0).
Proof.
  revert st. induction xs as [|y xs IH]; intros st; simpl.
  - by intros _ ?%elem_of_nil.
  - intros [Hk Hnd]%NoDup_cons Hin He Hst.
    destruct (decide (key y = key x)) as [Heq|Hne].
    + assert (y = x) as ->.
      { apply elem_of_cons in Hin as [->|Hin]; [done|].
        exfalso. apply Hk. rewrite Heq. by apply list_elem_of_fmap_2. }
      rewrite final_state_notin; [|done].
      unfold item_state. rewrite He. by apply rd_wr_eq.
    + apply elem_of_cons in Hin as [->|Hin]; [done|].
      apply IH; [done|done|done|].
      unfold item_state. destruct (rd (key y) st0); [|done].
      by rewrite rd_wr_ne.
Qed.
Lemma indep_intro xs :
  NoDup xs →
  (∀ x y r, x ∈ xs → y ∈ xs → x ≠ y → r ∈ targets x → ¬ reads y r) →
  indep xs.
Proof.
  induction xs as [|x xs IH]; simpl; [done|].
  intros [Hnin Hnd]%NoDup_cons Hsep. split.
  - intros y r Hy. apply Hsep; [left|by right|]. by intros ->.
  - apply IH; [done|]. intros y z r Hy Hz. apply Hsep; by right.
Qed.

Lemma final_state_ind (P : ST → Prop) st0 h0 xs st :
  (∀ k e st, P st → P (wr k e st)) →
  P st → P (foldl (item_state st0 h0) st xs).
Proof.
  intros Hwr. revert st. induction xs as [|x xs IH]; intros st Hst; simpl; [done|].
  apply IH. unfold item_state. destruct (rd (key x) st0); [by apply Hwr|done].
Qed.
End Loop.

(** ** Weight decay *)

Definition to_option {X} (r : result X) : option X :=
  match r with Ok x => Some x | Raise _ => None end.

Section Decay.
Context `{Scalar A}.
Context (lr m : A) (reg : option (regularizer A)).

(** What the closing block of the loop body makes of the array [p1] it
    finds behind the parameter, and the regularizer calls it makes. *)
Definition decay (k : string) (p1 : ndarray A) : ndarray A :=
  if String.eqb k "W" then
    match reg with
    | Some (L2 f) => zip_arr fsub p1 (rmul lr (f p1 m))
    | _ => p1
    end
  else p1.

Definition decay_calls (k : string) (r : ref) (p1 : ndarray A) : list (call A) :=
  if String.eqb k "W" then
    match reg with
    | Some (L2 _) => [Call r p1 m]
    | _ => []
    end
  else [].

(** The regularizer contract: the delta has the shape of the parameter. *)
Definition shape_preserving : Prop :=
  ∀ f, reg = Some (L2 f) → ∀ a b, shape (f a b) = shape a.

Lemma decay_shape k p1 : shape (decay k p1) = shape p1.
Proof. unfold decay. by repeat case_match. Qed.

Lemma isub_spec r (a b : ndarray A) (s : store A) :
  heap s !! r = Some a → shape a = shape b →
  isub r b s = Ok (r, Store (<[r := zip_arr fsub a b]> (heap s)) (calls s)).
Proof.
  intros Hr Hs. unfold isub, nd_sub. rewrite Hr.
  by rewrite elementwise_ok.
Qed.

Lemma weight_decay_spec ly k r p1 (s : store A) :
  shape_preserving →
  getitem (params ly) k = Ok r → heap s !! r = Some p1 →
  weight_decay lr m reg ly k r s =
    Ok (ly, Store (<[r := decay k p1]> (heap s)) (calls s ++ decay_calls k r p1)).
Proof.
  intros Hreg Hk Hr. unfold weight_decay, decay, decay_calls.
  assert (ret (A := A) ly s =
          Ok (ly, Store (<[r := p1]> (heap s)) (calls s ++ []))) as Hskip.
  { unfold ret. rewrite insert_id, app_nil_r; [|done]. by destruct s. }
  destruct (String.eqb k "W"); [|done].
  destruct reg as [[f|]|] eqn:Hf; [|done|done].
  unfold bind, lift. rewrite Hk. unfold call_compute_term_delta. rewrite Hr.
  rewrite (isub_spec r p1); simpl; [|done|by rewrite (Hreg f Hf)].
  unfold ret, set_param. rewrite setitem_same; [|done]. by destruct ly.
Qed.

Lemma decay_calls_nil k r p1 : is_L2 reg = false → decay_calls k r p1 = [].
Proof.
  intros Hr. unfold decay_calls. destruct (String.eqb k "W"); [|done].
  destruct reg as [[f|]|] eqn:Hf; done.
Qed.

Lemma decay_not_L2 k p1 : is_L2 reg = false → decay k p1 = p1.
Proof.
  intros Hr. unfold decay. destruct (String.eqb k "W"); [|done].
  destruct reg as [[f|]|] eqn:Hf; done.
Qed.

Lemma decay_not_W k p1 : k ≠ "W" → decay k p1 = p1.
Proof.
  intros Hk. unfold decay. by destruct (String.eqb_spec k "W").
Qed.
End Decay.

(** ** Lists *)

Lemma list_bind_ext_in {X Y} (f g : X → list Y) (xs : list X) :
  (∀ x, x ∈ xs → f x = g x) → xs ≫= f = xs ≫= g.
Proof.
  intros Hfg. apply Forall_bind_ext, Forall_forall. done.
Qed.

Lemma foldl_ext_in {X Y} (f g : Y → X → Y) (a : Y) (xs : list X) :
  (∀ a x, x ∈ xs → f a x = g a x) → foldl f a xs = foldl g a xs.
Proof.
  revert a. induction xs as [|x xs IH]; intros a Hfg; simpl; [done|].
  rewrite Hfg; [|left]. apply IH. intros ???. apply Hfg. by right.
Qed.

Lemma NoDup_bind_inv {X Y} (f : X → list Y) (xs : list X) i j x y r :
  NoDup (xs ≫= f) → xs !! i = Some x → xs !! j = Some y →
  r ∈ f x → r ∈ f y → i = j.
Proof.
  revert i j. induction xs as [|z xs IH]; intros i j; [done|].
  rewrite bind_cons. intros (Hz & Hdisj & Hnd)%NoDup_app Hi Hj Hx Hy.
  destruct i as [|i], j as [|j]; simpl in *.
  - done.
  - injection Hi as ->. exfalso. apply (Hdisj r Hx).
    apply list_elem_of_bind. exists y. split; [done|].
    by eapply list_elem_of_lookup_2.
  - injection Hj as ->. exfalso. apply (Hdisj r Hy).
    apply list_elem_of_bind. exists x. split; [done|].
    by eapply list_elem_of_lookup_2.
  - f_equal. by apply IH.
Qed.

Lemma NoDup_bind_elem {X Y} (f : X → list Y) (xs : list X) x :
  NoDup (xs ≫= f) → x ∈ xs → NoDup (f x).
Proof.
  induction xs as [|z xs IH]; [by intros _ ?%elem_of_nil|].
  rewrite bind_cons. intros (Hz & _ & Hnd)%NoDup_app [->|Hin]%elem_of_cons; auto.
Qed.

Lemma imap_pair_fst {X} (xs : list X) : (imap pair xs).*1 = seq 0 (length xs).
Proof.
  rewrite fmap_imap. rewrite (imap_ext _ (λ j _, Datatypes.id j)); [|done].
  rewrite imap_seq_0. by rewrite list_fmap_id.
Qed.

Lemma imap_pair_snd {X} (xs : list X) : (imap pair xs).*2 = xs.
Proof.
  rewrite fmap_imap. rewrite (imap_ext _ (const Datatypes.id)); [|done].
  rewrite imap_const. by rewrite list_fmap_id.
Qed.

Lemma elem_of_imap_pair {X} (xs : list X) i x :
  (i, x) ∈ imap pair xs ↔ xs !! i = Some x.
Proof.
  rewrite elem_of_lookup_imap. split.
  - by intros (j & y & [= -> ->] & Hj).
  - intros Hi. by exists i, x.
Qed.

Lemma fmap_bind {X Y Z} (g : Y → Z) (f : X → list Y) (xs : list X) :
  g <$> (xs ≫= f) = xs ≫= (λ x, g <$> f x).
Proof.
  induction xs as [|x xs IH]; [done|]. by rewrite !bind_cons, fmap_app, IH.
Qed.

Lemma sublist_bind {X Y} (f g : X → list Y) (xs : list X) :
  (∀ x, x ∈ xs → f x `sublist_of` g x) → xs ≫= f `sublist_of` xs ≫= g.
Proof.
  induction xs as [|x xs IH]; intros Hfg; [done|].
  rewrite !bind_cons. apply sublist_app; [apply Hfg; left|].
  apply IH. intros ??. apply Hfg. by right.
Qed.

(** How often [x] occurs in a list without repetitions. *)
Lemma count_NoDup {X} `{EqDecision X} (l : list X) (x : X) :
  NoDup l → length (filter (λ y, y = x) l) = if decide (x ∈ l) then 1 else 0.
Proof.
  induction l as [|y l IH]; [done|].
  intros [Hnin Hnd]%NoDup_cons. rewrite filter_cons.
  destruct (decide (y = x)) as [->|Hne]; simpl.
  - rewrite IH; [|done]. rewrite decide_False; [|done].
    rewrite decide_True; [done|left].
  - rewrite IH; [|done]. destruct (decide (x ∈ l)) as [Hin|Hnin'].
    + rewrite decide_True; [done|by right].
    + rewrite decide_False; [done|]. by intros [->|?]%elem_of_cons.
Qed.

Lemma count_fmap {X Y} `{EqDecision Y} (f : X → Y) (l : list X) (y : Y) :
  length (filter (λ x, f x = y) l) = length (filter (λ z, z = y) (f <$> l)).
Proof.
  induction l as [|x l IH]; [done|].
  rewrite fmap_cons, !filter_cons. destruct (decide (f x = y)); simpl; by rewrite IH.
Qed.

(** ** One optimizer variant

    The three classes differ in the state they keep for a parameter (none,
    one moment, two moments) and in the gradient step.  What follows holds
    for any loop body of the common shape. *)

(** The parameter object and the gradient object of key [k]. *)
Definition pref (ly : layer) (k : string) : ref :=
  default 0 (to_option (getitem (params ly) k)).
Definition gref (ly : layer) (k : string) : ref :=
  default 0 (to_option (getitem (grads ly) ("d" +:+ k))).

Definition param_refs (layers : list layer) : list ref :=
  layers ≫= (λ ly, values (params ly)).
Definition grad_refs (layers : list layer) : list ref :=
  layers ≫= (λ ly, values (grads ly)).

Lemma pref_elem_of ly k r : (k, r) ∈ params ly → NoDup (keys (params ly)) → pref ly k = r.
Proof. intros Hin Hnd. unfold pref. by rewrite (elem_of_getitem _ k r). Qed.

Lemma elem_of_keys {V} (d : dict V) k : k ∈ keys d → ∃ v, (k, v) ∈ d.
Proof.
  unfold keys. intros ([k' v] & -> & Hin)%list_elem_of_fmap. by exists v.
Qed.

Lemma elem_of_values {V} (d : dict V) k v : (k, v) ∈ d → v ∈ values d.
Proof. intros Hin. unfold values. apply list_elem_of_fmap. by exists (k, v). Qed.

Lemma elem_of_keys_2 {V} (d : dict V) k v : (k, v) ∈ d → k ∈ keys d.
Proof. intros Hin. unfold keys. apply list_elem_of_fmap. by exists (k, v). Qed.

Section Variant.
Context `{Scalar A}.
Context {E AUX OPT S_in S_out : Type}.
Context (lr m : A) (reg : option (regularizer A)).
(** The state kept for one key of one layer, and for one layer. *)
Context (rd_k : string → AUX → option E) (wr_k : string → E → AUX → AUX).
Context (rd_l : nat → OPT → option AUX) (wr_l : nat → AUX → OPT → OPT).
(** What the two loops thread, and their bodies. *)
Context (mk_in : AUX → layer → S_in) (mk_out : OPT → list layer → S_out).
Context (key_body : string → S_in → M A S_in).
Context (layer_body : nat * layer → S_out → M A S_out).
(** The parameter after the gradient step, the new state entry, and the
    shapes the step needs. *)
Context (pv : E → ndarray A → ndarray A → ndarray A).
Context (ne : E → ndarray A → E).
Context (epre : E → ndarray A → ndarray A → Prop).

Hypothesis rd_wr_k_eq : ∀ k e aux,
  is_Some (rd_k k aux) → rd_k k (wr_k k e aux) = Some e.
Hypothesis rd_wr_k_ne : ∀ k k' e aux,
  k ≠ k' → rd_k k' (wr_k k e aux) = rd_k k' aux.
Hypothesis rd_wr_l_eq : ∀ l aux opt,
  is_Some (rd_l l opt) → rd_l l (wr_l l aux opt) = Some aux.
Hypothesis rd_wr_l_ne : ∀ l l' aux opt,
  l ≠ l' → rd_l l' (wr_l l aux opt) = rd_l l' opt.
Hypothesis key_spec : ∀ k ly aux e (s : store A) r rg p g,
  getitem (params ly) k = Ok r →
  getitem (grads ly) ("d" +:+ k) = Ok rg →
  heap s !! r = Some p → heap s !! rg = Some g →
  rd_k k aux = Some e → epre e p g →
  key_body k (mk_in aux ly) s =
    Ok (mk_in (wr_k k (ne e g) aux) ly,
        Store (<[r := decay lr m reg k (pv e p g)]> (heap s))
              (calls s ++ decay_calls m reg k r (pv e p g))).
Hypothesis layer_unfold : ∀ l ly opt done aux (s : store A) aux' ly' s',
  rd_l l opt = Some aux →
  for_each (keys (params ly)) key_body (mk_in aux ly) s = Ok (mk_in aux' ly', s') →
  layer_body (l, ly) (mk_out opt done) s =
    Ok (mk_out (wr_l l aux' opt) (done ++ [ly']), s').

Implicit Types (h : gmap ref (ndarray A)) (ly : layer) (k : string).

(** *** The loop over the keys of one layer *)

Definition key_pre ly k (e : E) h : Prop :=
  ∃ r rg p g,
    getitem (params ly) k = Ok r ∧ getitem (grads ly) ("d" +:+ k) = Ok rg ∧
    h !! r = Some p ∧ h !! rg = Some g ∧ epre e p g.

(** The parameter of key [k] after the gradient step. *)
Definition key_value ly k (e : E) h : ndarray A :=
  pv e (h !!! pref ly k) (h !!! gref ly k).

Definition key_entry ly k (e : E) h : E := ne e (h !!! gref ly k).

Definition key_writes ly k (e : E) h : list (ref * ndarray A) :=
  [(pref ly k, decay lr m reg k (key_value ly k e h))].

Definition key_calls ly k (e : E) h : list (call A) :=
  decay_calls m reg k (pref ly k) (key_value ly k e h).

Definition key_reads ly k (r : ref) : Prop := r = pref ly k ∨ r = gref ly k.

Definition key_targets ly k : list ref := [pref ly k].

Lemma key_body_spec ly k e aux (ctx : unit) (s : store A) :
  rd_k k aux = Some e → key_pre ly k e (heap s) →
  key_body k (mk_in aux ly) s =
    Ok (mk_in (wr_k k (key_entry ly k e (heap s)) aux) ly,
        Store (write_all (key_writes ly k e (heap s)) (heap s))
              (calls s ++ key_calls ly k e (heap s))).
Proof.
  intros He (r & rg & p & g & Hr & Hrg & Hp & Hg & Hpre).
  unfold key_entry, key_writes, key_calls, key_value, pref, gref.
  rewrite Hr, Hrg. simpl.
  rewrite (lookup_total_correct _ _ _ Hp), (lookup_total_correct _ _ _ Hg).
  by apply (key_spec k ly aux e s r rg p g).
Qed.

Lemma key_footprint ly k e h h' :
  (∀ r, key_reads ly k r → h !! r = h' !! r) → key_pre ly k e h →
  key_pre ly k e h' ∧ key_entry ly k e h' = key_entry ly k e h ∧
  key_writes ly k e h' = key_writes ly k e h ∧
  key_calls ly k e h' = key_calls ly k e h.
Proof.
  intros Hagree (r & rg & p & g & Hr & Hrg & Hp & Hg & Hpre).
  assert (h' !!! pref ly k = h !!! pref ly k) as Hp'.
  { rewrite !lookup_total_alt. f_equal. symmetry. apply Hagree. by left. }
  assert (h' !!! gref ly k = h !!! gref ly k) as Hg'.
  { rewrite !lookup_total_alt. f_equal. symmetry. apply Hagree. by right. }
  unfold key_entry, key_writes, key_calls, key_value.
  rewrite Hp', Hg'. split_and!; try done.
  exists r, rg, p, g. split_and!; try done.
  - rewrite <-Hp. symmetry. apply Hagree. left. unfold pref. by rewrite Hr.
  - rewrite <-Hg. symmetry. apply Hagree. right. unfold gref. by rewrite Hrg.
Qed.

Definition layer_state ly (aux : AUX) h : AUX :=
  foldl (item_state Datatypes.id rd_k wr_k (key_entry ly) aux h) aux (keys (params ly)).

Definition layer_writes ly (aux : AUX) h : list (ref * ndarray A) :=
  keys (params ly) ≫= item_writes Datatypes.id rd_k (key_writes ly) aux h.

Definition layer_calls ly (aux : AUX) h : list (call A) :=
  keys (params ly) ≫= item_calls Datatypes.id rd_k (key_calls ly) aux h.

(** A layer that the loop over its keys can process: every parameter has
    its gradient and its state entry, of fitting shapes, and no array is
    the object of two keys or a gradient as well. *)
Definition layer_pre ly (aux : AUX) h : Prop :=
  NoDup (keys (params ly)) ∧ NoDup (values (params ly)) ∧
  ∀ k, k ∈ keys (params ly) →
    (gref ly k ∉ values (params ly)) ∧
    (∃ e, rd_k k aux = Some e ∧ key_pre ly k e h).

Lemma pref_inj ly k k' :
  NoDup (values (params ly)) → NoDup (keys (params ly)) →
  k ∈ keys (params ly) → k' ∈ keys (params ly) → pref ly k = pref ly k' → k = k'.
Proof.
  intros Hv Hk [r Hr]%elem_of_keys [r' Hr']%elem_of_keys.
  rewrite (pref_elem_of _ _ r), (pref_elem_of _ _ r'); [|done..].
  intros ->.
  apply list_elem_of_lookup in Hr as [i Hi], Hr' as [j Hj].
  assert (i = j) as ->.
  { apply (NoDup_lookup (values (params ly)) i j r'); [done|..];
      unfold values; rewrite list_lookup_fmap; [by rewrite Hi|by rewrite Hj]. }
  congruence.
Qed.

Lemma layer_loop ly aux h c :
  layer_pre ly aux h →
  for_each (keys (params ly)) key_body (mk_in aux ly) (Store h c) =
    Ok (mk_in (layer_state ly aux h) ly,
        Store (write_all (layer_writes ly aux h) h) (c ++ layer_calls ly aux h)).
Proof.
  intros (Hk & Hv & Hpre).
  pose proof (loop_spec (λ st (_ : unit), mk_in st ly) (λ _ c, c)
                Datatypes.id rd_k wr_k key_body (key_pre ly) (key_entry ly)
                (key_writes ly) (key_calls ly) (key_reads ly) (key_targets ly))
    as Hloop.
  rewrite (Hloop rd_wr_k_ne (key_body_spec ly) (key_footprint ly)
             (λ _ _ _ _, eq_refl) aux h (keys (params ly)) tt c); [done|..].
  - by rewrite list_fmap_id.
  - apply indep_intro; [done|].
    intros k k' r Hin Hin' Hne ->%list_elem_of_singleton [Heq|Heq].
    + by apply Hne, (pref_inj ly).
    + destruct (Hpre k' Hin') as [Hg _]. apply Hg. rewrite <-Heq.
      destruct (elem_of_keys _ _ Hin) as [r Hr].
      rewrite (pref_elem_of _ _ r); [|done..]. by eapply elem_of_values.
  - intros k Hin. by destruct (Hpre k Hin) as [_ ?].
Qed.

(** *** The loop over the layers *)

Definition layer_reads (x : nat * layer) (r : ref) : Prop :=
  r ∈ values (params x.2) ∨ r ∈ values (grads x.2).

Lemma layer_body_spec (x : nat * layer) aux opt done (s : store A) :
  rd_l x.1 opt = Some aux → layer_pre x.2 aux (heap s) →
  layer_body x (mk_out opt done) s =
    Ok (mk_out (wr_l x.1 (layer_state x.2 aux (heap s)) opt) (done ++ [x.2]),
        Store (write_all (layer_writes x.2 aux (heap s)) (heap s))
              (calls s ++ layer_calls x.2 aux (heap s))).
Proof.
  destruct x as [l ly], s as [h c]. simpl. intros Haux Hpre.
  eapply layer_unfold; [done|]. by apply layer_loop.
Qed.

Lemma key_reads_layer_reads l ly aux h k r :
  layer_pre ly aux h → k ∈ keys (params ly) →
  key_reads ly k r → layer_reads (l, ly) r.
Proof.
  intros (Hk & Hv & Hpre) Hin.
  destruct (Hpre k Hin) as (_ & e & He & r0 & rg & p & g & Hr & Hrg & _).
  unfold key_reads, layer_reads, pref, gref. rewrite Hr, Hrg. simpl.
  intros [->| ->]; [left|right].
  - eapply elem_of_values. by apply getitem_elem_of.
  - eapply elem_of_values. by apply getitem_elem_of.
Qed.

Lemma layer_footprint (x : nat * layer) aux h h' :
  (∀ r, layer_reads x r → h !! r = h' !! r) → layer_pre x.2 aux h →
  layer_pre x.2 aux h' ∧ layer_state x.2 aux h' = layer_state x.2 aux h ∧
  layer_writes x.2 aux h' = layer_writes x.2 aux h ∧
  layer_calls x.2 aux h' = layer_calls x.2 aux h.
Proof.
  destruct x as [l ly]. simpl. intros Hagree Hpre.
  assert (∀ k e, k ∈ keys (params ly) → rd_k k aux = Some e →
            key_pre ly k e h' ∧ key_entry ly k e h' = key_entry ly k e h ∧
            key_writes ly k e h' = key_writes ly k e h ∧
            key_calls ly k e h' = key_calls ly k e h) as Hkey.
  { intros k e Hin He. apply key_footprint.
    - intros r Hr. apply Hagree. by eapply key_reads_layer_reads.
    - destruct Hpre as (_ & _ & Hpre).
      destruct (Hpre k Hin) as (_ & e' & He' & Hp). congruence. }
  split_and!.
  - destruct Hpre as (Hk & Hv & Hpre). split_and!; [done..|].
    intros k Hin. destruct (Hpre k Hin) as (Hg & e & He & Hp).
    split; [done|]. exists e. split; [done|]. by apply Hkey.
  - unfold layer_state. apply foldl_ext_in. intros st k Hin.
    unfold item_state, Datatypes.id. destruct (rd_k k aux) as [e|] eqn:He; [|done].
    by destruct (Hkey k e Hin He) as (_ & -> & _).
  - unfold layer_writes. apply list_bind_ext_in. intros k Hin.
    unfold item_writes, Datatypes.id. destruct (rd_k k aux) as [e|] eqn:He; [|done].
    by destruct (Hkey k e Hin He) as (_ & _ & -> & _).
  - unfold layer_calls. apply list_bind_ext_in. intros k Hin.
    unfold item_calls, Datatypes.id. destruct (rd_k k aux) as [e|] eqn:He; [|done].
    by destruct (Hkey k e Hin He) as (_ & _ & _ & ->).
Qed.

Lemma pref_keys ly : NoDup (keys (params ly)) → pref ly <$> keys (params ly) = values (params ly).
Proof.
  intros Hk. unfold keys, values. rewrite <-list_fmap_compose.
  apply list_fmap_ext. intros i [k r] Hi. simpl.
  apply pref_elem_of; [|done]. by eapply list_elem_of_lookup_2.
Qed.

Lemma layer_writes_targets (x : nat * layer) aux h :
  layer_pre x.2 aux h → (layer_writes x.2 aux h).*1 = values (params x.2).
Proof.
  destruct x as [l ly]. simpl. intros (Hk & Hv & Hpre).
  rewrite <-pref_keys; [|done]. unfold layer_writes.
  clear Hk Hv. induction (keys (params ly)) as [|k ks IH]; [done|].
  rewrite bind_cons, fmap_app, IH; [|intros; apply Hpre; by right].
  destruct (Hpre k) as (_ & e & He & _); [left|].
  unfold item_writes at 1, Datatypes.id. by rewrite He.
Qed.

Definition run_state (layers : list layer) (opt : OPT) h : OPT :=
  foldl (item_state fst rd_l wr_l (λ x, layer_state x.2) opt h) opt (imap pair layers).

Definition run_writes (layers : list layer) (opt : OPT) h : list (ref * ndarray A) :=
  imap pair layers ≫= item_writes fst rd_l (λ x, layer_writes x.2) opt h.

Definition run_calls (layers : list layer) (opt : OPT) h : list (call A) :=
  imap pair layers ≫= item_calls fst rd_l (λ x, layer_calls x.2) opt h.

(** The inputs [update_params] is written for: parameter arrays are
    distinct objects, no gradient array is a parameter array, and every
    parameter has its gradient and its optimizer state. *)
Definition layers_pre (layers : list layer) (opt : OPT) h : Prop :=
  NoDup (param_refs layers) ∧
  (∀ r, r ∈ grad_refs layers → r ∉ param_refs layers) ∧
  ∀ l ly, layers !! l = Some ly →
    ∃ aux, rd_l l opt = Some aux ∧ NoDup (keys (params ly)) ∧
      ∀ k, k ∈ keys (params ly) → ∃ e, rd_k k aux = Some e ∧ key_pre ly k e h.

Lemma layers_pre_layer layers opt h l ly :
  layers_pre layers opt h → layers !! l = Some ly →
  ∃ aux, rd_l l opt = Some aux ∧ layer_pre ly aux h.
Proof.
  intros (Hnd & Hsep & Hpre) Hl.
  destruct (Hpre l ly Hl) as (aux & Haux & Hk & Hkeys).
  exists aux. split; [done|]. split_and!; [done| |].
  - apply (NoDup_bind_elem (λ ly, values (params ly)) layers); [done|].
    by eapply list_elem_of_lookup_2.
  - intros k Hin. split; [|by apply Hkeys].
    destruct (Hkeys k Hin) as (e & _ & r & rg & p & g & _ & Hrg & _).
    unfold gref. rewrite Hrg. simpl. intros Hv.
    apply (Hsep rg).
    + apply list_elem_of_bind. exists ly. split.
      * eapply elem_of_values. by apply getitem_elem_of.
      * by eapply list_elem_of_lookup_2.
    + apply list_elem_of_bind. exists ly. split; [done|].
      by eapply list_elem_of_lookup_2.
Qed.

Lemma foldl_snoc {X Y} (f : X → Y) (xs : list X) (d : list Y) :
  foldl (λ d x, d ++ [f x]) d xs = d ++ (f <$> xs).
Proof.
  revert d. induction xs as [|x xs IH]; intros d; simpl.
  - by rewrite app_nil_r.
  - rewrite IH. by rewrite <-(assoc_L (++)).
Qed.

Lemma layers_indep layers :
  NoDup (param_refs layers) →
  (∀ r, r ∈ grad_refs layers → r ∉ param_refs layers) →
  indep layer_reads (λ x, values (params x.2)) (imap pair layers).
Proof.
  intros Hnd Hsep. apply indep_intro.
  { apply (NoDup_fmap_1 fst). rewrite imap_pair_fst. apply NoDup_seq. }
  intros [i lx] [j ly] r Hx%elem_of_imap_pair Hy%elem_of_imap_pair Hne Hr [Hp|Hg];
    simpl in *.
  - assert (i = j) as ->.
    { by apply (NoDup_bind_inv (λ ly, values (params ly)) layers i j lx ly r). }
    congruence.
  - apply (Hsep r).
    + apply list_elem_of_bind. exists ly. split; [done|].
      by eapply list_elem_of_lookup_2.
    + apply list_elem_of_bind. exists lx. split; [done|].
      by eapply list_elem_of_lookup_2.
Qed.

Lemma layers_loop layers opt h c :
  layers_pre layers opt h →
  for_each (imap pair layers) layer_body (mk_out opt []) (Store h c) =
    Ok (mk_out (run_state layers opt h) layers,
        Store (write_all (run_writes layers opt h) h) (c ++ run_calls layers opt h)).
Proof.
  intros Hpre.
  pose proof (loop_spec mk_out (λ x done, done ++ [x.2])
                fst rd_l wr_l layer_body (λ x, layer_pre x.2)
                (λ x, layer_state x.2) (λ x, layer_writes x.2)
                (λ x, layer_calls x.2) layer_reads (λ x, values (params x.2))
                rd_wr_l_ne layer_body_spec layer_footprint layer_writes_targets
                opt h (imap pair layers) [] c)
    as Hloop.
  rewrite Hloop.
  - unfold flip. rewrite (foldl_snoc snd). by rewrite imap_pair_snd.
  - rewrite imap_pair_fst. apply NoDup_seq.
  - destruct Hpre as (Hnd & Hsep & _). by apply layers_indep.
  - intros [l ly] Hin%elem_of_imap_pair. simpl.
    by apply (layers_pre_layer layers).
Qed.

(** *** What the call leaves behind, parameter by parameter *)

(** Parameter [k] of layer [l] with its gradient and its state entry. *)
Definition cell (layers : list layer) (opt : OPT) h
    (l : nat) ly k (r rg : ref) (p g : ndarray A) (aux : AUX) (e : E) : Prop :=
  layers !! l = Some ly ∧ (k, r) ∈ params ly ∧
  getitem (grads ly) ("d" +:+ k) = Ok rg ∧
  h !! r = Some p ∧ h !! rg = Some g ∧
  rd_l l opt = Some aux ∧ rd_k k aux = Some e.

Lemma cell_key_value layers opt h l ly k r rg p g aux e :
  NoDup (keys (params ly)) →
  cell layers opt h l ly k r rg p g aux e →
  pref ly k = r ∧ key_value ly k e h = pv e p g ∧ key_entry ly k e h = ne e g.
Proof.
  intros Hk (Hl & Hin & Hrg & Hp & Hg & Haux & He).
  assert (pref ly k = r) as Hr by by apply pref_elem_of.
  unfold key_value, key_entry. rewrite Hr. unfold gref. rewrite Hrg. simpl.
  by rewrite (lookup_total_correct _ _ _ Hp), (lookup_total_correct _ _ _ Hg).
Qed.

Lemma run_writes_targets layers opt h :
  layers_pre layers opt h → (run_writes layers opt h).*1 = param_refs layers.
Proof.
  intros Hpre. unfold run_writes, param_refs.
  rewrite <-(imap_pair_snd layers) at 2.
  assert (∀ x, x ∈ imap pair layers →
            ∃ aux, rd_l x.1 opt = Some aux ∧ layer_pre x.2 aux h) as Hx.
  { intros [l ly] Hin%elem_of_imap_pair. by apply (layers_pre_layer layers). }
  induction (imap pair layers) as [|x xs IH]; [done|].
  rewrite bind_cons, fmap_app, fmap_cons, bind_cons.
  rewrite IH; [|intros; apply Hx; by right]. f_equal.
  destruct (Hx x) as (aux & Haux & Hl); [left|].
  unfold item_writes. rewrite Haux. by apply layer_writes_targets.
Qed.

Lemma elem_of_run_writes layers opt h l ly k r rg p g aux e :
  layers_pre layers opt h →
  cell layers opt h l ly k r rg p g aux e →
  (r, decay lr m reg k (pv e p g)) ∈ run_writes layers opt h.
Proof.
  intros Hpre Hcell.
  destruct (layers_pre_layer layers opt h l ly Hpre) as (aux' & Haux' & Hk & _);
    [apply Hcell|].
  destruct (cell_key_value _ _ _ _ _ _ _ _ _ _ _ _ Hk Hcell) as (Hr & Hv & _).
  destruct Hcell as (Hl & Hin & Hrg & Hp & Hg & Haux & He).
  apply list_elem_of_bind. exists (l, ly). split; [|by apply elem_of_imap_pair].
  unfold item_writes. simpl. rewrite Haux.
  apply list_elem_of_bind. exists k. split; [|by eapply elem_of_keys_2].
  unfold item_writes, Datatypes.id. rewrite He.
  unfold key_writes. rewrite Hr, Hv. left.
Qed.

(** The parameter arrays after the call. *)
Lemma lookup_run_writes layers opt h l ly k r rg p g aux e :
  layers_pre layers opt h →
  cell layers opt h l ly k r rg p g aux e →
  write_all (run_writes layers opt h) h !! r = Some (decay lr m reg k (pv e p g)).
Proof.
  intros Hpre Hcell. apply lookup_write_all_in.
  - rewrite run_writes_targets; [|done]. apply Hpre.
  - by eapply elem_of_run_writes.
Qed.

(** All other arrays are what they were. *)
Lemma lookup_run_writes_other layers opt h r :
  layers_pre layers opt h → r ∉ param_refs layers →
  write_all (run_writes layers opt h) h !! r = h !! r.
Proof.
  intros Hpre Hr. apply lookup_write_all_notin.
  by rewrite run_writes_targets.
Qed.

(** The optimizer state after the call. *)
Lemma layer_state_lookup ly aux h k e :
  layer_pre ly aux h → k ∈ keys (params ly) → rd_k k aux = Some e →
  rd_k k (layer_state ly aux h) = Some (key_entry ly k e h).
Proof.
  intros (Hk & _) Hin He. unfold layer_state.
  apply (final_state_in Datatypes.id rd_k wr_k (key_entry ly) rd_wr_k_eq rd_wr_k_ne
           aux h (keys (params ly)) aux k e); [|done|done|by exists e].
  by rewrite list_fmap_id.
Qed.

Lemma layer_state_other ly aux h k :
  k ∉ keys (params ly) → rd_k k (layer_state ly aux h) = rd_k k aux.
Proof.
  intros Hin. unfold layer_state.
  apply (final_state_notin Datatypes.id rd_k wr_k (key_entry ly) rd_wr_k_ne).
  by rewrite list_fmap_id.
Qed.

Lemma run_state_lookup layers opt h l ly aux :
  layers !! l = Some ly → rd_l l opt = Some aux →
  rd_l l (run_state layers opt h) = Some (layer_state ly aux h).
Proof.
  intros Hl Haux. unfold run_state.
  apply (final_state_in fst rd_l wr_l (λ x, layer_state x.2) rd_wr_l_eq rd_wr_l_ne
           opt h (imap pair layers) opt (l, ly) aux); [| |done|by exists aux].
  - rewrite imap_pair_fst. apply NoDup_seq.
  - by apply elem_of_imap_pair.
Qed.

Lemma run_state_other layers opt h l :
  length layers ≤ l → rd_l l (run_state layers opt h) = rd_l l opt.
Proof.
  intros Hl. unfold run_state.
  apply (final_state_notin fst rd_l wr_l (λ x, layer_state x.2) rd_wr_l_ne).
  rewrite imap_pair_fst, elem_of_seq. lia.
Qed.

Lemma run_state_cell layers opt h l ly k r rg p g aux e :
  layers_pre layers opt h →
  cell layers opt h l ly k r rg p g aux e →
  ∃ aux', rd_l l (run_state layers opt h) = Some aux' ∧
          rd_k k aux' = Some (ne e g).
Proof.
  intros Hpre Hcell.
  destruct (layers_pre_layer layers opt h l ly Hpre) as (aux' & Haux' & Hlp);
    [apply Hcell|].
  pose proof Hlp as (Hk & _).
  destruct (cell_key_value _ _ _ _ _ _ _ _ _ _ _ _ Hk Hcell) as (_ & _ & Hne).
  destruct Hcell as (Hl & Hin & Hrg & Hp & Hg & Haux & He).
  assert (aux' = aux) as -> by congruence.
  exists (layer_state ly aux h). split; [by apply run_state_lookup|].
  rewrite <-Hne. apply layer_state_lookup; [done| |done].
  by eapply elem_of_keys_2.
Qed.

(** The calls to the regularizer. *)
Lemma elem_of_run_calls layers opt h c :
  layers_pre layers opt h →
  c ∈ run_calls layers opt h ↔
  ∃ l ly k r rg p g aux e,
    cell layers opt h l ly k r rg p g aux e ∧
    c ∈ decay_calls m reg k r (pv e p g).
Proof.
  intros Hpre. split.
  - intros ([l ly] & Hc & Hl%elem_of_imap_pair)%list_elem_of_bind.
    destruct (layers_pre_layer layers opt h l ly Hpre Hl) as (aux & Haux & Hlp).
    unfold item_calls in Hc. simpl in Hc. rewrite Haux in Hc.
    apply list_elem_of_bind in Hc as (k & Hc & Hin).
    destruct Hlp as (Hk & Hv & Hkeys).
    destruct (Hkeys k Hin) as (_ & e & He & r & rg & p & g & Hr & Hrg & Hp & Hg & _).
    unfold item_calls, Datatypes.id in Hc. rewrite He in Hc.
    assert (cell layers opt h l ly k r rg p g aux e) as Hcell.
    { split_and!; try done. by apply getitem_elem_of. }
    destruct (cell_key_value _ _ _ _ _ _ _ _ _ _ _ _ Hk Hcell) as (Hr' & Hv' & _).
    unfold key_calls in Hc. rewrite Hr', Hv' in Hc.
    by exists l, ly, k, r, rg, p, g, aux, e.
  - intros (l & ly & k & r & rg & p & g & aux & e & Hcell & Hc).
    destruct (layers_pre_layer layers opt h l ly Hpre) as (aux' & Haux' & Hk & _);
      [apply Hcell|].
    destruct (cell_key_value _ _ _ _ _ _ _ _ _ _ _ _ Hk Hcell) as (Hr & Hv & _).
    destruct Hcell as (Hl & Hin & Hrg & Hp & Hg & Haux & He).
    apply list_elem_of_bind. exists (l, ly). split; [|by apply elem_of_imap_pair].
    unfold item_calls. simpl. rewrite Haux.
    apply list_elem_of_bind. exists k. split; [|by eapply elem_of_keys_2].
    unfold item_calls, Datatypes.id. rewrite He.
    unfold key_calls. by rewrite Hr, Hv.
Qed.

(** The regularizer is called at most once for an array object. *)
Lemma run_calls_NoDup layers opt h :
  layers_pre layers opt h → NoDup (call_obj <$> run_calls layers opt h).
Proof.
  intros Hpre.
  cut (call_obj <$> run_calls layers opt h `sublist_of` param_refs layers).
  { intros Hsub. eapply sublist_NoDup; [apply Hpre|exact Hsub]. }
  rewrite <-(run_writes_targets layers opt h Hpre).
  unfold run_calls, run_writes. rewrite !fmap_bind.
  apply sublist_bind. intros [l ly] _.
  unfold item_calls, item_writes. simpl. destruct (rd_l l opt) as [aux|]; [|done].
  unfold layer_calls, layer_writes. rewrite !fmap_bind.
  apply sublist_bind. intros k _.
  unfold item_calls, item_writes, Datatypes.id. destruct (rd_k k aux) as [e|]; [|done].
  unfold key_calls, key_writes, decay_calls. simpl.
  repeat case_match; simpl; try done; apply sublist_nil_l.
Qed.

(** The number of calls to [compute_term_delta] on the array of a
    parameter: one for key "W" under an L2 regularizer, none otherwise. *)
Lemma run_calls_count layers opt h l ly k r rg p g aux e :
  layers_pre layers opt h →
  cell layers opt h l ly k r rg p g aux e →
  length (filter (λ c, call_obj c = r) (run_calls layers opt h)) =
    if String.eqb k "W" && is_L2 reg then 1 else 0.
Proof.
  intros Hpre Hcell. rewrite count_fmap.
  rewrite count_NoDup; [|by apply run_calls_NoDup].
  destruct (String.eqb k "W" && is_L2 reg) eqn:Happ.
  - rewrite decide_True; [done|].
    apply list_elem_of_fmap. exists (Call r (pv e p g) m). split; [done|].
    apply elem_of_run_calls; [done|].
    exists l, ly, k, r, rg, p, g, aux, e. split; [done|].
    apply andb_true_iff in Happ as [Hk Hreg]. unfold decay_calls. rewrite Hk.
    destruct reg as [[f|]|]; [left|done|done].
  - rewrite decide_False; [done|].
    intros (c & Hobj & Hc)%list_elem_of_fmap.
    apply elem_of_run_calls in Hc
      as (l' & ly' & k' & r' & rg' & p' & g' & aux' & e' & Hcell' & Hc); [|done].
    assert (c = Call r' (pv e' p' g') m ∧ String.eqb k' "W" && is_L2 reg = true)
      as [-> Happ'].
    { unfold decay_calls in Hc. destruct (String.eqb k' "W"); [|by inv Hc].
      destruct reg as [[f|]|]; [|by inv Hc..].
      by apply list_elem_of_singleton in Hc. }
    simpl in Hobj. subst r'.
    destruct Hcell as (Hl & Hin & _), Hcell' as (Hl' & Hin' & _).
    assert (l' = l) as ->.
    { apply (NoDup_bind_inv (λ ly, values (params ly)) layers l' l ly' ly r);
        [apply Hpre|done|done|by eapply elem_of_values..]. }
    assert (ly' = ly) as -> by congruence.
    destruct (layers_pre_layer layers opt h l ly Hpre Hl) as (a & _ & Hk & Hv & _).
    assert (k' = k) as ->.
    { apply (pref_inj ly); [done|done|by eapply elem_of_keys_2..|].
      by rewrite (pref_elem_of ly k' r), (pref_elem_of ly k r). }
    congruence.
Qed.

(** Without an L2 regularizer no call is made. *)
Lemma run_calls_nil layers opt h :
  is_L2 reg = false → run_calls layers opt h = [].
Proof using Type.
  intros Hreg. unfold run_calls.
  induction (imap pair layers) as [|[l ly] xs IH]; [done|].
  rewrite bind_cons, IH, app_nil_r. unfold item_calls. simpl.
  destruct (rd_l l opt) as [aux|]; [|done]. unfold layer_calls.
  induction (keys (params ly)) as [|k ks IHk]; [done|].
  rewrite bind_cons, IHk, app_nil_r. unfold item_calls, Datatypes.id.
  destruct (rd_k k aux) as [e|]; [|done]. unfold key_calls.
  by apply decay_calls_nil.
Qed.
End Variant.

(** ** The inputs of [update_params] *)

Section Inputs.
Context `{Scalar A}.

(** The layer contract: parameter arrays are distinct objects, no gradient
    array is a parameter array, a dictionary has each key once, and every
    parameter [k] has its gradient ["d" + k], of the same shape. *)
Definition layers_ok (h : gmap ref (ndarray A)) (layers : list layer) : Prop :=
  NoDup (param_refs layers) ∧
  (∀ r, r ∈ grad_refs layers → r ∉ param_refs layers) ∧
  ∀ ly, ly ∈ layers →
    NoDup (keys (params ly)) ∧
    ∀ k r, (k, r) ∈ params ly →
      ∃ rg p g, getitem (grads ly) ("d" +:+ k) = Ok rg ∧
                h !! r = Some p ∧ h !! rg = Some g ∧ shape p = shape g.

(** Parameter [k] of layer [l]: its array [p] behind [r], its gradient [g]
    behind [rg]. *)
Definition param_at (h : gmap ref (ndarray A)) (layers : list layer)
    (l : nat) (ly : layer) (k : string) (r rg : ref) (p g : ndarray A) : Prop :=
  layers !! l = Some ly ∧ (k, r) ∈ params ly ∧
  getitem (grads ly) ("d" +:+ k) = Ok rg ∧
  h !! r = Some p ∧ h !! rg = Some g.

Definition arrays_well_formed (h : gmap ref (ndarray A)) : Prop :=
  ∀ r a, h !! r = Some a → well_formed a.

Lemma param_refs_param_at h layers r :
  layers_ok h layers → r ∈ param_refs layers →
  ∃ l ly k rg p g, param_at h layers l ly k r rg p g.
Proof.
  intros (_ & _ & Hly) (ly & Hr & Hin)%list_elem_of_bind.
  apply list_elem_of_lookup in Hin as Hl. destruct Hl as [l Hl].
  unfold values in Hr. apply list_elem_of_fmap in Hr as ([k r'] & -> & Hkr).
  destruct (Hly ly Hin) as [_ Hcells].
  destruct (Hcells k r' Hkr) as (rg & p & g & Hrg & Hp & Hg & _).
  by exists l, ly, k, rg, p, g.
Qed.

Lemma param_at_shape h layers l ly k r rg p g :
  layers_ok h layers → param_at h layers l ly k r rg p g → shape p = shape g.
Proof.
  intros (_ & _ & Hly) (Hl & Hin & Hrg & Hp & Hg).
  destruct (Hly ly) as [_ Hcells]; [by eapply list_elem_of_lookup_2|].
  destruct (Hcells k r Hin) as (rg' & p' & g' & Hrg' & Hp' & Hg' & Hs).
  congruence.
Qed.

Lemma param_at_refs h layers l ly k r rg p g :
  param_at h layers l ly k r rg p g →
  r ∈ param_refs layers ∧ rg ∈ grad_refs layers.
Proof.
  intros (Hl & Hin & Hrg & Hp & Hg). split.
  - apply list_elem_of_bind. exists ly. split; [by eapply elem_of_values|].
    by eapply list_elem_of_lookup_2.
  - apply list_elem_of_bind. exists ly. split.
    + eapply elem_of_values. by apply getitem_elem_of.
    + by eapply list_elem_of_lookup_2.
Qed.
End Inputs.

(** ** GradientDescent *)

Section GradientDescentFacts.
Context `{Scalar A}.

(** [p - lr * g] *)
Definition gd_step (lr : A) (p g : ndarray A) : ndarray A :=
  zip_arr fsub p (rmul lr g).

Context (self : GradientDescent.optimizer A) (m : A) (reg : option (regularizer A)).
Hypothesis Hreg : shape_preserving reg.
Implicit Types (h : gmap ref (ndarray A)) (c : list (call A)).

Let lr := GradientDescent.lr self.
Let rd_k := λ (_ : string) (_ : unit), Some tt.
Let wr_k := λ (_ : string) (_ : unit) (a : unit), a.
Let rd_l := λ (_ : nat) (_ : unit), Some tt.
Let wr_l := λ (_ : nat) (_ : unit) (a : unit), a.
Let pv := λ (_ : unit) (p g : ndarray A), gd_step lr p g.
Let ne := λ (e : unit) (_ : ndarray A), e.
Let epre := λ (_ : unit) (p g : ndarray A), shape p = shape g.

Lemma gd_key_spec k ly (aux e : unit) (s : store A) r rg p g :
  getitem (params ly) k = Ok r →
  getitem (grads ly) ("d" +:+ k) = Ok rg →
  heap s !! r = Some p → heap s !! rg = Some g →
  rd_k k aux = Some e → epre e p g →
  GradientDescent.update_key self m reg k ly s =
    Ok (ly, Store (<[r := decay lr m reg k (pv e p g)]> (heap s))
                  (calls s ++ decay_calls m reg k r (pv e p g))).
Proof.
  intros Hr Hrg Hp Hg _ Hs. unfold GradientDescent.update_key, bind, lift.
  rewrite Hr, Hrg. unfold load. rewrite Hg.
  rewrite (isub_spec r p); [|done..].
  unfold set_param. rewrite setitem_same; [|done].
  replace (Layer (params ly) (grads ly)) with ly by by destruct ly.
  rewrite (weight_decay_spec _ _ _ ly k r (gd_step lr p g)); [|done|done|].
  - simpl. by rewrite insert_insert_eq.
  - simpl. by rewrite lookup_insert_eq.
Qed.

Definition gd_layer_body (x : nat * layer) (done : list layer) : M A (list layer) :=
  let* ly' := GradientDescent.update_layer self m reg x.2 in ret (done ++ [ly']).

Lemma gd_layer_unfold (l : nat) ly (opt : unit) (done : list layer) (aux : unit)
    (s : store A) (aux' : unit) ly' s' :
  rd_l l opt = Some aux →
  for_each (keys (params ly)) (GradientDescent.update_key self m reg) ly s = Ok (ly', s') →
  gd_layer_body (l, ly) done s = Ok (done ++ [ly'], s').
Proof.
  intros _ Hloop. unfold gd_layer_body, GradientDescent.update_layer, bind. simpl.
  by rewrite Hloop.
Qed.

(** The arrays written and the regularizer calls made by one call. *)
Definition gd_writes (layers : list layer) (h : gmap ref (ndarray A)) :=
  run_writes lr m reg rd_k rd_l pv layers tt h.
Definition gd_calls (layers : list layer) (h : gmap ref (ndarray A)) :=
  run_calls m reg rd_k rd_l pv layers tt h.

Lemma gd_layers_pre layers h :
  layers_ok h layers → layers_pre rd_k rd_l epre layers tt h.
Proof.
  intros (Hnd & Hsep & Hly). split_and!; [done..|].
  intros l ly Hl. exists tt. split; [done|].
  destruct (Hly ly) as [Hk Hcells]; [by eapply list_elem_of_lookup_2|].
  split; [done|]. intros k [r Hin]%elem_of_keys. exists tt. split; [done|].
  destruct (Hcells k r Hin) as (rg & p & g & Hrg & Hp & Hg & Hs).
  exists r, rg, p, g. split_and!; try done. by apply elem_of_getitem.
Qed.

Lemma gd_update_params_spec layers h c :
  layers_ok h layers →
  GradientDescent.update_params self layers m reg (Store h c) =
    Ok (layers, Store (write_all (gd_writes layers h) h) (c ++ gd_calls layers h)).
Proof.
  intros Hok. unfold GradientDescent.update_params.
  rewrite <-(imap_pair_snd layers) at 1. rewrite for_each_fmap.
  apply (layers_loop lr m reg rd_k wr_k rd_l wr_l (λ _ ly, ly) (λ _ done, done)
           (GradientDescent.update_key self m reg) gd_layer_body pv ne epre).
  - done.
  - done.
  - apply gd_key_spec.
  - apply gd_layer_unfold.
  - by apply gd_layers_pre.
Qed.

Lemma gd_cell layers h l ly k r rg p g :
  param_at h layers l ly k r rg p g →
  cell rd_k rd_l layers tt h l ly k r rg p g tt tt.
Proof. intros (? & ? & ? & ? & ?). by split_and!. Qed.

(** Every parameter array after the call. *)
Lemma gd_lookup layers h l ly k r rg p g :
  layers_ok h layers → param_at h layers l ly k r rg p g →
  write_all (gd_writes layers h) h !! r = Some (decay lr m reg k (gd_step lr p g)).
Proof.
  intros Hok Hat.
  apply (lookup_run_writes lr m reg rd_k rd_l pv ne epre layers tt h l ly k r rg p g tt tt).
  - by apply gd_layers_pre.
  - by apply gd_cell.
Qed.

Lemma gd_lookup_other layers h r :
  layers_ok h layers → r ∉ param_refs layers →
  write_all (gd_writes layers h) h !! r = h !! r.
Proof.
  intros Hok Hr. apply (lookup_run_writes_other lr m reg rd_k rd_l pv epre); [|done].
  by apply gd_layers_pre.
Qed.

Lemma gd_calls_count layers h l ly k r rg p g :
  layers_ok h layers → param_at h layers l ly k r rg p g →
  length (filter (λ x, call_obj x = r) (gd_calls layers h)) =
    if String.eqb k "W" && is_L2 reg then 1 else 0.
Proof.
  intros Hok Hat.
  apply (run_calls_count lr m reg rd_k wr_k rd_l (λ _ ly, ly)
           (GradientDescent.update_key self m reg) pv ne epre gd_key_spec
           layers tt h l ly k r rg p g tt tt).
  - by apply gd_layers_pre.
  - by apply gd_cell.
Qed.

Lemma gd_calls_nil layers h : is_L2 reg = false → gd_calls layers h = [].
Proof. apply run_calls_nil. Qed.
End GradientDescentFacts.

(** ** Momentum *)

Section MomentumFacts.
Context `{Scalar A}.

(** [beta * v + (1 - beta) * g] *)
Definition moment (beta : A) (v g : ndarray A) : ndarray A :=
  zip_arr fadd (rmul beta v) (rmul (fsub fone beta) g).

(** [v / (1 - beta ** t)] *)
Definition bias_corrected (beta : A) (t : Z) (v : ndarray A) : ndarray A :=
  truediv_scalar v (fsub fone (fpow beta t)).

(** The parameter after the gradient step of [Momentum], from the stored
    velocity [v]. *)
Definition momentum_step (lr beta : A) (t : Z) (v p g : ndarray A) : ndarray A :=
  zip_arr fsub p (rmul lr (bias_corrected beta t (moment beta v g))).

Context (lr beta : A) (t : Z) (m : A) (reg : option (regularizer A)).
Hypothesis Hreg : shape_preserving reg.
Implicit Types (h : gmap ref (ndarray A)) (c : list (call A)).
Implicit Types (v : dict (ndarray A)) (lv : list (dict (ndarray A))).

Let rd_k := λ (k : string) (v : dict (ndarray A)), to_option (getitem v ("d" +:+ k)).
Let wr_k := λ (k : string) (e : ndarray A) (v : dict (ndarray A)), setitem v ("d" +:+ k) e.
Let rd_l := λ (l : nat) (lv : list (dict (ndarray A))), lv !! l.
Let wr_l := λ (l : nat) (v : dict (ndarray A)) (lv : list (dict (ndarray A))), <[l := v]> lv.
Let pv := λ (e p g : ndarray A), momentum_step lr beta t e p g.
Let ne := λ (e g : ndarray A), moment beta e g.
Let epre := λ (e p g : ndarray A), shape e = shape g ∧ shape p = shape e.
Let mk_in := λ (v : dict (ndarray A)) (ly : layer), (v, ly).
Let mk_out := λ (lv : list (dict (ndarray A))) (done : list layer),
  (Momentum.Make lr beta (Some lv), done).
Let key_body := Momentum.update_key (Momentum.Make lr beta None) t m reg.

Lemma momentum_rd_wr_k_eq k e v : is_Some (rd_k k v) → rd_k k (wr_k k e v) = Some e.
Proof. intros _. unfold rd_k, wr_k. by rewrite getitem_setitem_eq. Qed.

Lemma momentum_rd_wr_k_ne k k' e v : k ≠ k' → rd_k k' (wr_k k e v) = rd_k k' v.
Proof.
  intros Hne. unfold rd_k, wr_k. rewrite getitem_setitem_ne; [done|].
  intros Heq. by apply Hne, grad_key_inj.
Qed.

Lemma momentum_rd_wr_l_eq l v lv : is_Some (rd_l l lv) → rd_l l (wr_l l v lv) = Some v.
Proof. intros Hl%lookup_lt_is_Some. by apply list_lookup_insert_eq. Qed.

Lemma momentum_rd_wr_l_ne l l' v lv : l ≠ l' → rd_l l' (wr_l l v lv) = rd_l l' lv.
Proof. intros Hne. by apply list_lookup_insert_ne. Qed.

Lemma momentum_key_spec k ly v e (s : store A) r rg p g :
  getitem (params ly) k = Ok r →
  getitem (grads ly) ("d" +:+ k) = Ok rg →
  heap s !! r = Some p → heap s !! rg = Some g →
  rd_k k v = Some e → epre e p g →
  key_body k (mk_in v ly) s =
    Ok (mk_in (wr_k k (ne e g) v) ly,
        Store (<[r := decay lr m reg k (pv e p g)]> (heap s))
              (calls s ++ decay_calls m reg k r (pv e p g))).
Proof.
  intros Hr Hrg Hp Hg He [Hs1 Hs2].
  unfold rd_k in He. destruct (getitem v ("d" +:+ k)) as [e'|] eqn:Hv; [|done].
  injection He as ->.
  unfold key_body, mk_in, Momentum.update_key, bind, lift. simpl.
  rewrite Hr, Hrg, Hv. unfold load. rewrite Hg.
  unfold nd_add. rewrite elementwise_ok; [|done].
  rewrite getitem_setitem_eq.
  rewrite (isub_spec r p); [|done|by rewrite Hs2].
  unfold set_param. rewrite setitem_same; [|done].
  replace (Layer (params ly) (grads ly)) with ly by by destruct ly.
  rewrite (weight_decay_spec _ _ _ ly k r (momentum_step lr beta t e p g)); [|done|done|].
  - unfold ret. simpl. by rewrite insert_insert_eq.
  - simpl. by rewrite lookup_insert_eq.
Qed.

Definition momentum_layer_body (x : nat * layer)
    (acc : Momentum.optimizer A * list layer) :=
  (let '(l, ly) := x in
   λ '(self, done),
     let* r := Momentum.update_layer t m reg l ly self in
     ret (r.1, done ++ [r.2])) acc.

Lemma momentum_layer_unfold l ly lv (done : list layer) v (s : store A) v' ly' s' :
  rd_l l lv = Some v →
  for_each (keys (params ly)) key_body (mk_in v ly) s = Ok (mk_in v' ly', s') →
  momentum_layer_body (l, ly) (mk_out lv done) s =
    Ok (mk_out (wr_l l v' lv) (done ++ [ly']), s').
Proof.
  intros Hl Hloop.
  unfold momentum_layer_body, mk_out, Momentum.update_layer, bind, lift.
  unfold Momentum.get_v. simpl. unfold rd_l in Hl. rewrite Hl.
  change (Momentum.update_key _ t m reg) with key_body.
  unfold mk_in in Hloop. by rewrite Hloop.
Qed.

(** The velocity buffers fit the layers: layer [l] has its dictionary, with
    an entry of the parameter's shape for every parameter. *)
Definition momentum_state_ok h (layers : list layer) lv : Prop :=
  ∀ l ly, layers !! l = Some ly →
    ∃ v, lv !! l = Some v ∧
      ∀ k r p, (k, r) ∈ params ly → h !! r = Some p →
        ∃ e, getitem v ("d" +:+ k) = Ok e ∧ shape e = shape p.

(** The velocity [e] stored for parameter [k] of layer [l]. *)
Definition velocity_at lv (l : nat) (k : string) (e : ndarray A) : Prop :=
  ∃ v, lv !! l = Some v ∧ getitem v ("d" +:+ k) = Ok e.

Lemma momentum_layers_pre layers lv h :
  layers_ok h layers → momentum_state_ok h layers lv →
  layers_pre rd_k rd_l epre layers lv h.
Proof.
  intros (Hnd & Hsep & Hly) Hst. split_and!; [done..|].
  intros l ly Hl. destruct (Hst l ly Hl) as (v & Hv & Hentries).
  exists v. split; [done|].
  destruct (Hly ly) as [Hk Hcells]; [by eapply list_elem_of_lookup_2|].
  split; [done|]. intros k [r Hin]%elem_of_keys.
  destruct (Hcells k r Hin) as (rg & p & g & Hrg & Hp & Hg & Hs).
  destruct (Hentries k r p Hin Hp) as (e & He & Hse).
  exists e. split; [unfold rd_k; by rewrite He|].
  exists r, rg, p, g. split_and!; try done; [by apply elem_of_getitem|].
  unfold epre. split; congruence.
Qed.

Definition momentum_writes (layers : list layer) lv h :=
  run_writes lr m reg rd_k rd_l pv layers lv h.
Definition momentum_calls (layers : list layer) lv h :=
  run_calls m reg rd_k rd_l pv layers lv h.
Definition momentum_state (layers : list layer) lv h :=
  run_state rd_k wr_k rd_l wr_l ne layers lv h.

Lemma momentum_update_params_spec layers lv h c :
  layers_ok h layers → momentum_state_ok h layers lv →
  Momentum.update_params (Momentum.Make lr beta (Some lv)) layers t m reg (Store h c) =
    Ok ((Momentum.Make lr beta (Some (momentum_state layers lv h)), layers),
        Store (write_all (momentum_writes layers lv h) h)
              (c ++ momentum_calls layers lv h)).
Proof.
  intros Hok Hst. unfold Momentum.update_params.
  apply (layers_loop lr m reg rd_k wr_k rd_l wr_l mk_in mk_out key_body
           momentum_layer_body pv ne epre).
  - apply momentum_rd_wr_k_ne.
  - apply momentum_rd_wr_l_ne.
  - apply momentum_key_spec.
  - apply momentum_layer_unfold.
  - by apply momentum_layers_pre.
Qed.

Lemma momentum_cell layers lv h l ly k r rg p g e :
  param_at h layers l ly k r rg p g → velocity_at lv l k e →
  ∃ v, cell rd_k rd_l layers lv h l ly k r rg p g v e.
Proof.
  intros (? & ? & ? & ? & ?) (v & Hv & He). exists v.
  split_and!; try done. unfold rd_k. by rewrite He.
Qed.

Lemma momentum_lookup layers lv h l ly k r rg p g e :
  layers_ok h layers → momentum_state_ok h layers lv →
  param_at h layers l ly k r rg p g → velocity_at lv l k e →
  write_all (momentum_writes layers lv h) h !! r =
    Some (decay lr m reg k (momentum_step lr beta t e p g)).
Proof.
  intros Hok Hst Hat He.
  destruct (momentum_cell layers lv h l ly k r rg p g e Hat He) as [v Hcell].
  apply (lookup_run_writes lr m reg rd_k rd_l pv ne epre layers lv h l ly k r rg p g v e).
  - by apply momentum_layers_pre.
  - done.
Qed.

Lemma momentum_lookup_other layers lv h r :
  layers_ok h layers → momentum_state_ok h layers lv → r ∉ param_refs layers →
  write_all (momentum_writes layers lv h) h !! r = h !! r.
Proof.
  intros Hok Hst Hr.
  apply (lookup_run_writes_other lr m reg rd_k rd_l pv epre); [|done].
  by apply momentum_layers_pre.
Qed.

Lemma momentum_calls_count layers lv h l ly k r rg p g e :
  layers_ok h layers → momentum_state_ok h layers lv →
  param_at h layers l ly k r rg p g → velocity_at lv l k e →
  length (filter (λ x, call_obj x = r) (momentum_calls layers lv h)) =
    if String.eqb k "W" && is_L2 reg then 1 else 0.
Proof.
  intros Hok Hst Hat He.
  destruct (momentum_cell layers lv h l ly k r rg p g e Hat He) as [v Hcell].
  apply (run_calls_count lr m reg rd_k wr_k rd_l mk_in key_body pv ne epre
           momentum_key_spec layers lv h l ly k r rg p g v e).
  - by apply momentum_layers_pre.
  - done.
Qed.

(** The velocity after the call. *)
Lemma momentum_state_at layers lv h l ly k r rg p g e :
  layers_ok h layers → momentum_state_ok h layers lv →
  param_at h layers l ly k r rg p g → velocity_at lv l k e →
  velocity_at (momentum_state layers lv h) l k (moment beta e g).
Proof.
  intros Hok Hst Hat He.
  destruct (momentum_cell layers lv h l ly k r rg p g e Hat He) as [v Hcell].
  destruct (run_state_cell rd_k wr_k rd_l wr_l pv ne epre
              momentum_rd_wr_k_eq momentum_rd_wr_k_ne
              momentum_rd_wr_l_eq momentum_rd_wr_l_ne
              layers lv h l ly k r rg p g v e) as (v' & Hv' & He'); [|done|].
  { by apply momentum_layers_pre. }
  exists v'. split; [done|]. unfold rd_k in He'.
  destruct (getitem v' ("d" +:+ k)) as [e''|]; simpl in He'; [|done].
  by injection He' as ->.
Qed.

Lemma momentum_state_ok_next layers lv h h' :
  layers_ok h layers → momentum_state_ok h layers lv →
  (∀ r p, r ∈ param_refs layers → h !! r = Some p →
          ∃ p', h' !! r = Some p' ∧ shape p' = shape p) →
  (∀ r p', r ∈ param_refs layers → h' !! r = Some p' → is_Some (h !! r)) →
  momentum_state_ok h' layers (momentum_state layers lv h).
Proof.
  intros Hok Hst Hh Hh' l ly Hl.
  destruct (Hst l ly Hl) as (v & Hv & Hentries).
  exists (layer_state rd_k wr_k ne ly v h). split.
  { by apply (run_state_lookup rd_k wr_k rd_l wr_l ne
                momentum_rd_wr_l_eq momentum_rd_wr_l_ne). }
  intros k r p' Hin Hp'.
  assert (r ∈ param_refs layers) as Hr.
  { apply list_elem_of_bind. exists ly. split; [by eapply elem_of_values|].
    by eapply list_elem_of_lookup_2. }
  destruct (Hh' r p' Hr Hp') as [p Hp].
  destruct (Hh r p Hr Hp) as (p'' & Hp'' & Hsp).
  assert (p'' = p') as -> by congruence.
  destruct Hok as (Hnd & Hsep & Hly).
  destruct (Hly ly) as [Hk Hcells]; [by eapply list_elem_of_lookup_2|].
  destruct (Hcells k r Hin) as (rg & p0 & g & Hrg & Hp0 & Hg & Hs).
  assert (p0 = p) as -> by congruence.
  destruct (Hentries k r p Hin Hp) as (e & He & Hse).
  destruct (momentum_state_at layers lv h l ly k r rg p g e)
    as (v' & Hv' & He'); [by split_and!|done|by split_and!|by exists v|].
  assert (v' = layer_state rd_k wr_k ne ly v h) as ->.
  { apply (inj Some). rewrite <-Hv'.
    exact (run_state_lookup rd_k wr_k rd_l wr_l ne
             momentum_rd_wr_l_eq momentum_rd_wr_l_ne layers lv h l ly v Hl Hv). }
  exists (moment beta e g). split; [done|]. unfold moment. simpl. congruence.
Qed.

Lemma momentum_calls_nil layers lv h : is_L2 reg = false → momentum_calls layers lv h = [].
Proof. apply run_calls_nil. Qed.
End MomentumFacts.

(** ** Adam *)

Section AdamFacts.
Context `{Scalar A}.

(** [beta2 * s + (1 - beta2) * np.square(g)] *)
Definition moment2 (beta2 : A) (s g : ndarray A) : ndarray A :=
  zip_arr fadd (rmul beta2 s) (rmul (fsub fone beta2) (np_square g)).

(** The parameter after the gradient step of [Adam], from the stored
    moments [v] and [s]. *)
Definition adam_step (lr beta1 beta2 eps : A) (t : Z) (v s p g : ndarray A)
    : ndarray A :=
  zip_arr fsub p
    (zip_arr fdiv
       (rmul lr (bias_corrected beta1 t (moment beta1 v g)))
       (add_scalar (np_sqrt (bias_corrected beta2 t (moment2 beta2 s g))) eps)).

Context (lr beta1 beta2 eps : A) (t : Z) (m : A) (reg : option (regularizer A)).
Hypothesis Hreg : shape_preserving reg.
Implicit Types (h : gmap ref (ndarray A)) (c : list (call A)).
Implicit Types (lv ls : list (dict (ndarray A))).

Let AUX : Type := dict (ndarray A) * dict (ndarray A).
Let OPT : Type := list (dict (ndarray A)) * list (dict (ndarray A)).
Let E : Type := ndarray A * ndarray A.

Let rd_k := λ (k : string) (aux : AUX),
  match getitem aux.1 ("d" +:+ k), getitem aux.2 ("d" +:+ k) with
  | Ok a, Ok b => Some (a, b)
  | _, _ => None
  end.
Let wr_k := λ (k : string) (e : E) (aux : AUX),
  (setitem aux.1 ("d" +:+ k) e.1, setitem aux.2 ("d" +:+ k) e.2).
Let rd_l := λ (l : nat) (opt : OPT),
  match opt.1 !! l, opt.2 !! l with
  | Some v, Some s => Some (v, s)
  | _, _ => None
  end.
Let wr_l := λ (l : nat) (aux : AUX) (opt : OPT),
  (<[l := aux.1]> opt.1, <[l := aux.2]> opt.2).
Let pv := λ (e : E) (p g : ndarray A), adam_step lr beta1 beta2 eps t e.1 e.2 p g.
Let ne := λ (e : E) (g : ndarray A), (moment beta1 e.1 g, moment2 beta2 e.2 g).
Let epre := λ (e : E) (p g : ndarray A),
  shape e.1 = shape g ∧ shape e.2 = shape g ∧ shape p = shape e.1.
Let mk_in := λ (aux : AUX) (ly : layer), (aux.1, aux.2, ly).
Let mk_out := λ (opt : OPT) (done : list layer),
  (Adam.Make lr beta1 beta2 eps (Some opt.1) (Some opt.2), done).
Let key_body := Adam.update_key (Adam.Make lr beta1 beta2 eps None None) t m reg.

Lemma adam_rd_wr_k_eq k e aux : is_Some (rd_k k aux) → rd_k k (wr_k k e aux) = Some e.
Proof.
  intros _. unfold rd_k, wr_k. simpl. rewrite !getitem_setitem_eq. by destruct e.
Qed.

Lemma adam_rd_wr_k_ne k k' e aux : k ≠ k' → rd_k k' (wr_k k e aux) = rd_k k' aux.
Proof.
  intros Hne. unfold rd_k, wr_k. simpl.
  rewrite !getitem_setitem_ne; [done|intros Heq; by apply Hne, grad_key_inj..].
Qed.

Lemma adam_rd_wr_l_eq l aux opt : is_Some (rd_l l opt) → rd_l l (wr_l l aux opt) = Some aux.
Proof.
  unfold rd_l, wr_l. simpl.
  destruct (opt.1 !! l) as [v|] eqn:Hv; [|by intros [??]].
  destruct (opt.2 !! l) as [s|] eqn:Hs; [|by intros [??]].
  intros _. apply lookup_lt_Some in Hv, Hs.
  rewrite !list_lookup_insert_eq; [|done..]. by destruct aux.
Qed.

Lemma adam_rd_wr_l_ne l l' aux opt : l ≠ l' → rd_l l' (wr_l l aux opt) = rd_l l' opt.
Proof.
  intros Hne. unfold rd_l, wr_l. simpl. by rewrite !list_lookup_insert_ne.
Qed.

Lemma adam_key_spec k ly aux e (s : store A) r rg p g :
  getitem (params ly) k = Ok r →
  getitem (grads ly) ("d" +:+ k) = Ok rg →
  heap s !! r = Some p → heap s !! rg = Some g →
  rd_k k aux = Some e → epre e p g →
  key_body k (mk_in aux ly) s =
    Ok (mk_in (wr_k k (ne e g) aux) ly,
        Store (<[r := decay lr m reg k (pv e p g)]> (heap s))
              (calls s ++ decay_calls m reg k r (pv e p g))).
Proof.
  intros Hr Hrg Hp Hg He (Hs1 & Hs2 & Hs3).
  unfold rd_k in He.
  destruct (getitem aux.1 ("d" +:+ k)) as [ev|] eqn:Hv; [|done].
  destruct (getitem aux.2 ("d" +:+ k)) as [es|] eqn:Hs; [|done].
  injection He as <-. simpl in Hs1, Hs2, Hs3.
  unfold key_body, mk_in, Adam.update_key, bind, lift. simpl.
  rewrite Hr, Hrg, Hv, Hs. unfold load. rewrite Hg.
  unfold nd_add, nd_div. rewrite elementwise_ok; [|done].
  simpl. rewrite Hg. rewrite elementwise_ok; [|done].
  rewrite !getitem_setitem_eq.
  rewrite elementwise_ok; [|simpl; congruence].
  rewrite (isub_spec r p); [|done|by rewrite Hs3].
  unfold set_param. rewrite setitem_same; [|done].
  replace (Layer (params ly) (grads ly)) with ly by by destruct ly.
  rewrite (weight_decay_spec _ _ _ ly k r (adam_step lr beta1 beta2 eps t ev es p g));
    [|done|done|].
  - unfold ret. simpl. by rewrite insert_insert_eq.
  - simpl. by rewrite lookup_insert_eq.
Qed.

Definition adam_layer_body (x : nat * layer) (acc : Adam.optimizer A * list layer) :=
  (let '(l, ly) := x in
   λ '(self, done),
     let* r := Adam.update_layer t m reg l ly self in
     ret (r.1, done ++ [r.2])) acc.

Lemma adam_layer_unfold l ly opt (done : list layer) aux (s : store A) aux' ly' s' :
  rd_l l opt = Some aux →
  for_each (keys (params ly)) key_body (mk_in aux ly) s = Ok (mk_in aux' ly', s') →
  adam_layer_body (l, ly) (mk_out opt done) s =
    Ok (mk_out (wr_l l aux' opt) (done ++ [ly']), s').
Proof.
  intros Hl Hloop.
  unfold adam_layer_body, mk_out, Adam.update_layer, bind, lift.
  unfold Adam.get_v, Adam.get_s. simpl. unfold rd_l in Hl.
  destruct (opt.1 !! l) as [v|]; [|done]. destruct (opt.2 !! l) as [s0|]; [|done].
  injection Hl as <-.
  change (Adam.update_key _ t m reg) with key_body.
  unfold mk_in in Hloop. simpl in Hloop. by rewrite Hloop.
Qed.

(** The moment buffers fit the layers. *)
Definition adam_state_ok h (layers : list layer) lv ls : Prop :=
  ∀ l ly, layers !! l = Some ly →
    ∃ v s, lv !! l = Some v ∧ ls !! l = Some s ∧
      ∀ k r p, (k, r) ∈ params ly → h !! r = Some p →
        ∃ ev es, getitem v ("d" +:+ k) = Ok ev ∧ getitem s ("d" +:+ k) = Ok es ∧
                 shape ev = shape p ∧ shape es = shape p.

Lemma adam_layers_pre layers lv ls h :
  layers_ok h layers → adam_state_ok h layers lv ls →
  layers_pre rd_k rd_l epre layers (lv, ls) h.
Proof.
  intros (Hnd & Hsep & Hly) Hst. split_and!; [done..|].
  intros l ly Hl. destruct (Hst l ly Hl) as (v & s & Hv & Hs & Hentries).
  exists (v, s). split; [unfold rd_l; simpl; by rewrite Hv, Hs|].
  destruct (Hly ly) as [Hk Hcells]; [by eapply list_elem_of_lookup_2|].
  split; [done|]. intros k [r Hin]%elem_of_keys.
  destruct (Hcells k r Hin) as (rg & p & g & Hrg & Hp & Hg & Hsh).
  destruct (Hentries k r p Hin Hp) as (ev & es & Hev & Hes & Hsv & Hss).
  exists (ev, es). split; [unfold rd_k; simpl; by rewrite Hev, Hes|].
  exists r, rg, p, g. split_and!; try done; [by apply elem_of_getitem|].
  unfold epre. simpl. split_and!; congruence.
Qed.

Definition adam_writes (layers : list layer) lv ls h :=
  run_writes lr m reg rd_k rd_l pv layers (lv, ls) h.
Definition adam_calls (layers : list layer) lv ls h :=
  run_calls m reg rd_k rd_l pv layers (lv, ls) h.
Definition adam_state (layers : list layer) lv ls h :=
  run_state rd_k wr_k rd_l wr_l ne layers (lv, ls) h.

Lemma adam_update_params_spec layers lv ls h c :
  layers_ok h layers → adam_state_ok h layers lv ls →
  Adam.update_params (Adam.Make lr beta1 beta2 eps (Some lv) (Some ls))
      layers t m reg (Store h c) =
    Ok ((Adam.Make lr beta1 beta2 eps
           (Some (adam_state layers lv ls h).1) (Some (adam_state layers lv ls h).2),
         layers),
        Store (write_all (adam_writes layers lv ls h) h)
              (c ++ adam_calls layers lv ls h)).
Proof.
  intros Hok Hst. unfold Adam.update_params.
  apply (layers_loop lr m reg rd_k wr_k rd_l wr_l mk_in mk_out key_body
           adam_layer_body pv ne epre adam_rd_wr_k_ne adam_rd_wr_l_ne
           adam_key_spec adam_layer_unfold layers (lv, ls) h c).
  by apply adam_layers_pre.
Qed.

Lemma adam_cell layers lv ls h l ly k r rg p g ev es :
  param_at h layers l ly k r rg p g →
  velocity_at lv l k ev → velocity_at ls l k es →
  ∃ aux, cell rd_k rd_l layers (lv, ls) h l ly k r rg p g aux (ev, es).
Proof.
  intros (? & ? & ? & ? & ?) (v & Hv & Hev) (s & Hs & Hes). exists (v, s).
  split_and!; try done.
  - unfold rd_l. simpl. by rewrite Hv, Hs.
  - unfold rd_k. simpl. by rewrite Hev, Hes.
Qed.

Lemma adam_lookup layers lv ls h l ly k r rg p g ev es :
  layers_ok h layers → adam_state_ok h layers lv ls →
  param_at h layers l ly k r rg p g →
  velocity_at lv l k ev → velocity_at ls l k es →
  write_all (adam_writes layers lv ls h) h !! r =
    Some (decay lr m reg k (adam_step lr beta1 beta2 eps t ev es p g)).
Proof.
  intros Hok Hst Hat Hev Hes.
  destruct (adam_cell layers lv ls h l ly k r rg p g ev es Hat Hev Hes) as [aux Hcell].
  apply (lookup_run_writes lr m reg rd_k rd_l pv ne epre layers (lv, ls) h
           l ly k r rg p g aux (ev, es)).
  - by apply adam_layers_pre.
  - done.
Qed.

Lemma adam_lookup_other layers lv ls h r :
  layers_ok h layers → adam_state_ok h layers lv ls → r ∉ param_refs layers →
  write_all (adam_writes layers lv ls h) h !! r = h !! r.
Proof.
  intros Hok Hst Hr.
  apply (lookup_run_writes_other lr m reg rd_k rd_l pv epre); [|done].
  by apply adam_layers_pre.
Qed.

Lemma adam_calls_count layers lv ls h l ly k r rg p g ev es :
  layers_ok h layers → adam_state_ok h layers lv ls →
  param_at h layers l ly k r rg p g →
  velocity_at lv l k ev → velocity_at ls l k es →
  length (filter (λ x, call_obj x = r) (adam_calls layers lv ls h)) =
    if String.eqb k "W" && is_L2 reg then 1 else 0.
Proof.
  intros Hok Hst Hat Hev Hes.
  destruct (adam_cell layers lv ls h l ly k r rg p g ev es Hat Hev Hes) as [aux Hcell].
  apply (run_calls_count lr m reg rd_k wr_k rd_l mk_in key_body pv ne epre
           adam_key_spec layers (lv, ls) h l ly k r rg p g aux (ev, es)).
  - by apply adam_layers_pre.
  - done.
Qed.

(** The moments after the call. *)
Lemma adam_state_at layers lv ls h l ly k r rg p g ev es :
  layers_ok h layers → adam_state_ok h layers lv ls →
  param_at h layers l ly k r rg p g →
  velocity_at lv l k ev → velocity_at ls l k es →
  velocity_at (adam_state layers lv ls h).1 l k (moment beta1 ev g) ∧
  velocity_at (adam_state layers lv ls h).2 l k (moment2 beta2 es g).
Proof.
  intros Hok Hst Hat Hev Hes.
  destruct (adam_cell layers lv ls h l ly k r rg p g ev es Hat Hev Hes) as [aux Hcell].
  destruct (run_state_cell rd_k wr_k rd_l wr_l pv ne epre
              adam_rd_wr_k_eq adam_rd_wr_k_ne adam_rd_wr_l_eq adam_rd_wr_l_ne
              layers (lv, ls) h l ly k r rg p g aux (ev, es))
    as (aux' & Haux' & He'); [|done|].
  { by apply adam_layers_pre. }
  change (rd_l l (adam_state layers lv ls h) = Some aux') in Haux'.
  unfold rd_l in Haux'. unfold rd_k in He'.
  destruct ((adam_state layers lv ls h).1 !! l) as [v'|] eqn:Hv'; [|done].
  destruct ((adam_state layers lv ls h).2 !! l) as [s'|] eqn:Hs'; [|done].
  injection Haux' as <-. simpl in He'.
  destruct (getitem v' ("d" +:+ k)) as [ev'|] eqn:Hev'; [|done].
  destruct (getitem s' ("d" +:+ k)) as [es'|] eqn:Hes'; [|done].
  injection He' as -> ->. split; [by exists v'|by exists s'].
Qed.

Lemma adam_calls_nil layers lv ls h : is_L2 reg = false → adam_calls layers lv ls h = [].
Proof. apply run_calls_nil. Qed.

Lemma adam_state_ok_next layers lv ls h :
  layers_ok h layers → adam_state_ok h layers lv ls →
  adam_state_ok h layers (adam_state layers lv ls h).1 (adam_state layers lv ls h).2.
Proof.
  intros Hok Hst l ly Hl.
  destruct (Hst l ly Hl) as (v & s & Hv & Hs & Hentries).
  assert (rd_l l (adam_state layers lv ls h) =
          Some (layer_state rd_k wr_k ne ly (v, s) h)) as Hnext.
  { apply (run_state_lookup rd_k wr_k rd_l wr_l ne adam_rd_wr_l_eq adam_rd_wr_l_ne);
      [done|]. unfold rd_l. simpl. by rewrite Hv, Hs. }
  unfold rd_l in Hnext.
  destruct ((adam_state layers lv ls h).1 !! l) as [v'|] eqn:Hv'; [|done].
  destruct ((adam_state layers lv ls h).2 !! l) as [s'|] eqn:Hs'; [|done].
  exists v', s'. split_and!; [done..|].
  intros k r p Hin Hp.
  destruct Hok as (Hnd & Hsep & Hly).
  destruct (Hly ly) as [Hk Hcells]; [by eapply list_elem_of_lookup_2|].
  destruct (Hcells k r Hin) as (rg & p0 & g & Hrg & Hp0 & Hg & Hsh).
  assert (p0 = p) as -> by congruence.
  destruct (Hentries k r p Hin Hp) as (ev & es & Hev & Hes & Hsv & Hss).
  destruct (adam_state_at layers lv ls h l ly k r rg p g ev es)
    as ((v'' & Hv'' & Hev'') & (s'' & Hs'' & Hes''));
    [by split_and!|done|by split_and!|by exists v|by exists s|].
  assert (v'' = v') as -> by congruence. assert (s'' = s') as -> by congruence.
  exists (moment beta1 ev g), (moment2 beta2 es g).
  split_and!; [done|done|unfold moment; simpl; congruence|
               unfold moment2; simpl; congruence].
Qed.
End AdamFacts.

(** ** [init_params] *)

Section InitFacts.
Context `{Scalar A}.
Implicit Types (h : gmap ref (ndarray A)) (c : list (call A)).

(** The dictionary [init_params] builds for a layer: for every parameter
    [k], in the order of [layer.params], the key ["d" + k] with a zero array
    of the parameter's shape. *)
Definition zeros_dict h (ly : layer) : dict (ndarray A) :=
  (λ kr, ("d" +:+ kr.1, np_zeros (shape (h !!! kr.2)))) <$> params ly.

(** Every parameter of every layer is an array, every key occurs once. *)
Definition params_ok h (layers : list layer) : Prop :=
  ∀ ly, ly ∈ layers →
    NoDup (keys (params ly)) ∧ ∀ k r, (k, r) ∈ params ly → is_Some (h !! r).

Lemma layers_ok_params_ok h layers : layers_ok h layers → params_ok h layers.
Proof.
  intros (_ & _ & Hly) ly Hin. destruct (Hly ly Hin) as [Hk Hcells].
  split; [done|]. intros k r Hkr.
  destruct (Hcells k r Hkr) as (rg & p & g & _ & Hp & _). by exists p.
Qed.

Lemma keys_zeros_dict h ly :
  keys (zeros_dict h ly) = (λ k, "d" +:+ k) <$> keys (params ly).
Proof.
  unfold keys, zeros_dict. rewrite <-!list_fmap_compose.
  by apply list_fmap_ext.
Qed.

Lemma NoDup_keys_zeros_dict h ly :
  NoDup (keys (params ly)) → NoDup (keys (zeros_dict h ly)).
Proof.
  intros Hk. rewrite keys_zeros_dict. apply NoDup_fmap_2_strong; [|done].
  intros k k' _ _. apply grad_key_inj.
Qed.

Lemma getitem_zeros_dict h ly k r p :
  NoDup (keys (params ly)) → (k, r) ∈ params ly → h !! r = Some p →
  getitem (zeros_dict h ly) ("d" +:+ k) = Ok (np_zeros (shape p)).
Proof.
  intros Hk Hin Hp. apply elem_of_getitem; [by apply NoDup_keys_zeros_dict|].
  apply list_elem_of_fmap. exists (k, r). split; [|done]. simpl.
  by rewrite (lookup_total_correct _ _ _ Hp).
Qed.

Lemma for_each_collect {X Y} (f : X → M A Y) (g : X → Y) (xs : list X)
    (acc : list Y) (s : store A) :
  (∀ x, x ∈ xs → f x s = Ok (g x, s)) →
  for_each xs (λ x acc, let* y := f x in ret (acc ++ [y])) acc s =
    Ok (acc ++ (g <$> xs), s).
Proof.
  revert acc. induction xs as [|x xs IH]; intros acc Hf; simpl.
  - unfold ret. by rewrite app_nil_r.
  - unfold bind at 1 2. rewrite Hf; [|left]. unfold ret at 1.
    rewrite IH; [|intros; apply Hf; by right].
    by rewrite <-(assoc_L (++)).
Qed.

Lemma momentum_zeros_like_params_spec ly h c :
  NoDup (keys (params ly)) → (∀ k r, (k, r) ∈ params ly → is_Some (h !! r)) →
  Momentum.zeros_like_params ly (Store h c) = Ok (zeros_dict h ly, Store h c).
Proof.
  intros Hk Hlive. unfold Momentum.zeros_like_params, zeros_dict.
  set (z := λ kr : string * ref, ("d" +:+ kr.1, np_zeros (A := A) (shape (h !!! kr.2)))).
  cut (∀ suf pre, params ly = pre ++ suf →
         for_each (keys suf)
           (λ k v, let* p := lift (getitem (params ly) k) in
                   let* a := load p in
                   ret (setitem v ("d" +:+ k) (np_zeros (shape a))))
           (z <$> pre) (Store h c) =
         Ok (z <$> params ly, Store h c)).
  { intros Hgen. by apply (Hgen (params ly) []). }
  induction suf as [|[k r] suf IH]; intros pre Hpre.
  - rewrite app_nil_r in Hpre. by rewrite Hpre.
  - assert ((k, r) ∈ params ly) as Hin.
    { rewrite Hpre. apply elem_of_app. right. left. }
    destruct (Hlive k r Hin) as [a Ha].
    simpl. unfold bind at 1 2 3, lift, load. simpl.
    rewrite (elem_of_getitem _ k r Hk Hin). cbn [heap]. rewrite Ha. unfold ret at 1.
    rewrite setitem_snoc.
    + rewrite <-(lookup_total_correct _ _ _ Ha).
      change [("d" +:+ k, np_zeros (shape (h !!! r)))] with (z <$> [(k, r)]).
      rewrite <-fmap_app. apply IH. by rewrite <-(assoc_L (++)).
    + unfold keys. rewrite <-list_fmap_compose.
      intros ([k' r'] & Heq & Hin')%list_elem_of_fmap. simpl in Heq.
      apply grad_key_inj in Heq as <-.
      unfold keys in Hk. rewrite Hpre, fmap_app in Hk.
      apply NoDup_app in Hk as (_ & Hdisj & _).
      apply (Hdisj k); [by apply (list_elem_of_fmap_2 fst _ (k, r'))|left].
Qed.

Lemma momentum_init_params_spec self layers h c :
  params_ok h layers →
  Momentum.init_params self layers (Store h c) =
    Ok (Momentum.Make (Momentum.lr self) (Momentum.beta self)
          (Some (zeros_dict h <$> layers)), Store h c).
Proof.
  intros Hok. unfold Momentum.init_params. unfold bind at 1.
  rewrite (for_each_collect Momentum.zeros_like_params (zeros_dict h)); [done|].
  intros ly Hin. destruct (Hok ly Hin). by apply momentum_zeros_like_params_spec.
Qed.

Lemma adam_zeros_like_params_spec ly h c :
  NoDup (keys (params ly)) → (∀ k r, (k, r) ∈ params ly → is_Some (h !! r)) →
  Adam.zeros_like_params ly (Store h c) =
    Ok ((zeros_dict h ly, zeros_dict h ly), Store h c).
Proof.
  intros Hk Hlive. unfold Adam.zeros_like_params, zeros_dict.
  set (z := λ kr : string * ref, ("d" +:+ kr.1, np_zeros (A := A) (shape (h !!! kr.2)))).
  cut (∀ suf pre, params ly = pre ++ suf →
         for_each (keys suf)
           (λ k '(v, s),
              let* p := lift (getitem (params ly) k) in
              let* a := load p in
              let v := setitem v ("d" +:+ k) (np_zeros (shape a)) in
              let* p := lift (getitem (params ly) k) in
              let* a := load p in
              let s := setitem s ("d" +:+ k) (np_zeros (shape a)) in
              ret (v, s))
           (z <$> pre, z <$> pre) (Store h c) =
         Ok ((z <$> params ly, z <$> params ly), Store h c)).
  { intros Hgen. by apply (Hgen (params ly) []). }
  induction suf as [|[k r] suf IH]; intros pre Hpre.
  - rewrite app_nil_r in Hpre. by rewrite Hpre.
  - assert ((k, r) ∈ params ly) as Hin.
    { rewrite Hpre. apply elem_of_app. right. left. }
    destruct (Hlive k r Hin) as [a Ha].
    simpl. unfold bind at 1 2 3 4 5, lift, load. simpl.
    rewrite (elem_of_getitem _ k r Hk Hin). cbn [heap]. rewrite Ha.
    cbn [heap]. rewrite Ha. unfold ret at 1.
    rewrite !setitem_snoc.
    + rewrite <-(lookup_total_correct _ _ _ Ha).
      change [("d" +:+ k, np_zeros (shape (h !!! r)))] with (z <$> [(k, r)]).
      rewrite <-fmap_app. apply IH. by rewrite <-(assoc_L (++)).
    + unfold keys. rewrite <-list_fmap_compose.
      intros ([k' r'] & Heq & Hin')%list_elem_of_fmap. simpl in Heq.
      apply grad_key_inj in Heq as <-.
      unfold keys in Hk. rewrite Hpre, fmap_app in Hk.
      apply NoDup_app in Hk as (_ & Hdisj & _).
      apply (Hdisj k); [by apply (list_elem_of_fmap_2 fst _ (k, r'))|left].
Qed.

Lemma adam_init_params_spec self layers h c :
  params_ok h layers →
  Adam.init_params self layers (Store h c) =
    Ok (Adam.Make (Adam.lr self) (Adam.beta1 self) (Adam.beta2 self) (Adam.eps self)
          (Some (zeros_dict h <$> layers)) (Some (zeros_dict h <$> layers)),
        Store h c).
Proof.
  intros Hok. unfold Adam.init_params. unfold bind at 1.
  cut (∀ xs (lv ls : list (dict (ndarray A))),
         (∀ ly, ly ∈ xs → ly ∈ layers) →
         for_each xs
           (λ ly '(lv, ls),
              let* r := Adam.zeros_like_params ly in
              ret (lv ++ [r.1], ls ++ [r.2])) (lv, ls) (Store h c) =
         Ok ((lv ++ (zeros_dict h <$> xs), ls ++ (zeros_dict h <$> xs)), Store h c)).
  { intros Hgen. by rewrite (Hgen layers [] []). }
  induction xs as [|ly xs IH]; intros lv ls Hsub; simpl.
  - unfold ret. by rewrite !app_nil_r.
  - destruct (Hok ly) as [Hk Hlive]; [apply Hsub; left|].
    unfold bind at 1 2. rewrite adam_zeros_like_params_spec; [|done..].
    unfold ret at 1. simpl. rewrite IH; [|intros; apply Hsub; by right].
    by rewrite <-!(assoc_L (++)).
Qed.

(** What [init_params] leaves is what [update_params] needs. *)
Lemma zeros_velocity_at h layers l ly k r p :
  params_ok h layers → layers !! l = Some ly → (k, r) ∈ params ly →
  h !! r = Some p →
  velocity_at (zeros_dict h <$> layers) l k (np_zeros (shape p)).
Proof.
  intros Hok Hl Hin Hp. exists (zeros_dict h ly). split.
  - by rewrite list_lookup_fmap, Hl.
  - destruct (Hok ly) as [Hk _]; [by eapply list_elem_of_lookup_2|].
    by eapply getitem_zeros_dict.
Qed.

Lemma zeros_momentum_state_ok h layers :
  params_ok h layers → momentum_state_ok h layers (zeros_dict h <$> layers).
Proof.
  intros Hok l ly Hl. exists (zeros_dict h ly). split.
  { by rewrite list_lookup_fmap, Hl. }
  intros k r p Hin Hp. exists (np_zeros (shape p)). split; [|done].
  destruct (Hok ly) as [Hk _]; [by eapply list_elem_of_lookup_2|].
  by eapply getitem_zeros_dict.
Qed.

Lemma zeros_adam_state_ok h layers :
  params_ok h layers →
  adam_state_ok h layers (zeros_dict h <$> layers) (zeros_dict h <$> layers).
Proof.
  intros Hok l ly Hl. exists (zeros_dict h ly), (zeros_dict h ly).
  split_and!; [by rewrite list_lookup_fmap, Hl..|].
  intros k r p Hin Hp. exists (np_zeros (shape p)), (np_zeros (shape p)).
  destruct (Hok ly) as [Hk _]; [by eapply list_elem_of_lookup_2|].
  split_and!; try done; by eapply getitem_zeros_dict.
Qed.
End InitFacts.

(** ** The three variants behind one interface *)

Section Optimizers.
Context `{Scalar A}.
Implicit Types (h : gmap ref (ndarray A)) (c : list (call A)).

(** An optimizer as the training loop holds it. *)
Inductive optimizer :=
| Plain (o : GradientDescent.optimizer A)
| WithMomentum (o : Momentum.optimizer A)
| WithAdam (o : Adam.optimizer A).

(** The call of the training loop; [GradientDescent] takes no step index. *)
Definition update_params (o : optimizer) (layers : list layer) (t : Z) (m : A)
    (reg : option (regularizer A)) : M A (optimizer * list layer) :=
  match o with
  | Plain g =>
      let* ls := GradientDescent.update_params g layers m reg in
      ret (Plain g, ls)
  | WithMomentum o =>
      let* r := Momentum.update_params o layers t m reg in
      ret (WithMomentum r.1, r.2)
  | WithAdam o =>
      let* r := Adam.update_params o layers t m reg in
      ret (WithAdam r.1, r.2)
  end.

Definition learning_rate (o : optimizer) : A :=
  match o with
  | Plain g => GradientDescent.lr g
  | WithMomentum o => Momentum.lr o
  | WithAdam o => Adam.lr o
  end.

(** The moment stored for parameter [k] of layer [l]. *)
Definition stored (buffers : option (list (dict (ndarray A))))
    (l : nat) (k : string) : ndarray A :=
  default (NDArray [] [])
    (lv ← buffers; v ← lv !! l; to_option (getitem v ("d" +:+ k))).

(** The parameter [p] of key [k] in layer [l] after the gradient step of the
    variant, before any weight decay. *)
Definition gradient_update (o : optimizer) (t : Z) (l : nat) (k : string)
    (p g : ndarray A) : ndarray A :=
  match o with
  | Plain s => gd_step (GradientDescent.lr s) p g
  | WithMomentum s =>
      momentum_step (Momentum.lr s) (Momentum.beta s) t
        (stored (Momentum.layer_v s) l k) p g
  | WithAdam s =>
      adam_step (Adam.lr s) (Adam.beta1 s) (Adam.beta2 s) (Adam.eps s) t
        (stored (Adam.layer_v s) l k) (stored (Adam.layer_s s) l k) p g
  end.

(** The optimizer has the state [init_params] allocates, for these layers. *)
Definition state_ok h (layers : list layer) (o : optimizer) : Prop :=
  match o with
  | Plain _ => True
  | WithMomentum s =>
      ∃ lv, Momentum.layer_v s = Some lv ∧ momentum_state_ok h layers lv
  | WithAdam s =>
      ∃ lv ls, Adam.layer_v s = Some lv ∧ Adam.layer_s s = Some ls ∧
               adam_state_ok h layers lv ls
  end.

Lemma stored_velocity_at lv l k e : velocity_at lv l k e → stored (Some lv) l k = e.
Proof.
  intros (v & Hv & He). unfold stored. simpl. rewrite Hv. simpl. by rewrite He.
Qed.

Lemma gradient_update_shape o t l k p g :
  shape (gradient_update o t l k p g) = shape p.
Proof. by destruct o. Qed.

Lemma update_params_total o layers t m reg h c :
  layers_ok h layers → state_ok h layers o → shape_preserving reg →
  ∃ o' h' c',
    update_params o layers t m reg (Store h c) = Ok ((o', layers), Store h' (c ++ c')) ∧
    (is_L2 reg = false → c' = []) ∧
    (∀ l ly k r rg p g, param_at h layers l ly k r rg p g →
       h' !! r = Some (decay (learning_rate o) m reg k (gradient_update o t l k p g)) ∧
       length (filter (λ x, call_obj x = r) c') =
         if String.eqb k "W" && is_L2 reg then 1 else 0) ∧
    (∀ r, r ∉ param_refs layers → h' !! r = h !! r).
Proof.
  intros Hok Hst Hreg. destruct o as [g|s|s]; simpl in Hst.
  - exists (Plain g), (write_all (gd_writes g m reg layers h) h), (gd_calls g m reg layers h).
    split_and!.
    + unfold update_params, bind. by rewrite gd_update_params_spec.
    + apply gd_calls_nil.
    + intros l ly k r rg p g0 Hat. split.
      * by eapply gd_lookup.
      * by eapply gd_calls_count.
    + intros r Hr. by apply gd_lookup_other.
  - destruct s as [lr beta olv]. destruct Hst as (lv & Hlv & Hst).
    simpl in Hlv. subst olv.
    exists (WithMomentum (Momentum.Make lr beta
              (Some (momentum_state beta layers lv h)))),
      (write_all (momentum_writes lr beta t m reg layers lv h) h),
      (momentum_calls lr beta t m reg layers lv h).
    assert (∀ l ly k r rg p g, param_at h layers l ly k r rg p g →
              ∃ e, velocity_at lv l k e) as Hvel.
    { intros l ly k r rg p g (Hl & Hin & _ & Hp & _).
      destruct (Hst l ly Hl) as (v & Hv & Hentries).
      destruct (Hentries k r p Hin Hp) as (e & He & _). exists e. by exists v. }
    split_and!.
    + unfold update_params, bind. by rewrite momentum_update_params_spec.
    + apply momentum_calls_nil.
    + intros l ly k r rg p g Hat. destruct (Hvel _ _ _ _ _ _ _ Hat) as [e He].
      simpl. rewrite (stored_velocity_at lv l k e He). split.
      * by eapply momentum_lookup.
      * by eapply momentum_calls_count.
    + intros r Hr. by apply momentum_lookup_other.
  - destruct s as [lr beta1 beta2 eps olv ols].
    destruct Hst as (lv & ls & Hlv & Hls & Hst). simpl in Hlv, Hls. subst olv ols.
    exists (WithAdam (Adam.Make lr beta1 beta2 eps
              (Some (adam_state beta1 beta2 layers lv ls h).1)
              (Some (adam_state beta1 beta2 layers lv ls h).2))),
      (write_all (adam_writes lr beta1 beta2 eps t m reg layers lv ls h) h),
      (adam_calls lr beta1 beta2 eps t m reg layers lv ls h).
    assert (∀ l ly k r rg p g, param_at h layers l ly k r rg p g →
              ∃ ev es, velocity_at lv l k ev ∧ velocity_at ls l k es) as Hvel.
    { intros l ly k r rg p g (Hl & Hin & _ & Hp & _).
      destruct (Hst l ly Hl) as (v & s & Hv & Hs & Hentries).
      destruct (Hentries k r p Hin Hp) as (ev & es & Hev & Hes & _).
      exists ev, es. split; [by exists v|by exists s]. }
    split_and!.
    + unfold update_params, bind. by rewrite adam_update_params_spec.
    + apply adam_calls_nil.
    + intros l ly k r rg p g Hat.
      destruct (Hvel _ _ _ _ _ _ _ Hat) as (ev & es & Hev & Hes).
      simpl. rewrite (stored_velocity_at lv l k ev Hev), (stored_velocity_at ls l k es Hes).
      split.
      * by eapply adam_lookup.
      * by eapply adam_calls_count.
    + intros r Hr. by apply adam_lookup_other.
Qed.
End Optimizers.
Arguments optimizer A : clear implicits.

(** ** A one-layer network *)

Section OneLayer.
Context `{Scalar A}.

(** A one-dimensional array. *)
Definition vector (xs : list A) : ndarray A := NDArray [length xs] xs.

(** A layer with the single parameter "W": object 0 is the weight array,
    object 1 its gradient. *)
Definition W_layer : layer := Layer [("W", 0)] [("dW", 1)].

Definition W_heap (p g : ndarray A) : gmap ref (ndarray A) :=
  <[0 := p]> (<[1 := g]> ∅).

(** The L2 regularizer of the library: [(lamb / m) * w]. *)
Definition l2 (lamb : A) : regularizer A :=
  L2 (λ w m, rmul (fdiv lamb m) w).

Lemma l2_shape_preserving lamb : shape_preserving (Some (l2 lamb)).
Proof. by intros f [= <-] a b. Qed.

Lemma no_regularizer_shape_preserving : shape_preserving (A := A) None.
Proof. by intros f. Qed.

Lemma other_regularizer_shape_preserving :
  shape_preserving (A := A) (Some OtherRegularizer).
Proof. by intros f. Qed.

Lemma W_layer_ok p g : shape p = shape g → layers_ok (W_heap p g) [W_layer].
Proof.
  intros Hs. split_and!.
  - apply (NoDup_singleton 0).
  - intros r Hr Hp. change (r ∈ [1]) in Hr. change (r ∈ [0]) in Hp.
    apply list_elem_of_singleton in Hr, Hp. congruence.
  - intros ly ->%list_elem_of_singleton. split; [apply (NoDup_singleton "W")|].
    intros k r [= -> ->]%list_elem_of_singleton.
    by exists 1, p, g.
Qed.

Lemma W_layer_param_at p g :
  param_at (W_heap p g) [W_layer] 0 W_layer "W" 0 1 p g.
Proof. split_and!; try done. apply list_elem_of_singleton. done. Qed.

(** The optimizers right after [init_params] on this layer. *)
Lemma W_layer_momentum_ok lr beta p g :
  state_ok (W_heap p g) [W_layer]
    (WithMomentum (Momentum.Make lr beta (Some (zeros_dict (W_heap p g) <$> [W_layer])))).
Proof.
  eexists. split; [reflexivity|]. apply zeros_momentum_state_ok.
  intros ly ->%list_elem_of_singleton. split; [apply (NoDup_singleton "W")|].
  intros k r [= -> ->]%list_elem_of_singleton. by exists p.
Qed.

Lemma W_layer_adam_ok lr beta1 beta2 eps p g :
  state_ok (W_heap p g) [W_layer]
    (WithAdam (Adam.Make lr beta1 beta2 eps
                 (Some (zeros_dict (W_heap p g) <$> [W_layer]))
                 (Some (zeros_dict (W_heap p g) <$> [W_layer])))).
Proof.
  eexists _, _. split_and!; [reflexivity..|]. apply zeros_adam_state_ok.
  intros ly ->%list_elem_of_singleton. split; [apply (NoDup_singleton "W")|].
  intros k r [= -> ->]%list_elem_of_singleton. by exists p.
Qed.

Lemma W_heap_well_formed p g :
  well_formed p → well_formed g → arrays_well_formed (W_heap p g).
Proof.
  intros Hp Hg r a Hr. unfold W_heap in Hr. destruct r as [|[|r]].
  - rewrite lookup_insert_eq in Hr. by injection Hr as <-.
  - rewrite lookup_insert_ne, lookup_insert_eq in Hr by lia. by injection Hr as <-.
  - rewrite !lookup_insert_ne, lookup_empty in Hr by lia. discriminate Hr.
Qed.
End OneLayer.

(** * The claims *)

(** ** Weight decay is applied once, to "W" under L2 only *)

(** C6: for every optimizer variant, on layers that meet the layer contract,
    one call of [update_params] calls [compute_term_delta] on a parameter
    array, and subtracts [lr] times its result, exactly once when the key of
    the parameter is "W" and the regularizer is an L2 instance, and not at
    all otherwise; a parameter whose key is not "W" ends as the gradient
    step left it, whatever the regularizer. *)
Theorem C6_decay_once_iff_W_and_L2 `{Scalar A} (o : optimizer A)
    (layers : list layer) (t : Z) (m : A) (reg : option (regularizer A))
    (h : gmap ref (ndarray A)) (c : list (call A)) :
  layers_ok h layers → state_ok h layers o → shape_preserving reg →
  ∃ o' h' c',
    update_params o layers t m reg (Store h c) = Ok ((o', layers), Store h' (c ++ c')) ∧
    ∀ l ly k r rg p g, param_at h layers l ly k r rg p g →
      let u := gradient_update o t l k p g in
      length (filter (λ x, call_obj x = r) c') =
        (if String.eqb k "W" && is_L2 reg then 1 else 0) ∧
      (k = "W" → ∀ f, reg = Some (L2 f) →
         h' !! r = Some (zip_arr fsub u (rmul (learning_rate o) (f u m)))) ∧
      (k ≠ "W" ∨ is_L2 reg = false → h' !! r = Some u).
Proof.
  intros Hok Hst Hreg.
  destruct (update_params_total o layers t m reg h c Hok Hst Hreg)
    as (o' & h' & c' & Hrun & _ & Hcells & _).
  exists o', h', c'. split; [done|].
  intros l ly k r rg p g Hat u. destruct (Hcells l ly k r rg p g Hat) as [Hr Hn].
  split_and!; [done| |].
  - intros -> f ->. by rewrite Hr.
  - intros [Hk|Hl]; rewrite Hr; f_equal.
    + by apply decay_not_W.
    + by apply decay_not_L2.
Qed.

Lemma C6_witness :
  let zeros := Some [[("dW", vector [0.0%float])]] in
  let o := WithAdam (Adam.Make 0.5%float 0.5%float 0.5%float 1e-8%float zeros zeros) in
  let p := vector [1.0%float] in
  let g := vector [1.0%float] in
  let reg := Some (l2 1.0%float) in
  ∃ o' h' c',
    update_params o [W_layer] 1 1%float reg (Store (W_heap p g) []) =
      Ok ((o', [W_layer]), Store h' ([] ++ c')) ∧
    ∀ l ly k r rg p0 g0, param_at (W_heap p g) [W_layer] l ly k r rg p0 g0 →
      let u := gradient_update o 1 l k p0 g0 in
      length (filter (λ x, call_obj x = r) c') =
        (if String.eqb k "W" && is_L2 reg then 1 else 0) ∧
      (k = "W" → ∀ f, reg = Some (L2 f) →
         h' !! r = Some (zip_arr fsub u (rmul (learning_rate o) (f u 1%float)))) ∧
      (k ≠ "W" ∨ is_L2 reg = false → h' !! r = Some u).
Proof.
  apply C6_decay_once_iff_W_and_L2.
  - apply W_layer_ok. reflexivity.
  - exact (W_layer_adam_ok 0.5%float 0.5%float 0.5%float 1e-8%float
             (vector [1.0%float]) (vector [1.0%float])).
  - apply l2_shape_preserving.
Defined.

(** ** An unrecognized regularizer is ignored *)

(** C7: for every optimizer variant, with a regularizer object that is not
    an L2 instance [update_params] returns normally, makes no call to the
    regularizer, and leaves every parameter at the value of its gradient
    step. *)
Theorem C7_other_regularizer_skipped `{Scalar A} (o : optimizer A)
    (layers : list layer) (t : Z) (m : A)
    (h : gmap ref (ndarray A)) (c : list (call A)) :
  layers_ok h layers → state_ok h layers o →
  ∃ o' h',
    update_params o layers t m (Some OtherRegularizer) (Store h c) =
      Ok ((o', layers), Store h' c) ∧
    ∀ l ly k r rg p g, param_at h layers l ly k r rg p g →
      h' !! r = Some (gradient_update o t l k p g).
Proof.
  intros Hok Hst.
  destruct (update_params_total o layers t m (Some OtherRegularizer) h c Hok Hst
              other_regularizer_shape_preserving)
    as (o' & h' & c' & Hrun & Hnil & Hcells & _).
  rewrite (Hnil eq_refl), app_nil_r in Hrun.
  exists o', h'. split; [done|].
  intros l ly k r rg p g Hat. destruct (Hcells l ly k r rg p g Hat) as [Hr _].
  rewrite Hr. f_equal. by apply decay_not_L2.
Qed.

Lemma C7_witness :
  let o := WithMomentum (Momentum.Make 0.5%float 0.5%float
                           (Some [[("dW", vector [0.0%float])]])) in
  let h := W_heap (vector [1.0%float]) (vector [1.0%float]) in
  ∃ o' h',
    update_params o [W_layer] 1 1%float (Some OtherRegularizer) (Store h []) =
      Ok ((o', [W_layer]), Store h' []) ∧
    ∀ l ly k r rg p g, param_at h [W_layer] l ly k r rg p g →
      h' !! r = Some (gradient_update o 1 l k p g).
Proof.
  apply C7_other_regularizer_skipped.
  - apply W_layer_ok. reflexivity.
  - exact (W_layer_momentum_ok 0.5%float 0.5%float
             (vector [1.0%float]) (vector [1.0%float])).
Defined.

(** ** Shapes are preserved *)

(** C9: for every optimizer variant, when every parameter has the shape of
    its gradient before the call, [update_params] returns normally and every
    parameter array still has the shape it had, which is still the shape of
    its gradient. *)
Theorem C9_shapes_unchanged `{Scalar A} (o : optimizer A)
    (layers : list layer) (t : Z) (m : A) (reg : option (regularizer A))
    (h : gmap ref (ndarray A)) (c : list (call A)) :
  layers_ok h layers → state_ok h layers o → shape_preserving reg →
  ∃ o' s',
    update_params o layers t m reg (Store h c) = Ok ((o', layers), s') ∧
    ∀ l ly k r rg p g, param_at h layers l ly k r rg p g →
      ∃ p' g', heap s' !! r = Some p' ∧ heap s' !! rg = Some g' ∧
               shape p' = shape p ∧ shape p' = shape g'.
Proof.
  intros Hok Hst Hreg.
  destruct (update_params_total o layers t m reg h c Hok Hst Hreg)
    as (o' & h' & c' & Hrun & _ & Hcells & Hother).
  exists o', (Store h' (c ++ c')). split; [done|].
  intros l ly k r rg p g Hat. destruct (Hcells l ly k r rg p g Hat) as [Hr _].
  exists (decay (learning_rate o) m reg k (gradient_update o t l k p g)), g.
  assert (shape (decay (learning_rate o) m reg k (gradient_update o t l k p g)) = shape p)
    as Hs by by rewrite decay_shape, gradient_update_shape.
  split_and!; [done| |done|].
  - simpl. rewrite Hother; [apply Hat|].
    destruct (param_at_refs _ _ _ _ _ _ _ _ _ Hat) as [_ Hrg].
    destruct Hok as (_ & Hsep & _). by apply Hsep.
  - rewrite Hs. by eapply param_at_shape.
Qed.

Lemma C9_witness :
  let zeros := Some [[("dW", vector [0.0; 0.0]%float)]] in
  let o := WithAdam (Adam.Make 0.1%float 0.9%float 0.999%float 1e-8%float zeros zeros) in
  let h := W_heap (vector [1.0; 2.0]%float) (vector [0.1; 0.2]%float) in
  ∃ o' s',
    update_params o [W_layer] 1 32%float (Some (l2 0.5%float)) (Store h []) =
      Ok ((o', [W_layer]), s') ∧
    ∀ l ly k r rg p g, param_at h [W_layer] l ly k r rg p g →
      ∃ p' g', heap s' !! r = Some p' ∧ heap s' !! rg = Some g' ∧
               shape p' = shape p ∧ shape p' = shape g'.
Proof.
  apply C9_shapes_unchanged.
  - apply W_layer_ok. reflexivity.
  - exact (W_layer_adam_ok 0.1%float 0.9%float 0.999%float 1e-8%float
             (vector [1.0; 2.0]%float) (vector [0.1; 0.2]%float)).
  - apply l2_shape_preserving.
Defined.

(** ** Gradients are read only *)

(** C10: for every optimizer variant, [update_params] leaves the [grads]
    dictionary of every layer as it was (the layers come back unchanged) and
    leaves every gradient array with the value it had; gradient arrays are
    objects of their own, none of them a parameter array. *)
Theorem C10_grads_untouched `{Scalar A} (o : optimizer A)
    (layers : list layer) (t : Z) (m : A) (reg : option (regularizer A))
    (h : gmap ref (ndarray A)) (c : list (call A)) :
  layers_ok h layers → state_ok h layers o → shape_preserving reg →
  ∃ o' layers' s',
    update_params o layers t m reg (Store h c) = Ok ((o', layers'), s') ∧
    grads <$> layers' = grads <$> layers ∧
    keys ∘ params <$> layers' = keys ∘ params <$> layers ∧
    ∀ r, r ∈ grad_refs layers → heap s' !! r = h !! r.
Proof.
  intros Hok Hst Hreg.
  destruct (update_params_total o layers t m reg h c Hok Hst Hreg)
    as (o' & h' & c' & Hrun & _ & _ & Hother).
  exists o', layers, (Store h' (c ++ c')). split_and!; [done..|].
  intros r Hr. simpl. apply Hother.
  destruct Hok as (_ & Hsep & _). by apply Hsep.
Qed.

Lemma C10_witness :
  let o := WithMomentum (Momentum.Make 0.1%float 0.9%float
                           (Some [[("dW", vector [0.0; 0.0]%float)]])) in
  let h := W_heap (vector [1.0; 2.0]%float) (vector [0.1; 0.2]%float) in
  ∃ o' layers' s',
    update_params o [W_layer] 1 32%float (Some (l2 0.5%float)) (Store h []) =
      Ok ((o', layers'), s') ∧
    grads <$> layers' = grads <$> [W_layer] ∧
    keys ∘ params <$> layers' = keys ∘ params <$> [W_layer] ∧
    ∀ r, r ∈ grad_refs [W_layer] → heap s' !! r = h !! r.
Proof.
  apply C10_grads_untouched.
  - apply W_layer_ok. reflexivity.
  - exact (W_layer_momentum_ok 0.1%float 0.9%float
             (vector [1.0; 2.0]%float) (vector [0.1; 0.2]%float)).
  - apply l2_shape_preserving.
Defined.

(** ** Plain gradient descent *)

Lemma zip_arr_rmul `{Scalar A} (f : A → A → A) (c : A) (p g : ndarray A) :
  zip_arr f p (rmul c g) =
  NDArray (shape p) (zip_with (λ x y, f x (fmul c y)) (data p) (data g)).
Proof. unfold zip_arr, rmul. simpl. by rewrite zip_with_fmap_r. Qed.

(** C3: without a regularizer, on layers that meet the layer contract,
    [GradientDescent.update_params] returns normally and leaves in every
    parameter array, element by element, the old value minus [lr] times the
    gradient. *)
Theorem C3_plain_update `{Scalar A} (self : GradientDescent.optimizer A)
    (layers : list layer) (m : A) (h : gmap ref (ndarray A)) (c : list (call A)) :
  layers_ok h layers →
  ∃ h',
    GradientDescent.update_params self layers m None (Store h c) =
      Ok (layers, Store h' c) ∧
    ∀ l ly k r rg p g, param_at h layers l ly k r rg p g →
      h' !! r =
        Some (NDArray (shape p)
                (zip_with (λ x y, fsub x (fmul (GradientDescent.lr self) y))
                   (data p) (data g))).
Proof.
  intros Hok. exists (write_all (gd_writes self m None layers h) h). split.
  - rewrite (gd_update_params_spec self m None no_regularizer_shape_preserving); [|done].
    by rewrite gd_calls_nil, app_nil_r.
  - intros l ly k r rg p g Hat.
    rewrite (gd_lookup self m None layers h l ly k r rg p g); [|done..].
    rewrite decay_not_L2; [|done]. unfold gd_step. by rewrite zip_arr_rmul.
Qed.

(** The end-to-end scenario of the specification, in binary64:
    [params = {"W": [1.0, 2.0]}], [grads = {"dW": [0.1, 0.2]}], [lr = 0.1]. *)
Lemma C3_witness :
  let self := GradientDescent.Make 0.1%float in
  let h := W_heap (vector [1.0; 2.0]%float) (vector [0.1; 0.2]%float) in
  ∃ h',
    GradientDescent.update_params self [W_layer] 32%float None (Store h []) =
      Ok ([W_layer], Store h' []) ∧
    h' !! 0 = Some (vector [0.99; 1.98]%float).
Proof.
  intros self h.
  destruct (C3_plain_update self [W_layer] 32%float h []) as (h' & Hrun & Hcells).
  { apply W_layer_ok. reflexivity. }
  exists h'. split; [exact Hrun|].
  exact (Hcells 0 W_layer "W" 0 1 _ _ (W_layer_param_at _ _)).
Defined.

(** ** The value the weight decay is computed from *)

(** Two binary64 vectors differ when their first elements compare as
    different. *)
Ltac vectors_differ :=
  let Heq := fresh in
  intros Heq;
  apply (f_equal (λ l, match l with
                       | a :: _ =>
                           match data a with
                           | x :: _ => PrimFloat.ltb x 0.75
                           | [] => false
                           end
                       | [] => false
                       end)) in Heq;
  vm_compute in Heq; discriminate Heq.

(** C1: what the code does at [lr = 0.5], [W = [1.0]], [dW = [1.0]] and
    the L2 regularizer with [lamb / m = 1], for the three variants (the
    moments freshly initialized, [t = 1], [beta = beta1 = beta2 = 0.5]).
    The variable [param] is the array object that [-=] has just overwritten:
    [compute_term_delta] receives the array after the gradient step
    ([0.5]), not the array as it was before the call ([1.0]), and the
    parameter ends at [0.5 - 0.5 * 0.5 = 0.25], not at [0.5 - 0.5 * 1.0 = 0]. *)
Theorem C1_decay_reads_updated_parameter :
  let p := vector [1.0%float] in
  let g := vector [1.0%float] in
  let reg := Some (l2 1.0%float) in
  let s := Store (W_heap p g) [] in
  (∃ s',
     GradientDescent.update_params (GradientDescent.Make 0.5%float)
       [W_layer] 1.0%float reg s = Ok ([W_layer], s') ∧
     call_arg <$> calls s' = [vector [0.5%float]] ∧
     call_arg <$> calls s' ≠ [p] ∧
     heap s' !! 0 = Some (vector [0.25%float])) ∧
  (∃ o o' s',
     Momentum.init_params (Momentum.new 0.5%float 0.5%float) [W_layer] s = Ok (o, s) ∧
     Momentum.update_params o [W_layer] 1 1.0%float reg s = Ok ((o', [W_layer]), s') ∧
     call_arg <$> calls s' = [vector [0.5%float]] ∧
     call_arg <$> calls s' ≠ [p] ∧
     heap s' !! 0 = Some (vector [0.25%float])) ∧
  (∃ o o' s',
     Adam.init_params (Adam.new 0.5%float 0.5%float 0.5%float 1e-8%float) [W_layer] s =
       Ok (o, s) ∧
     Adam.update_params o [W_layer] 1 1.0%float reg s = Ok ((o', [W_layer]), s') ∧
     call_arg <$> calls s' = [vector [0.50000000499999997%float]] ∧
     call_arg <$> calls s' ≠ [p] ∧
     heap s' !! 0 = Some (vector [0.25000000249999998%float])).
Proof.
  intros p g reg s. split_and!.
  - eexists. split; [reflexivity|]. split_and!; [reflexivity|vectors_differ|reflexivity].
  - eexists _, _, _. split; [reflexivity|]. split; [reflexivity|].
    split_and!; [reflexivity|vectors_differ|reflexivity].
  - eexists _, _, _. split; [reflexivity|]. split; [reflexivity|].
    split_and!; [reflexivity|vectors_differ|reflexivity].
Qed.

(** ** The state [init_params] allocates *)

(** C2, as stated, fails: for [params = {"W": ...}] the dictionary that
    [Momentum.init_params] builds has the key "dW", not the key "W". *)
Lemma C2_counterexample :
  let h := W_heap (vector [1.0; 2.0]%float) (vector [0.1; 0.2]%float) in
  ∃ o v,
    Momentum.init_params (Momentum.new 0.1%float 0.9%float) [W_layer] (Store h []) =
      Ok (o, Store h []) ∧
    Momentum.layer_v o = Some [v] ∧
    keys v = ["dW"] ∧ keys (params W_layer) = ["W"] ∧
    keys v ≠ keys (params W_layer).
Proof.
  intros h. eexists _, _. split; [reflexivity|].
  split_and!; [reflexivity..|]. intros Heq. discriminate Heq.
Qed.

(** C2, amended: after [init_params(layers)] the optimizer holds one
    dictionary per layer ([v], and an equal one [s] for Adam) whose keys are
    the keys of that layer's [params], each prefixed with "d" and in the same
    order, and whose entry for ["d" + k] is [np.zeros] of the shape of
    parameter [k]. *)
Theorem C2_init_params_state `{Scalar A} (mo : Momentum.optimizer A)
    (ad : Adam.optimizer A) (layers : list layer)
    (h : gmap ref (ndarray A)) (c : list (call A)) :
  params_ok h layers →
  ∃ lv,
    Momentum.init_params mo layers (Store h c) =
      Ok (Momentum.Make (Momentum.lr mo) (Momentum.beta mo) (Some lv), Store h c) ∧
    Adam.init_params ad layers (Store h c) =
      Ok (Adam.Make (Adam.lr ad) (Adam.beta1 ad) (Adam.beta2 ad) (Adam.eps ad)
            (Some lv) (Some lv), Store h c) ∧
    length lv = length layers ∧
    ∀ l ly, layers !! l = Some ly →
      ∃ v, lv !! l = Some v ∧
           keys v = (λ k, "d" +:+ k) <$> keys (params ly) ∧
           ∀ k r p, (k, r) ∈ params ly → h !! r = Some p →
             getitem v ("d" +:+ k) = Ok (np_zeros (shape p)) ∧
             shape (np_zeros (A := A) (shape p)) = shape p ∧
             data (np_zeros (shape p)) = replicate (size_of (shape p)) fzero.
Proof.
  intros Hok. exists (zeros_dict h <$> layers). split_and!.
  - by apply momentum_init_params_spec.
  - by apply adam_init_params_spec.
  - by rewrite length_fmap.
  - intros l ly Hl. exists (zeros_dict h ly). split_and!.
    + by rewrite list_lookup_fmap, Hl.
    + apply keys_zeros_dict.
    + intros k r p Hin Hp. split_and!; [|done..].
      destruct (Hok ly) as [Hk _]; [by eapply list_elem_of_lookup_2|].
      by eapply getitem_zeros_dict.
Qed.

Lemma C2_witness :
  let h := W_heap (vector [1.0; 2.0]%float) (vector [0.1; 0.2]%float) in
  ∃ v,
    Momentum.init_params (Momentum.new 0.1%float 0.9%float) [W_layer] (Store h []) =
      Ok (Momentum.Make 0.1%float 0.9%float (Some [v]), Store h []) ∧
    keys v = ["dW"] ∧
    getitem v "dW" = Ok (vector [0.0; 0.0]%float).
Proof.
  intros h.
  destruct (C2_init_params_state (Momentum.new 0.1%float 0.9%float)
              (Adam.new 0.1%float 0.9%float 0.999%float 1e-8%float)
              [W_layer] h [])
    as (lv & Hmo & _ & Hlen & Hlv).
  { apply layers_ok_params_ok, W_layer_ok. reflexivity. }
  destruct (Hlv 0 W_layer eq_refl) as (v & Hv & Hkeys & Hentries).
  destruct lv as [|v' [|? ?]]; try discriminate Hlen.
  injection Hv as ->.
  exists v. split; [exact Hmo|]. split; [exact Hkeys|].
  destruct (Hentries "W" 0 (vector [1.0; 2.0]%float)) as (Hg & _ & _).
  - apply list_elem_of_singleton. reflexivity.
  - reflexivity.
  - exact Hg.
Defined.

(** ** Arrays computed element by element from the gradient *)

Section Pointwise.
Context `{Scalar A}.
Implicit Types (F G : A → A) (g p : ndarray A).

(** The array of the shape of [g] whose elements are [F] of those of [g]. *)
Definition pointwise F g : ndarray A := NDArray (shape g) (F <$> data g).

Lemma pointwise_id g : g = pointwise (λ y, y) g.
Proof. unfold pointwise. rewrite list_fmap_id. by destruct g. Qed.

Lemma pointwise_ext F G g : (∀ y, F y = G y) → pointwise F g = pointwise G g.
Proof. intros HFG. unfold pointwise. f_equal. by apply list_fmap_ext. Qed.

Lemma pointwise_zeros g :
  well_formed g → np_zeros (shape g) = pointwise (λ _, fzero) g.
Proof.
  unfold well_formed, np_zeros, pointwise. intros <-. f_equal.
  induction (data g) as [|y ys IH]; [done|]. csimpl. by rewrite IH.
Qed.

Lemma pointwise_rmul c F g : rmul c (pointwise F g) = pointwise (λ y, fmul c (F y)) g.
Proof. unfold rmul, pointwise. simpl. by rewrite <-list_fmap_compose. Qed.

Lemma pointwise_truediv F g c :
  truediv_scalar (pointwise F g) c = pointwise (λ y, fdiv (F y) c) g.
Proof. unfold truediv_scalar, pointwise. simpl. by rewrite <-list_fmap_compose. Qed.

Lemma pointwise_add_scalar F g c :
  add_scalar (pointwise F g) c = pointwise (λ y, fadd (F y) c) g.
Proof. unfold add_scalar, pointwise. simpl. by rewrite <-list_fmap_compose. Qed.

Lemma pointwise_sqrt F g : np_sqrt (pointwise F g) = pointwise (λ y, fsqrt (F y)) g.
Proof. unfold np_sqrt, pointwise. simpl. by rewrite <-list_fmap_compose. Qed.

Lemma pointwise_square F g :
  np_square (pointwise F g) = pointwise (λ y, fmul (F y) (F y)) g.
Proof. unfold np_square, pointwise. simpl. by rewrite <-list_fmap_compose. Qed.

Lemma pointwise_zip (f : A → A → A) F G g :
  zip_arr f (pointwise F g) (pointwise G g) = pointwise (λ y, f (F y) (G y)) g.
Proof.
  unfold zip_arr, pointwise. simpl. f_equal.
  induction (data g) as [|y ys IH]; [done|]. csimpl. by rewrite IH.
Qed.

Lemma zip_arr_pointwise (f : A → A → A) F p g :
  zip_arr f p (pointwise F g) =
  NDArray (shape p) (zip_with (λ x y, f x (F y)) (data p) (data g)).
Proof. unfold zip_arr, pointwise. simpl. by rewrite zip_with_fmap_r. Qed.

Lemma pointwise_eq_id F g : (∀ y, F y = y) → pointwise F g = g.
Proof. intros HF. rewrite (pointwise_id g) at 2. by apply pointwise_ext. Qed.

Lemma pointwise_rmul_id c g : rmul c g = pointwise (fmul c) g.
Proof. done. Qed.

Lemma pointwise_square_id g : np_square g = pointwise (λ y, fmul y y) g.
Proof. done. Qed.

Lemma fpow_1 (b : A) : fpow b 1 = fmul b fone.
Proof. reflexivity. Qed.

Lemma fpow_2 (b : A) : fpow b 2 = fmul b (fmul b fone).
Proof. reflexivity. Qed.
End Pointwise.

(** ** The first steps in exact arithmetic *)

Section FirstSteps.
Implicit Types (g p : ndarray R) (beta : R).

Ltac pointwise_of g :=
  repeat first
    [ rewrite pointwise_rmul | rewrite pointwise_zip | rewrite pointwise_truediv
    | rewrite pointwise_sqrt | rewrite pointwise_add_scalar | rewrite pointwise_square
    | rewrite (pointwise_rmul_id _ g) | rewrite (pointwise_square_id g) ].

(** At [t = 1] the bias correction undoes the factor [1 - beta] of the first
    average. *)
Lemma first_moment_corrected beta g :
  beta ≠ 1%R → well_formed g →
  bias_corrected beta 1 (moment beta (np_zeros (shape g)) g) = g.
Proof.
  intros Hb Hg. unfold bias_corrected, moment. rewrite pointwise_zeros; [|done].
  rewrite fpow_1. pointwise_of g.
  apply pointwise_eq_id. intros y. simpl. field. lra.
Qed.

Lemma first_moment2_corrected beta g :
  beta ≠ 1%R → well_formed g →
  bias_corrected beta 1 (moment2 beta (np_zeros (shape g)) g) = np_square g.
Proof.
  intros Hb Hg. unfold bias_corrected, moment2. rewrite pointwise_zeros; [|done].
  rewrite fpow_1. pointwise_of g.
  apply pointwise_ext. intros y. simpl. field. lra.
Qed.

(** So is the factor [1 - beta ** 2] of the second average of one gradient. *)
Lemma second_moment_corrected beta g :
  beta ≠ 1%R → beta ≠ (-1)%R → well_formed g →
  bias_corrected beta 2 (moment beta (moment beta (np_zeros (shape g)) g) g) = g.
Proof.
  intros Hb Hb' Hg. unfold bias_corrected, moment. rewrite pointwise_zeros; [|done].
  rewrite fpow_2. pointwise_of g.
  apply pointwise_eq_id. intros y. simpl. field. nra.
Qed.

Lemma second_moment2_corrected beta g :
  beta ≠ 1%R → beta ≠ (-1)%R → well_formed g →
  bias_corrected beta 2 (moment2 beta (moment2 beta (np_zeros (shape g)) g) g) =
    np_square g.
Proof.
  intros Hb Hb' Hg. unfold bias_corrected, moment2. rewrite pointwise_zeros; [|done].
  rewrite fpow_2. pointwise_of g.
  apply pointwise_ext. intros y. simpl. field. nra.
Qed.

Lemma momentum_first_step lr beta p g :
  beta ≠ 1%R → well_formed g → shape p = shape g →
  momentum_step lr beta 1 (np_zeros (shape p)) p g = gd_step lr p g.
Proof.
  intros Hb Hg Hs. unfold momentum_step, gd_step.
  by rewrite Hs, first_moment_corrected.
Qed.

Lemma momentum_second_step lr beta p g :
  beta ≠ 1%R → beta ≠ (-1)%R → well_formed g → shape p = shape g →
  momentum_step lr beta 2 (moment beta (np_zeros (shape p)) g) p g = gd_step lr p g.
Proof.
  intros Hb Hb' Hg Hs. unfold momentum_step, gd_step.
  by rewrite Hs, second_moment_corrected.
Qed.

(** [p - lr * g / (|g| + eps)], element by element. *)
Definition adam_sign_step (lr eps : R) p g : ndarray R :=
  NDArray (shape p)
    (zip_with (λ x y, x - lr * y / (Rabs y + eps))%R (data p) (data g)).

Lemma adam_unit_step lr eps p g :
  zip_arr fsub p (zip_arr fdiv (rmul lr g) (add_scalar (np_sqrt (np_square g)) eps)) =
  adam_sign_step lr eps p g.
Proof.
  pointwise_of g. rewrite zip_arr_pointwise. unfold adam_sign_step. f_equal.
  apply zip_with_ext; [|done..]. intros x y. simpl.
  change (y * y)%R with (Rsqr y). by rewrite sqrt_Rsqr_abs.
Qed.

Lemma adam_first_step lr beta1 beta2 eps p g :
  beta1 ≠ 1%R → beta2 ≠ 1%R → well_formed g → shape p = shape g →
  adam_step lr beta1 beta2 eps 1 (np_zeros (shape p)) (np_zeros (shape p)) p g =
    adam_sign_step lr eps p g.
Proof.
  intros Hb1 Hb2 Hg Hs. unfold adam_step.
  rewrite Hs, first_moment_corrected, first_moment2_corrected; [|done..].
  apply adam_unit_step.
Qed.

Lemma adam_second_step lr beta1 beta2 eps p g :
  beta1 ≠ 1%R → beta1 ≠ (-1)%R → beta2 ≠ 1%R → beta2 ≠ (-1)%R →
  well_formed g → shape p = shape g →
  adam_step lr beta1 beta2 eps 2
    (moment beta1 (np_zeros (shape p)) g) (moment2 beta2 (np_zeros (shape p)) g) p g =
    adam_sign_step lr eps p g.
Proof.
  intros Hb1 Hb1' Hb2 Hb2' Hg Hs. unfold adam_step.
  rewrite Hs, second_moment_corrected, second_moment2_corrected; [|done..].
  apply adam_unit_step.
Qed.
End FirstSteps.

(** ** The first step of Momentum *)

(** C4, as stated, fails in binary64: the division by [1 - beta ** 1] does
    not cancel the factor [1 - beta] exactly.  With [beta = 0.9], [lr = 0.1],
    [W = [1.0]] and [dW = [2.51]], the first call of Momentum from the
    velocity that [init_params] allocates has
    [v_corrected = [2.5100000000000002]], which is not the gradient, and
    leaves [W = [0.74899999999999989]], where plain gradient descent leaves
    [W = [0.749]]. *)
Lemma C4_counterexample :
  let g := vector [2.51%float] in
  let s := Store (W_heap (vector [1.0%float]) g) [] in
  ∃ o1 o2 s_momentum s_plain v,
    Momentum.init_params (Momentum.new 0.1%float 0.9%float) [W_layer] s = Ok (o1, s) ∧
    Momentum.update_params o1 [W_layer] 1 32%float None s =
      Ok ((o2, [W_layer]), s_momentum) ∧
    GradientDescent.update_params (GradientDescent.Make 0.1%float) [W_layer] 32%float None s =
      Ok ([W_layer], s_plain) ∧
    Momentum.layer_v o2 = Some [[("dW", v)]] ∧
    bias_corrected 0.9%float 1 v = vector [2.5100000000000002%float] ∧
    bias_corrected 0.9%float 1 v ≠ g ∧
    heap s_momentum !! 0 = Some (vector [0.74899999999999989%float]) ∧
    heap s_plain !! 0 = Some (vector [0.749%float]) ∧
    heap s_momentum !! 0 ≠ heap s_plain !! 0.
Proof.
  intros g s. eexists _, _, _, _, _.
  split; [reflexivity|]. split; [reflexivity|]. split; [reflexivity|].
  split; [reflexivity|]. split; [reflexivity|]. split.
  { intros Heq.
    apply (f_equal (λ a, match data a with
                         | x :: _ => PrimFloat.ltb 2.51 x
                         | [] => false
                         end)) in Heq.
    vm_compute in Heq. discriminate Heq. }
  split; [reflexivity|]. split; [reflexivity|].
  intros Heq.
  apply (f_equal (λ o, match o with
                       | Some a =>
                           match data a with
                           | x :: _ => PrimFloat.ltb x 0.749
                           | [] => false
                           end
                       | None => false
                       end)) in Heq.
  vm_compute in Heq. discriminate Heq.
Qed.

(** C4, amended (exact arithmetic): over the real numbers and for
    [beta <> 1], from the velocities that [init_params] allocates, one call
    of [Momentum.update_params] with [t = 1] and no regularizer leaves every
    [v_corrected] equal to the gradient, and leaves the parameters exactly as
    one call of [GradientDescent.update_params] with the same learning rate
    does. *)
Theorem C4_momentum_first_step_is_plain (lr beta m : R) (layers : list layer)
    (h : gmap ref (ndarray R)) (c : list (call R)) :
  layers_ok h layers → arrays_well_formed h → beta ≠ 1%R →
  ∃ o1 lv2 h',
    Momentum.init_params (Momentum.new lr beta) layers (Store h c) =
      Ok (o1, Store h c) ∧
    Momentum.update_params o1 layers 1 m None (Store h c) =
      Ok ((Momentum.Make lr beta (Some lv2), layers), Store h' c) ∧
    GradientDescent.update_params (GradientDescent.Make lr) layers m None (Store h c) =
      Ok (layers, Store h' c) ∧
    ∀ l ly k r rg p g, param_at h layers l ly k r rg p g →
      ∃ v, velocity_at lv2 l k v ∧ bias_corrected beta 1 v = g.
Proof.
  intros Hok Hwf Hb.
  pose proof (layers_ok_params_ok _ _ Hok) as Hpok.
  pose proof (zeros_momentum_state_ok h layers Hpok) as Hst.
  set (lv := zeros_dict h <$> layers) in *.
  assert (∀ l ly k r rg p g, param_at h layers l ly k r rg p g →
            velocity_at lv l k (np_zeros (shape p)) ∧ shape p = shape g ∧ well_formed g)
    as Hcell.
  { intros l ly k r rg p g Hat. split_and!.
    - destruct Hat as (Hl & Hin & _ & Hp & _). by eapply zeros_velocity_at.
    - by eapply param_at_shape.
    - destruct Hat as (_ & _ & _ & _ & Hg). by eapply Hwf. }
  exists (Momentum.Make lr beta (Some lv)), (momentum_state beta layers lv h),
    (write_all (momentum_writes lr beta 1 m None layers lv h) h).
  split_and!.
  - by apply (momentum_init_params_spec (Momentum.new lr beta)).
  - rewrite momentum_update_params_spec;
      [|apply no_regularizer_shape_preserving|done..].
    by rewrite momentum_calls_nil, app_nil_r.
  - rewrite (gd_update_params_spec _ _ _ no_regularizer_shape_preserving); [|done].
    rewrite gd_calls_nil, app_nil_r; [|done]. do 3 f_equal.
    apply map_eq. intros r. destruct (decide (r ∈ param_refs layers)) as [Hr|Hr].
    + destruct (param_refs_param_at h layers r Hok Hr) as (l & ly & k & rg & p & g & Hat).
      destruct (Hcell _ _ _ _ _ _ _ Hat) as (Hv & Hs & Hg).
      rewrite (gd_lookup _ m None layers h l ly k r rg p g Hok Hat).
      rewrite (momentum_lookup lr beta 1 m None layers lv h l ly k r rg p g _ Hok Hst Hat Hv).
      rewrite !decay_not_L2; [|done..]. simpl.
      by rewrite momentum_first_step.
    + rewrite gd_lookup_other, momentum_lookup_other; done.
  - intros l ly k r rg p g Hat. destruct (Hcell _ _ _ _ _ _ _ Hat) as (Hv & Hs & Hg).
    exists (moment beta (np_zeros (shape p)) g). split.
    + by apply (momentum_state_at lr beta 1 layers lv h l ly k r rg p g).
    + rewrite Hs. by apply first_moment_corrected.
Qed.

Lemma C4_witness :
  let h := W_heap (vector [1; 2]%R) (vector [0.1; 0.2]%R) in
  ∃ o1 lv2 h',
    Momentum.init_params (Momentum.new 0.1%R 0.9%R) [W_layer] (Store h []) =
      Ok (o1, Store h []) ∧
    Momentum.update_params o1 [W_layer] 1 32%R None (Store h []) =
      Ok ((Momentum.Make 0.1%R 0.9%R (Some lv2), [W_layer]), Store h' []) ∧
    GradientDescent.update_params (GradientDescent.Make 0.1%R) [W_layer] 32%R None
        (Store h []) =
      Ok ([W_layer], Store h' []) ∧
    ∀ l ly k r rg p g, param_at h [W_layer] l ly k r rg p g →
      ∃ v, velocity_at lv2 l k v ∧ bias_corrected 0.9%R 1 v = g.
Proof.
  apply C4_momentum_first_step_is_plain.
  - apply W_layer_ok. reflexivity.
  - apply W_heap_well_formed; reflexivity.
  - lra.
Defined.

(** ** The first step of Adam *)




(** ** Two calls on the same inputs *)

(** C8, as stated, fails.  In binary64, with the default [beta = 0.9], the
    velocities of Momentum freshly initialized, and the inputs
    [W = [1.0, 2.0]], [dW = [0.1, 0.2]], [lr = 0.1], the call with [t = 1]
    and the call with [t = 2] that follows it on the same inputs both leave
    [W = [0.99, 1.98]]; so do the two calls of Adam at
    [beta1 = beta2 = 0.5], [W = [1.0]], [dW = [1.0]], [lr = 0.5]. *)
Lemma C8_counterexample :
  let s := Store (W_heap (vector [1.0; 2.0]%float) (vector [0.1; 0.2]%float)) [] in
  let s' := Store (W_heap (vector [1.0%float]) (vector [1.0%float])) [] in
  (∃ o1 o2 o3 s1 s2,
     Momentum.init_params (Momentum.new 0.1%float 0.9%float) [W_layer] s = Ok (o1, s) ∧
     Momentum.update_params o1 [W_layer] 1 32%float None s = Ok ((o2, [W_layer]), s1) ∧
     Momentum.update_params o2 [W_layer] 2 32%float None s = Ok ((o3, [W_layer]), s2) ∧
     Momentum.layer_v o2 = Some [[("dW", vector [0.0099999999999999985; 0.019999999999999997]%float)]] ∧
     heap s1 !! 0 = Some (vector [0.99; 1.98]%float) ∧
     heap s2 !! 0 = Some (vector [0.99; 1.98]%float) ∧
     heap s1 = heap s2) ∧
  (∃ o1 o2 o3 s1 s2,
     Adam.init_params (Adam.new 0.5%float 0.5%float 0.5%float 1e-8%float) [W_layer] s' =
       Ok (o1, s') ∧
     Adam.update_params o1 [W_layer] 1 1%float None s' = Ok ((o2, [W_layer]), s1) ∧
     Adam.update_params o2 [W_layer] 2 1%float None s' = Ok ((o3, [W_layer]), s2) ∧
     Adam.layer_v o2 = Some [[("dW", vector [0.5%float])]] ∧
     heap s1 !! 0 = Some (vector [0.50000000499999997%float]) ∧
     heap s2 !! 0 = Some (vector [0.50000000499999997%float]) ∧
     heap s1 = heap s2).
Proof.
  intros s s'. split.
  - eexists _, _, _, _, _. split; [reflexivity|]. split; [reflexivity|].
    split; [reflexivity|]. split_and!; reflexivity.
  - eexists _, _, _, _, _. split; [reflexivity|]. split; [reflexivity|].
    split; [reflexivity|]. split_and!; reflexivity.
Qed.

(** The moments after one and after two averages of the same gradient,
    from zero. *)
Lemma moment_of_zero (beta : R) (g : ndarray R) :
  well_formed g → moment beta (np_zeros (shape g)) g = rmul (1 - beta)%R g.
Proof.
  intros Hg. unfold moment. rewrite pointwise_zeros; [|done].
  rewrite (pointwise_rmul_id _ g), pointwise_rmul, pointwise_zip.
  apply pointwise_ext. intros y. simpl. lra.
Qed.

Lemma moment_of_moment (beta : R) (g : ndarray R) :
  moment beta (rmul (1 - beta)%R g) g = rmul (1 - beta * beta)%R g.
Proof.
  unfold moment. rewrite !(pointwise_rmul_id _ g), pointwise_rmul, pointwise_zip.
  apply pointwise_ext. intros y. simpl. lra.
Qed.

Lemma moment2_of_zero (beta : R) (g : ndarray R) :
  well_formed g →
  moment2 beta (np_zeros (shape g)) g = rmul (1 - beta)%R (np_square g).
Proof.
  intros Hg. unfold moment2. rewrite pointwise_zeros; [|done].
  rewrite (pointwise_square_id g), !pointwise_rmul, pointwise_zip.
  apply pointwise_ext. intros y. simpl. lra.
Qed.

Lemma moment2_of_moment2 (beta : R) (g : ndarray R) :
  moment2 beta (rmul (1 - beta)%R (np_square g)) g =
    rmul (1 - beta * beta)%R (np_square g).
Proof.
  unfold moment2. rewrite (pointwise_square_id g), !pointwise_rmul, pointwise_zip.
  apply pointwise_ext. intros y. simpl. lra.
Qed.

(** C8, amended: plain gradient descent, in any arithmetic, gives the same
    result at every step index and keeps no state.  For Momentum and Adam,
    in exact arithmetic and with the same parameters and gradients, the step
    at [t = 2], made with the moments that the step at [t = 1] left, gives the
    same parameters as the step at [t = 1] made with freshly initialized
    moments, although the moments are not the same: the first moment is
    [(1 - beta) * grad] after the first call and [(1 - beta ** 2) * grad]
    after the second (Adam's second moment is the same multiples of
    [grad ** 2]), and the bias correction divides these factors out. *)
Theorem C8_same_inputs_same_parameters `{Scalar A}
    (lr0 m0 : A) (reg0 : option (regularizer A)) (layers0 : list layer)
    (h0 : gmap ref (ndarray A)) (c0 : list (call A))
    (lr beta beta1 beta2 eps m : R)
    (reg : option (regularizer R)) (layers : list layer)
    (h : gmap ref (ndarray R)) (c : list (call R)) :
  layers_ok h0 layers0 → shape_preserving reg0 →
  layers_ok h layers → arrays_well_formed h → shape_preserving reg →
  beta ≠ 1%R → beta ≠ (-1)%R →
  beta1 ≠ 1%R → beta1 ≠ (-1)%R → beta2 ≠ 1%R → beta2 ≠ (-1)%R →
  (∃ h' c', ∀ t,
     update_params (Plain (GradientDescent.Make lr0)) layers0 t m0 reg0 (Store h0 c0) =
       Ok ((Plain (GradientDescent.Make lr0), layers0), Store h' c')) ∧
  (∃ o1 lv1 lv2 h' c1 c2,
     Momentum.init_params (Momentum.new lr beta) layers (Store h c) = Ok (o1, Store h c) ∧
     Momentum.update_params o1 layers 1 m reg (Store h c) =
       Ok ((Momentum.Make lr beta (Some lv1), layers), Store h' c1) ∧
     Momentum.update_params (Momentum.Make lr beta (Some lv1)) layers 2 m reg (Store h c) =
       Ok ((Momentum.Make lr beta (Some lv2), layers), Store h' c2) ∧
     ∀ l ly k r rg p g, param_at h layers l ly k r rg p g →
       velocity_at lv1 l k (rmul (1 - beta)%R g) ∧
       velocity_at lv2 l k (rmul (1 - beta * beta)%R g)) ∧
  (∃ o1 lv1 ls1 lv2 ls2 h' c1 c2,
     Adam.init_params (Adam.new lr beta1 beta2 eps) layers (Store h c) =
       Ok (o1, Store h c) ∧
     Adam.update_params o1 layers 1 m reg (Store h c) =
       Ok ((Adam.Make lr beta1 beta2 eps (Some lv1) (Some ls1), layers), Store h' c1) ∧
     Adam.update_params (Adam.Make lr beta1 beta2 eps (Some lv1) (Some ls1)) layers 2 m reg
         (Store h c) =
       Ok ((Adam.Make lr beta1 beta2 eps (Some lv2) (Some ls2), layers), Store h' c2) ∧
     ∀ l ly k r rg p g, param_at h layers l ly k r rg p g →
       velocity_at lv1 l k (rmul (1 - beta1)%R g) ∧
       velocity_at ls1 l k (rmul (1 - beta2)%R (np_square g)) ∧
       velocity_at lv2 l k (rmul (1 - beta1 * beta1)%R g) ∧
       velocity_at ls2 l k (rmul (1 - beta2 * beta2)%R (np_square g))).
Proof.
  intros Hok0 Hreg0 Hok Hwf Hreg Hb Hb' Hb1 Hb1' Hb2 Hb2'.
  pose proof (layers_ok_params_ok _ _ Hok) as Hpok.
  set (lv := zeros_dict h <$> layers).
  assert (∀ l ly k r rg p g, param_at h layers l ly k r rg p g →
            velocity_at lv l k (np_zeros (shape p)) ∧ shape p = shape g ∧ well_formed g)
    as Hcell.
  { intros l ly k r rg p g Hat. split_and!.
    - destruct Hat as (Hl & Hin & _ & Hp & _). by eapply zeros_velocity_at.
    - by eapply param_at_shape.
    - destruct Hat as (_ & _ & _ & _ & Hg). by eapply Hwf. }
  split_and!.
  - exists (write_all (gd_writes (GradientDescent.Make lr0) m0 reg0 layers0 h0) h0),
      (c0 ++ gd_calls (GradientDescent.Make lr0) m0 reg0 layers0 h0).
    intros t. unfold update_params, bind. by rewrite gd_update_params_spec.
  - pose proof (zeros_momentum_state_ok h layers Hpok) as Hst. fold lv in Hst.
    set (lv1 := momentum_state beta layers lv h).
    assert (momentum_state_ok h layers lv1) as Hst1.
    { apply (momentum_state_ok_next lr beta 1 layers lv h h Hok Hst).
      - intros r p _ Hp. by exists p.
      - intros r p _ Hp. by exists p. }
    assert (∀ l ly k r rg p g, param_at h layers l ly k r rg p g →
              velocity_at lv1 l k (moment beta (np_zeros (shape p)) g)) as Hv1.
    { intros l ly k r rg p g Hat. destruct (Hcell _ _ _ _ _ _ _ Hat) as (Hv & _).
      by apply (momentum_state_at lr beta 1 layers lv h l ly k r rg p g). }
    assert (write_all (momentum_writes lr beta 2 m reg layers lv1 h) h =
            write_all (momentum_writes lr beta 1 m reg layers lv h) h) as Hsame.
    { apply map_eq. intros r. destruct (decide (r ∈ param_refs layers)) as [Hr|Hr].
      - destruct (param_refs_param_at h layers r Hok Hr)
          as (l & ly & k & rg & p & g & Hat).
        destruct (Hcell _ _ _ _ _ _ _ Hat) as (Hv & Hs & Hg).
        rewrite (momentum_lookup lr beta 1 m reg layers lv h l ly k r rg p g _
                   Hok Hst Hat Hv).
        rewrite (momentum_lookup lr beta 2 m reg layers lv1 h l ly k r rg p g
                   (moment beta (np_zeros (shape p)) g) Hok Hst1 Hat (Hv1 _ _ _ _ _ _ _ Hat)).
        by rewrite momentum_first_step, momentum_second_step.
      - rewrite !momentum_lookup_other; done. }
    eexists (Momentum.Make lr beta (Some lv)), lv1, (momentum_state beta layers lv1 h),
      _, _, _.
    split_and!.
    + by apply (momentum_init_params_spec (Momentum.new lr beta)).
    + by rewrite momentum_update_params_spec.
    + rewrite momentum_update_params_spec; [|done..]. by rewrite Hsame.
    + intros l ly k r rg p g Hat. destruct (Hcell _ _ _ _ _ _ _ Hat) as (Hv & Hs & Hg).
      pose proof (Hv1 _ _ _ _ _ _ _ Hat) as Hat1.
      pose proof (momentum_state_at lr beta 2 layers lv1 h l ly k r rg p g _
                    Hok Hst1 Hat Hat1) as Hat2.
      rewrite Hs, moment_of_zero in Hat1, Hat2; [|done..].
      rewrite moment_of_moment in Hat2. done.
  - pose proof (zeros_adam_state_ok h layers Hpok) as Hst. fold lv in Hst.
    set (st1 := adam_state beta1 beta2 layers lv lv h).
    assert (adam_state_ok h layers st1.1 st1.2) as Hst1.
    { by apply (adam_state_ok_next lr beta1 beta2 eps 1). }
    assert (∀ l ly k r rg p g, param_at h layers l ly k r rg p g →
              velocity_at st1.1 l k (moment beta1 (np_zeros (shape p)) g) ∧
              velocity_at st1.2 l k (moment2 beta2 (np_zeros (shape p)) g)) as Hv1.
    { intros l ly k r rg p g Hat. destruct (Hcell _ _ _ _ _ _ _ Hat) as (Hv & _).
      by apply (adam_state_at lr beta1 beta2 eps 1 layers lv lv h l ly k r rg p g). }
    assert (write_all (adam_writes lr beta1 beta2 eps 2 m reg layers st1.1 st1.2 h) h =
            write_all (adam_writes lr beta1 beta2 eps 1 m reg layers lv lv h) h) as Hsame.
    { apply map_eq. intros r. destruct (decide (r ∈ param_refs layers)) as [Hr|Hr].
      - destruct (param_refs_param_at h layers r Hok Hr)
          as (l & ly & k & rg & p & g & Hat).
        destruct (Hcell _ _ _ _ _ _ _ Hat) as (Hv & Hs & Hg).
        destruct (Hv1 _ _ _ _ _ _ _ Hat) as [Hv2 Hs2].
        rewrite (adam_lookup lr beta1 beta2 eps 1 m reg layers lv lv h l ly k r rg p g
                   _ _ Hok Hst Hat Hv Hv).
        rewrite (adam_lookup lr beta1 beta2 eps 2 m reg layers st1.1 st1.2 h
                   l ly k r rg p g _ _ Hok Hst1 Hat Hv2 Hs2).
        by rewrite adam_first_step, adam_second_step.
      - rewrite !adam_lookup_other; done. }
    eexists (Adam.Make lr beta1 beta2 eps (Some lv) (Some lv)), st1.1, st1.2,
      (adam_state beta1 beta2 layers st1.1 st1.2 h).1,
      (adam_state beta1 beta2 layers st1.1 st1.2 h).2, _, _, _.
    split_and!.
    + by apply (adam_init_params_spec (Adam.new lr beta1 beta2 eps)).
    + by rewrite adam_update_params_spec.
    + rewrite adam_update_params_spec; [|done..]. by rewrite Hsame.
    + intros l ly k r rg p g Hat. destruct (Hcell _ _ _ _ _ _ _ Hat) as (Hv & Hs & Hg).
      destruct (Hv1 _ _ _ _ _ _ _ Hat) as [Hat1 Hsq1].
      destruct (adam_state_at lr beta1 beta2 eps 2 layers st1.1 st1.2 h l ly k r rg p g
                  _ _ Hok Hst1 Hat Hat1 Hsq1) as [Hat2 Hsq2].
      rewrite Hs, moment_of_zero in Hat1, Hat2; [|done..].
      rewrite Hs, moment2_of_zero in Hsq1, Hsq2; [|done..].
      rewrite moment_of_moment in Hat2. rewrite moment2_of_moment2 in Hsq2. done.
Qed.

Lemma C8_witness :
  let h0 := W_heap (vector [1.0; 2.0]%float) (vector [0.1; 0.2]%float) in
  let h := W_heap (vector [1; 2]%R) (vector [0.1; 0.2]%R) in
  let s := Store h [] in
  (∃ h' c', ∀ t,
     update_params (Plain (GradientDescent.Make 0.1%float)) [W_layer] t 32%float None
         (Store h0 []) =
       Ok ((Plain (GradientDescent.Make 0.1%float), [W_layer]), Store h' c')) ∧
  (∃ o1 lv1 lv2 h' c1 c2,
     Momentum.init_params (Momentum.new 0.1 0.9)%R [W_layer] s = Ok (o1, s) ∧
     Momentum.update_params o1 [W_layer] 1 32%R None s =
       Ok ((Momentum.Make 0.1 0.9 (Some lv1))%R, [W_layer], Store h' c1) ∧
     Momentum.update_params (Momentum.Make 0.1 0.9 (Some lv1))%R [W_layer] 2 32%R None s =
       Ok ((Momentum.Make 0.1 0.9 (Some lv2))%R, [W_layer], Store h' c2) ∧
     ∀ l ly k r rg p g, param_at h [W_layer] l ly k r rg p g →
       velocity_at lv1 l k (rmul (1 - 0.9)%R g) ∧
       velocity_at lv2 l k (rmul (1 - 0.9 * 0.9)%R g)) ∧
  (∃ o1 lv1 ls1 lv2 ls2 h' c1 c2,
     Adam.init_params (Adam.new 0.1 0.9 0.999 1e-8)%R [W_layer] s = Ok (o1, s) ∧
     Adam.update_params o1 [W_layer] 1 32%R None s =
       Ok ((Adam.Make 0.1 0.9 0.999 1e-8 (Some lv1) (Some ls1))%R, [W_layer], Store h' c1) ∧
     Adam.update_params (Adam.Make 0.1 0.9 0.999 1e-8 (Some lv1) (Some ls1))%R [W_layer]
         2 32%R None s =
       Ok ((Adam.Make 0.1 0.9 0.999 1e-8 (Some lv2) (Some ls2))%R, [W_layer], Store h' c2) ∧
     ∀ l ly k r rg p g, param_at h [W_layer] l ly k r rg p g →
       velocity_at lv1 l k (rmul (1 - 0.9)%R g) ∧
       velocity_at ls1 l k (rmul (1 - 0.999)%R (np_square g)) ∧
       velocity_at lv2 l k (rmul (1 - 0.9 * 0.9)%R g) ∧
       velocity_at ls2 l k (rmul (1 - 0.999 * 0.999)%R (np_square g))).
Proof.
  apply C8_same_inputs_same_parameters.
  - apply W_layer_ok. reflexivity.
  - apply no_regularizer_shape_preserving.
  - apply W_layer_ok. reflexivity.
  - apply W_heap_well_formed; reflexivity.
  - apply no_regularizer_shape_preserving.
  - lra.
  - lra.
  - lra.
  - lra.
  - lra.
  - lra.
Defined.

(** * Further properties of the optimizers *)

(** ** Calls that fail *)

Section Failures.
Context `{Scalar A}.
Implicit Types (h : gmap ref (ndarray A)) (c : list (call A)) (s : store A).

(** A loop over [xs ++ ys] is the loop over [xs] followed by the loop
    over [ys]; a round that raises ends the loop. *)
Lemma for_each_app {X S} (xs ys : list X) (body : X → S → M A S) acc s :
  for_each (xs ++ ys) body acc s =
    match for_each xs body acc s with
    | Ok (acc', s') => for_each ys body acc' s'
    | Raise e => Raise e
    end.
Proof.
  revert acc s. induction xs as [|x xs IH]; intros acc s; simpl; [done|].
  unfold bind. destruct (body x acc s) as [[acc' s']|e]; [apply IH|done].
Qed.

Lemma momentum_state_length beta (layers : list layer) lv h :
  length (momentum_state beta layers lv h) = length lv.
Proof.
  unfold momentum_state, run_state.
  apply (final_state_ind (A := A) fst (λ l (lv : list (dict (ndarray A))), lv !! l)
           (λ l v lv, <[l := v]> lv) _ (λ st, length st = length lv)); [|done].
  intros l v st Hst. by rewrite length_insert.
Qed.

Lemma adam_state_length beta1 beta2 (layers : list layer) lv ls h :
  length (adam_state beta1 beta2 layers lv ls h).1 = length lv ∧
  length (adam_state beta1 beta2 layers lv ls h).2 = length ls.
Proof.
  unfold adam_state, run_state.
  apply (final_state_ind (A := A) fst _ _ _
           (λ st : list (dict (ndarray A)) * list (dict (ndarray A)),
              length st.1 = length lv ∧ length st.2 = length ls)); [|done].
  intros l v st [Hv Hs]. simpl. by rewrite !length_insert.
Qed.
End Failures.

(** X1: [update_params] reads [self.layer_v] only inside the loop over the
    layers.  On an optimizer on which [init_params] has not run, the call
    returns normally, with nothing changed, when the list of layers is empty,
    and raises [AttributeError] for the attribute [layer_v] otherwise,
    whatever the layers hold. *)
Theorem X1_update_params_before_init_params `{Scalar A}
    (lr beta beta1 beta2 eps : A) (layers : list layer) (t : Z) (m : A)
    (reg : option (regularizer A)) (s : store A) :
  Momentum.update_params (Momentum.new lr beta) layers t m reg s =
    (if decide (layers = []) then Ok ((Momentum.new lr beta, []), s)
     else Raise (AttributeError "layer_v")) ∧
  Adam.update_params (Adam.new lr beta1 beta2 eps) layers t m reg s =
    (if decide (layers = []) then Ok ((Adam.new lr beta1 beta2 eps, []), s)
     else Raise (AttributeError "layer_v")).
Proof.
  destruct layers as [|ly layers]; [done|].
  rewrite decide_False; [|done]. done.
Qed.

(** X2: the moment buffers are indexed by the position of the layer.  When
    [update_params] is given more layers than [init_params] has seen, the
    call raises [IndexError], for Momentum and for Adam: the layers that
    have buffers are processed without error, and [self.layer_v[l]] fails
    for the first layer that has none. *)
Theorem X2_more_layers_than_initialized `{Scalar A}
    (lr beta beta1 beta2 eps : A) (t : Z) (m : A) (reg : option (regularizer A))
    (layers : list layer) (ly : layer) (more : list layer)
    (h : gmap ref (ndarray A)) (c : list (call A)) :
  layers_ok h layers → shape_preserving reg →
  (∃ o, Momentum.init_params (Momentum.new lr beta) layers (Store h c) =
          Ok (o, Store h c) ∧
        Momentum.update_params o (layers ++ ly :: more) t m reg (Store h c) =
          Raise IndexError) ∧
  (∃ o, Adam.init_params (Adam.new lr beta1 beta2 eps) layers (Store h c) =
          Ok (o, Store h c) ∧
        Adam.update_params o (layers ++ ly :: more) t m reg (Store h c) =
          Raise IndexError).
Proof.
  intros Hok Hreg.
  pose proof (layers_ok_params_ok _ _ Hok) as Hpok.
  set (lv := zeros_dict h <$> layers).
  assert (length lv = length layers) as Hlen by apply length_fmap.
  split.
  - exists (Momentum.Make lr beta (Some lv)). split.
    { by apply (momentum_init_params_spec (Momentum.new lr beta)). }
    pose proof (momentum_update_params_spec lr beta t m reg Hreg layers lv h c Hok
                  (zeros_momentum_state_ok h layers Hpok)) as Hrun.
    unfold Momentum.update_params in *.
    rewrite imap_app, for_each_app, Hrun. simpl.
    unfold bind, Momentum.update_layer, bind, lift, Momentum.get_v. simpl.
    rewrite lookup_ge_None_2; [done|].
    rewrite momentum_state_length. lia.
  - exists (Adam.Make lr beta1 beta2 eps (Some lv) (Some lv)). split.
    { by apply (adam_init_params_spec (Adam.new lr beta1 beta2 eps)). }
    pose proof (adam_update_params_spec lr beta1 beta2 eps t m reg Hreg layers lv lv h c
                  Hok (zeros_adam_state_ok h layers Hpok)) as Hrun.
    unfold Adam.update_params in *.
    rewrite imap_app, for_each_app, Hrun. simpl.
    unfold bind, Adam.update_layer, bind, lift, Adam.get_v. simpl.
    rewrite lookup_ge_None_2; [done|].
    destruct (adam_state_length beta1 beta2 layers lv lv h) as [-> _]. lia.
Qed.

Lemma X2_witness :
  let h := W_heap (vector [1.0; 2.0]%float) (vector [0.1; 0.2]%float) in
  (∃ o, Momentum.init_params (Momentum.new 0.1%float 0.9%float) [W_layer] (Store h []) =
          Ok (o, Store h []) ∧
        Momentum.update_params o ([W_layer] ++ Layer [("b", 2)] [("db", 3)] :: [])
            1 32%float None (Store h []) =
          Raise IndexError) ∧
  (∃ o, Adam.init_params (Adam.new 0.1%float 0.9%float 0.999%float 1e-8%float)
            [W_layer] (Store h []) =
          Ok (o, Store h []) ∧
        Adam.update_params o ([W_layer] ++ Layer [("b", 2)] [("db", 3)] :: [])
            1 32%float None (Store h []) =
          Raise IndexError).
Proof.
  apply X2_more_layers_than_initialized.
  - apply W_layer_ok. reflexivity.
  - apply no_regularizer_shape_preserving.
Defined.

Section Frame.
Context `{Scalar A}.
Implicit Types (h : gmap ref (ndarray A)).

(** What the rounds of a loop keep, when every write of a round keeps it. *)
Lemma final_state_keeps {X ST K E : Type} (key : X → K) (rd : K → ST → option E)
    (wr : K → E → ST → ST) (new_entry : X → E → gmap ref (ndarray A) → E)
    (Q : ST → Prop) st0 h0 (xs : list X) st :
  (∀ x e st, x ∈ xs → Q st → Q (wr (key x) e st)) →
  Q st → Q (foldl (item_state key rd wr new_entry st0 h0) st xs).
Proof.
  revert st. induction xs as [|x xs IH]; intros st Hwr Hst; simpl; [done|].
  apply IH; [intros; apply Hwr; [by right|done]|].
  unfold item_state. destruct (rd (key x) st0); [|done]. apply Hwr; [left|done].
Qed.

Lemma momentum_state_other beta (layers : list layer) lv h l :
  length layers ≤ l → momentum_state beta layers lv h !! l = lv !! l.
Proof.
  intros Hl. unfold momentum_state, run_state.
  apply (final_state_keeps fst _ (λ l v lv, <[l := v]> lv) _ (λ st, st !! l = lv !! l));
    [|done].
  intros [i ly] v st Hi%elem_of_imap_pair Hst. simpl.
  apply lookup_lt_Some in Hi. rewrite list_lookup_insert_ne; [done|lia].
Qed.

Lemma adam_state_other beta1 beta2 (layers : list layer) lv ls h l :
  length layers ≤ l →
  (adam_state beta1 beta2 layers lv ls h).1 !! l = lv !! l ∧
  (adam_state beta1 beta2 layers lv ls h).2 !! l = ls !! l.
Proof.
  intros Hl. unfold adam_state, run_state.
  apply (final_state_keeps fst _
           (λ l (aux : dict (ndarray A) * dict (ndarray A))
              (opt : list (dict (ndarray A)) * list (dict (ndarray A))),
              (<[l := aux.1]> opt.1, <[l := aux.2]> opt.2)) _
           (λ st, st.1 !! l = lv !! l ∧ st.2 !! l = ls !! l)); [|done].
  intros [i ly] v st Hi%elem_of_imap_pair [Hv Hs]. simpl.
  apply lookup_lt_Some in Hi. rewrite !list_lookup_insert_ne; [done|lia..].
Qed.
End Frame.

(** X3: [update_params] may be given fewer layers than [init_params] has
    seen.  It then uses the buffers at the positions of the layers it is
    given; the list of buffers keeps its length, and the buffers at the
    positions beyond the last layer are what they were, for Momentum and for
    Adam. *)
Theorem X3_fewer_layers_than_initialized `{Scalar A}
    (lr beta beta1 beta2 eps : A) (t : Z) (m : A) (reg : option (regularizer A))
    (layers : list layer) (mv av avs : list (dict (ndarray A)))
    (h : gmap ref (ndarray A)) (c : list (call A)) :
  layers_ok h layers → shape_preserving reg →
  momentum_state_ok h layers mv → adam_state_ok h layers av avs →
  (∃ mv' s',
     Momentum.update_params (Momentum.Make lr beta (Some mv)) layers t m reg (Store h c) =
       Ok ((Momentum.Make lr beta (Some mv'), layers), s') ∧
     length mv' = length mv ∧
     ∀ l, length layers ≤ l → mv' !! l = mv !! l) ∧
  (∃ av' avs' s',
     Adam.update_params (Adam.Make lr beta1 beta2 eps (Some av) (Some avs)) layers t m reg
         (Store h c) =
       Ok ((Adam.Make lr beta1 beta2 eps (Some av') (Some avs'), layers), s') ∧
     length av' = length av ∧ length avs' = length avs ∧
     ∀ l, length layers ≤ l → av' !! l = av !! l ∧ avs' !! l = avs !! l).
Proof.
  intros Hok Hreg Hmv Hav. split.
  - eexists (momentum_state beta layers mv h), _. split_and!.
    + by rewrite momentum_update_params_spec.
    + apply momentum_state_length.
    + intros l Hl. by apply momentum_state_other.
  - eexists (adam_state beta1 beta2 layers av avs h).1,
      (adam_state beta1 beta2 layers av avs h).2, _. split_and!.
    + by rewrite adam_update_params_spec.
    + apply adam_state_length.
    + apply adam_state_length.
    + intros l Hl. by apply adam_state_other.
Qed.

Lemma X3_witness :
  let h := W_heap (vector [1.0; 2.0]%float) (vector [0.1; 0.2]%float) in
  let zeros := [("dW", vector [0.0; 0.0]%float)] in
  let other := [("db", vector [0.5%float])] in
  (∃ mv' s',
     Momentum.update_params (Momentum.Make 0.1%float 0.9%float (Some [zeros; other]))
         [W_layer] 1 32%float None (Store h []) =
       Ok ((Momentum.Make 0.1%float 0.9%float (Some mv'), [W_layer]), s') ∧
     length mv' = length [zeros; other] ∧
     ∀ l, length [W_layer] ≤ l → mv' !! l = [zeros; other] !! l) ∧
  (∃ av' avs' s',
     Adam.update_params
         (Adam.Make 0.1%float 0.9%float 0.999%float 1e-8%float
            (Some [zeros; other]) (Some [zeros; other]))
         [W_layer] 1 32%float None (Store h []) =
       Ok ((Adam.Make 0.1%float 0.9%float 0.999%float 1e-8%float (Some av') (Some avs'),
            [W_layer]), s') ∧
     length av' = length [zeros; other] ∧ length avs' = length [zeros; other] ∧
     ∀ l, length [W_layer] ≤ l →
          av' !! l = [zeros; other] !! l ∧ avs' !! l = [zeros; other] !! l).
Proof.
  intros h zeros other. apply X3_fewer_layers_than_initialized.
  - apply W_layer_ok. reflexivity.
  - apply no_regularizer_shape_preserving.
  - intros l ly Hl. destruct l as [|l]; [|done]. injection Hl as <-.
    exists zeros. split; [reflexivity|].
    intros k r p Hin Hp. apply list_elem_of_singleton in Hin. injection Hin as -> ->.
    injection Hp as <-. eexists. split; reflexivity.
  - intros l ly Hl. destruct l as [|l]; [|done]. injection Hl as <-.
    exists zeros, zeros. split_and!; [reflexivity..|].
    intros k r p Hin Hp. apply list_elem_of_singleton in Hin. injection Hin as -> ->.
    injection Hp as <-. eexists _, _. split_and!; reflexivity.
Defined.

(** ** A call that returns has found every gradient *)

Section Returns.
Context `{Scalar A}.
Implicit Types (s : store A) (ly : layer) (k : string).

(** What holds of every item once a loop has returned. *)
Lemma for_each_returns {X S} (I : S → Prop) (P : X → Prop)
    (xs : list X) (body : X → S → M A S) acc s acc' s' :
  (∀ x acc s acc' s', I acc → body x acc s = Ok (acc', s') → P x ∧ I acc') →
  I acc → for_each xs body acc s = Ok (acc', s') →
  Forall P xs ∧ I acc'.
Proof.
  intros Hbody. revert acc s. induction xs as [|x xs IH]; intros acc s Hacc; simpl.
  - unfold ret. intros [= <- <-]. by split.
  - unfold bind. destruct (body x acc s) as [[acc1 s1]|e] eqn:Hx; [|done].
    destruct (Hbody x acc s acc1 s1 Hacc Hx) as [HP Hacc1].
    intros Hrest. destruct (IH acc1 s1 Hacc1 Hrest) as [HPs Hacc'].
    split; [by constructor|done].
Qed.

Lemma getitem_Ok_keys {V} (d : dict V) k v : getitem d k = Ok v → k ∈ keys d.
Proof. intros Hg. eapply elem_of_keys_2. by apply getitem_elem_of. Qed.

(** One step through a computation that is known to return: the next
    operation has returned as well. *)
Ltac returned H :=
  let rec innermost t :=
    lazymatch t with
    | match ?x with _ => _ end => innermost x
    | _ => destruct t eqn:?; cbv beta iota in H; try discriminate H
    end in
  lazymatch type of H with
  | match ?x with _ => _ end = Ok _ => innermost x
  end.

Lemma weight_decay_grads lr m reg ly k param s ly' s' :
  weight_decay lr m reg ly k param s = Ok (ly', s') → grads ly' = grads ly.
Proof.
  unfold weight_decay, ret.
  destruct (String.eqb k "W"); [|by intros [= <- _]].
  destruct reg as [[f|]|]; [|by intros [= <- _]..].
  unfold bind, lift, call_compute_term_delta, isub. intros Hrun.
  repeat returned Hrun. by simplify_eq.
Qed.

Definition has_gradient ly k : Prop := "d" +:+ k ∈ keys (grads ly).

Lemma gd_update_key_returns self m reg k ly s ly' s' :
  GradientDescent.update_key self m reg k ly s = Ok (ly', s') →
  has_gradient ly k ∧ grads ly' = grads ly.
Proof.
  unfold GradientDescent.update_key, bind, lift, load, isub. intros Hrun.
  destruct (getitem (params ly) k) as [r|]; [|done].
  destruct (getitem (grads ly) ("d" +:+ k)) as [rg|] eqn:Hrg; [|done].
  split; [by eapply getitem_Ok_keys|].
  cbv beta iota in Hrun. repeat returned Hrun.
  by apply weight_decay_grads in Hrun.
Qed.

Lemma momentum_update_key_returns self t m reg k v ly s v' ly' s' :
  Momentum.update_key self t m reg k (v, ly) s = Ok ((v', ly'), s') →
  has_gradient ly k ∧ grads ly' = grads ly.
Proof.
  unfold Momentum.update_key, bind, lift, load, isub, ret. intros Hrun.
  destruct (getitem (params ly) k) as [r|]; [|done].
  destruct (getitem (grads ly) ("d" +:+ k)) as [rg|] eqn:Hrg; [|done].
  split; [by eapply getitem_Ok_keys|].
  cbv beta iota in Hrun. repeat returned Hrun. simplify_eq.
  match goal with Hw : weight_decay _ _ _ _ _ _ _ = Ok _ |- _ =>
    by apply weight_decay_grads in Hw end.
Qed.

Lemma adam_update_key_returns self t m reg k v sq ly s v' sq' ly' s' :
  Adam.update_key self t m reg k (v, sq, ly) s = Ok ((v', sq', ly'), s') →
  has_gradient ly k ∧ grads ly' = grads ly.
Proof.
  unfold Adam.update_key, bind, lift, load, isub, ret. intros Hrun.
  destruct (getitem (params ly) k) as [r|]; [|done].
  destruct (getitem (grads ly) ("d" +:+ k)) as [rg|] eqn:Hrg; [|done].
  split; [by eapply getitem_Ok_keys|].
  cbv beta iota in Hrun. repeat returned Hrun. simplify_eq.
  match goal with Hw : weight_decay _ _ _ _ _ _ _ = Ok _ |- _ =>
    by apply weight_decay_grads in Hw end.
Qed.

(** Every parameter of the layer has its gradient. *)
Definition gradients_complete ly : Prop :=
  Forall (has_gradient ly) (keys (params ly)).

Lemma gd_update_layer_returns self m reg ly s ly' s' :
  GradientDescent.update_layer self m reg ly s = Ok (ly', s') → gradients_complete ly.
Proof.
  unfold GradientDescent.update_layer. intros Hrun.
  apply (for_each_returns (λ x, grads x = grads ly) (has_gradient ly)) in Hrun
    as [HP _]; [done| |done].
  intros k acc s0 acc' s0' Hacc Hk.
  destruct (gd_update_key_returns _ _ _ _ _ _ _ _ Hk) as [Hg Hgr].
  unfold has_gradient in *. split; congruence.
Qed.

Lemma momentum_update_layer_returns t m reg l ly self s r s' :
  Momentum.update_layer t m reg l ly self s = Ok (r, s') → gradients_complete ly.
Proof.
  unfold Momentum.update_layer, bind, lift. intros Hrun.
  destruct (Momentum.get_v self l) as [v|]; [|done].
  destruct (for_each _ _ _ s) as [[[v' ly'] s1]|] eqn:Hloop; [|done].
  apply (for_each_returns (λ st, grads st.2 = grads ly) (has_gradient ly)) in Hloop
    as [HP _]; [done| |done].
  intros k [a1 a2] s0 [b1 b2] s0' Hacc Hk. simpl in *.
  destruct (momentum_update_key_returns _ _ _ _ _ _ _ _ _ _ _ Hk) as [Hg Hgr].
  unfold has_gradient in *. split; congruence.
Qed.

Lemma adam_update_layer_returns t m reg l ly self s r s' :
  Adam.update_layer t m reg l ly self s = Ok (r, s') → gradients_complete ly.
Proof.
  unfold Adam.update_layer, bind, lift. intros Hrun.
  destruct (Adam.get_v self l) as [v|]; [|done].
  destruct (Adam.get_s self l) as [sq|]; [|done].
  destruct (for_each _ _ _ s) as [[[[v' sq'] ly'] s1]|] eqn:Hloop; [|done].
  apply (for_each_returns (λ st, grads st.2 = grads ly) (has_gradient ly)) in Hloop
    as [HP _]; [done| |done].
  intros k [[a1 a2] a3] s0 [[b1 b2] b3] s0' Hacc Hk. simpl in *.
  destruct (adam_update_key_returns _ _ _ _ _ _ _ _ _ _ _ _ _ Hk) as [Hg Hgr].
  unfold has_gradient in *. split; congruence.
Qed.

Lemma update_params_returns o (layers : list layer) t m reg s r s' :
  update_params o layers t m reg s = Ok (r, s') → Forall gradients_complete layers.
Proof.
  destruct o as [g|mo|ad]; unfold update_params, bind; intros Hrun.
  - destruct (GradientDescent.update_params g layers m reg s) as [[ls s1]|] eqn:Hloop;
      [|done].
    unfold GradientDescent.update_params in Hloop.
    apply (for_each_returns (λ _, True) gradients_complete) in Hloop as [HP _]; [done| |done].
    intros ly acc s0 acc' s0' _. unfold bind.
    destruct (GradientDescent.update_layer g m reg ly s0) as [[ly' s2]|] eqn:Hly; [|done].
    intros _. split; [|done]. by eapply gd_update_layer_returns.
  - destruct (Momentum.update_params mo layers t m reg s) as [[ls s1]|] eqn:Hloop;
      [|done].
    unfold Momentum.update_params in Hloop.
    apply (for_each_returns (λ _, True) (λ x, gradients_complete x.2)) in Hloop
      as [HP _]; [| |done].
    + rewrite <-(imap_pair_snd layers). by apply Forall_fmap.
    + intros [l ly] [self done] s0 acc' s0' _. unfold bind.
      destruct (Momentum.update_layer t m reg l ly self s0) as [[r' s2]|] eqn:Hly; [|done].
      intros _. split; [|done]. by eapply momentum_update_layer_returns.
  - destruct (Adam.update_params ad layers t m reg s) as [[ls s1]|] eqn:Hloop;
      [|done].
    unfold Adam.update_params in Hloop.
    apply (for_each_returns (λ _, True) (λ x, gradients_complete x.2)) in Hloop
      as [HP _]; [| |done].
    + rewrite <-(imap_pair_snd layers). by apply Forall_fmap.
    + intros [l ly] [self done] s0 acc' s0' _. unfold bind.
      destruct (Adam.update_layer t m reg l ly self s0) as [[r' s2]|] eqn:Hly; [|done].
      intros _. split; [|done]. by eapply adam_update_layer_returns.
Qed.
End Returns.

(** X4: for every optimizer variant, a parameter without its gradient is
    never skipped: when some layer has a key [k] in [params] and no key
    ["d" + k] in [grads], [update_params] raises, whatever else the layers,
    the arrays and the optimizer state are. *)
Theorem X4_missing_gradient_raises `{Scalar A} (o : optimizer A)
    (layers : list layer) (t : Z) (m : A) (reg : option (regularizer A))
    (s : store A) (l : nat) (ly : layer) (k : string) :
  layers !! l = Some ly → k ∈ keys (params ly) → "d" +:+ k ∉ keys (grads ly) →
  ∃ e, update_params o layers t m reg s = Raise e.
Proof.
  intros Hl Hk Hmissing.
  destruct (update_params o layers t m reg s) as [[r s']|e] eqn:Hrun; [|by exists e].
  exfalso. apply Hmissing.
  apply update_params_returns in Hrun.
  rewrite Forall_forall in Hrun.
  assert (gradients_complete ly) as Hly.
  { apply Hrun. by eapply list_elem_of_lookup_2. }
  unfold gradients_complete in Hly. rewrite Forall_forall in Hly. by apply Hly.
Qed.

Lemma X4_witness :
  let h := <[2 := vector [0.5%float]]>
             (W_heap (vector [1.0; 2.0]%float) (vector [0.1; 0.2]%float)) in
  let ly := Layer [("W", 0); ("b", 2)] [("dW", 1)] in
  let run := update_params (Plain (GradientDescent.Make 0.1%float)) [ly] 1 32%float None
               (Store h []) in
  (∃ e, run = Raise e) ∧ run = Raise (KeyError "db").
Proof.
  intros h ly run. split.
  - apply (X4_missing_gradient_raises _ [ly] 1 32%float None (Store h []) 0 ly "b").
    + reflexivity.
    + apply list_elem_of_In. simpl. auto.
    + intros Hin. apply list_elem_of_In in Hin. simpl in Hin.
      destruct Hin as [Heq|[]]. discriminate Heq.
  - reflexivity.
Defined.

(** ** What a call leaves for the next call *)

Section Contract.
Context `{Scalar A}.
Implicit Types (h : gmap ref (ndarray A)) (c : list (call A)).

(** Two heaps whose parameter arrays have the same shapes, and whose
    gradient arrays are the same. *)
Definition same_shapes (layers : list layer) h h' : Prop :=
  (∀ r, r ∈ param_refs layers → shape <$> h' !! r = shape <$> h !! r) ∧
  (∀ r, r ∈ grad_refs layers → h' !! r = h !! r).

Lemma param_in_refs (layers : list layer) ly k r :
  ly ∈ layers → (k, r) ∈ params ly → r ∈ param_refs layers.
Proof.
  intros Hly Hin. apply list_elem_of_bind. exists ly. split; [|done].
  by eapply elem_of_values.
Qed.

Lemma same_shapes_lookup layers h h' r p' :
  same_shapes layers h h' → r ∈ param_refs layers → h' !! r = Some p' →
  ∃ p, h !! r = Some p ∧ shape p = shape p'.
Proof.
  intros [Hp _] Hr Hp'. specialize (Hp r Hr). rewrite Hp' in Hp. simpl in Hp.
  destruct (h !! r) as [p|]; [|done]. exists p. split; [done|].
  by injection Hp as ->.
Qed.

Lemma layers_ok_same_shapes layers h h' :
  same_shapes layers h h' → layers_ok h layers → layers_ok h' layers.
Proof.
  intros [Hp Hg] (Hnd & Hsep & Hly). split_and!; [done..|].
  intros ly Hin. destruct (Hly ly Hin) as [Hk Hcells]. split; [done|].
  intros k r Hkr. destruct (Hcells k r Hkr) as (rg & p & g & Hrg & Hpr & Hgr & Hs).
  assert (r ∈ param_refs layers) as Hr by by eapply param_in_refs.
  assert (rg ∈ grad_refs layers) as Hrg'.
  { apply list_elem_of_bind. exists ly. split; [|done].
    eapply elem_of_values. by apply getitem_elem_of. }
  specialize (Hp r Hr). rewrite Hpr in Hp. simpl in Hp.
  destruct (h' !! r) as [p'|] eqn:Hp'; [|done]. injection Hp as Hp.
  exists rg, p', g. split_and!; [done|done| |congruence].
  by rewrite Hg.
Qed.

Lemma momentum_state_ok_same_shapes layers h h' lv :
  same_shapes layers h h' →
  momentum_state_ok h layers lv → momentum_state_ok h' layers lv.
Proof.
  intros Hsame Hst l ly Hl. destruct (Hst l ly Hl) as (v & Hv & Hentries).
  exists v. split; [done|]. intros k r p' Hkr Hp'.
  destruct (same_shapes_lookup layers h h' r p' Hsame) as (p & Hp & Hs); [|done|].
  { eapply param_in_refs; [|done]. by eapply list_elem_of_lookup_2. }
  destruct (Hentries k r p Hkr Hp) as (e & He & Hse). exists e. split; congruence.
Qed.

Lemma adam_state_ok_same_shapes layers h h' lv ls :
  same_shapes layers h h' →
  adam_state_ok h layers lv ls → adam_state_ok h' layers lv ls.
Proof.
  intros Hsame Hst l ly Hl. destruct (Hst l ly Hl) as (v & s & Hv & Hs & Hentries).
  exists v, s. split_and!; [done..|]. intros k r p' Hkr Hp'.
  destruct (same_shapes_lookup layers h h' r p' Hsame) as (p & Hp & Hsp); [|done|].
  { eapply param_in_refs; [|done]. by eapply list_elem_of_lookup_2. }
  destruct (Hentries k r p Hkr Hp) as (ev & es & Hev & Hes & Hsv & Hss).
  exists ev, es. split_and!; congruence.
Qed.

(** The calls to the regularizer that one call of [update_params] makes. *)
Lemma gd_calls_elem self m reg (layers : list layer) h x :
  layers_ok h layers →
  x ∈ gd_calls self m reg layers h ↔
  ∃ l ly k r rg p g,
    param_at h layers l ly k r rg p g ∧
    x ∈ decay_calls m reg k r (gd_step (GradientDescent.lr self) p g).
Proof.
  intros Hok. unfold gd_calls.
  rewrite (elem_of_run_calls m reg _ _ _ (λ e _, e) _ layers tt h x
             (gd_layers_pre layers h Hok)).
  split.
  - intros (l & ly & k & r & rg & p & g & aux & e & Hcell & Hx).
    exists l, ly, k, r, rg, p, g. split; [|done].
    destruct Hcell as (? & ? & ? & ? & ? & _). by split_and!.
  - intros (l & ly & k & r & rg & p & g & Hat & Hx).
    exists l, ly, k, r, rg, p, g, tt, tt. split; [|done]. by apply gd_cell.
Qed.

Lemma momentum_calls_elem lr beta t m reg (layers : list layer) lv h x :
  layers_ok h layers → momentum_state_ok h layers lv →
  x ∈ momentum_calls lr beta t m reg layers lv h ↔
  ∃ l ly k r rg p g,
    param_at h layers l ly k r rg p g ∧
    x ∈ decay_calls m reg k r (momentum_step lr beta t (stored (Some lv) l k) p g).
Proof.
  intros Hok Hst. unfold momentum_calls.
  rewrite (elem_of_run_calls m reg _ _ _ (λ e g, moment beta e g) _ layers lv h x
             (momentum_layers_pre layers lv h Hok Hst)).
  split.
  - intros (l & ly & k & r & rg & p & g & aux & e & Hcell & Hx).
    exists l, ly, k, r, rg, p, g.
    destruct Hcell as (? & ? & ? & ? & ? & Haux & He).
    assert (velocity_at lv l k e) as Hvel.
    { exists aux. split; [done|]. by destruct (getitem aux ("d" +:+ k)); simplify_eq/=. }
    rewrite (stored_velocity_at lv l k e Hvel). by split_and!.
  - intros (l & ly & k & r & rg & p & g & Hat & Hx).
    pose proof Hat as (Hl & Hin & _ & Hp & _).
    destruct (Hst l ly Hl) as (v & Hv & Hentries).
    destruct (Hentries k r p Hin Hp) as (e & He & _).
    assert (velocity_at lv l k e) as Hvel by by exists v.
    rewrite (stored_velocity_at lv l k e Hvel) in Hx.
    destruct (momentum_cell layers lv h l ly k r rg p g e Hat Hvel) as [aux Hcell].
    by exists l, ly, k, r, rg, p, g, aux, e.
Qed.

Lemma adam_calls_elem lr beta1 beta2 eps t m reg (layers : list layer) lv ls h x :
  layers_ok h layers → adam_state_ok h layers lv ls →
  x ∈ adam_calls lr beta1 beta2 eps t m reg layers lv ls h ↔
  ∃ l ly k r rg p g,
    param_at h layers l ly k r rg p g ∧
    x ∈ decay_calls m reg k r
          (adam_step lr beta1 beta2 eps t
             (stored (Some lv) l k) (stored (Some ls) l k) p g).
Proof.
  intros Hok Hst. unfold adam_calls.
  rewrite (elem_of_run_calls m reg _ _ _
             (λ e g, (moment beta1 e.1 g, moment2 beta2 e.2 g)) _ layers (lv, ls) h x
             (adam_layers_pre layers lv ls h Hok Hst)).
  split.
  - intros (l & ly & k & r & rg & p & g & aux & e & Hcell & Hx).
    exists l, ly, k, r, rg, p, g.
    destruct Hcell as (? & ? & ? & ? & ? & Haux & He). simpl in Haux, He.
    destruct (lv !! l) as [dv|] eqn:Hdv; [|done].
    destruct (ls !! l) as [ds|] eqn:Hds; [|done]. injection Haux as <-. simpl in He.
    destruct (getitem dv ("d" +:+ k)) as [ev|] eqn:Hev; [|done].
    destruct (getitem ds ("d" +:+ k)) as [es|] eqn:Hes; [|done]. injection He as <-.
    assert (velocity_at lv l k ev) as Hvel by by exists dv.
    assert (velocity_at ls l k es) as Hsq by by exists ds.
    rewrite (stored_velocity_at lv l k ev Hvel), (stored_velocity_at ls l k es Hsq).
    by split_and!.
  - intros (l & ly & k & r & rg & p & g & Hat & Hx).
    pose proof Hat as (Hl & Hin & _ & Hp & _).
    destruct (Hst l ly Hl) as (v & s & Hv & Hs & Hentries).
    destruct (Hentries k r p Hin Hp) as (ev & es & Hev & Hes & _).
    assert (velocity_at lv l k ev) as Hvel by by exists v.
    assert (velocity_at ls l k es) as Hsq by by exists s.
    rewrite (stored_velocity_at lv l k ev Hvel), (stored_velocity_at ls l k es Hsq) in Hx.
    destruct (adam_cell layers lv ls h l ly k r rg p g ev es Hat Hvel Hsq) as [aux Hcell].
    by exists l, ly, k, r, rg, p, g, aux, (ev, es).
Qed.

(** No array object is passed to the regularizer twice. *)
Lemma gd_calls_NoDup self m reg (layers : list layer) h :
  shape_preserving reg → layers_ok h layers →
  NoDup (call_obj <$> gd_calls self m reg layers h).
Proof.
  intros Hreg Hok. unfold gd_calls.
  apply (run_calls_NoDup (GradientDescent.lr self) m reg _ (λ _ _ a, a) _ (λ _ ly, ly)
           (GradientDescent.update_key self m reg) _ (λ e _, e) _
           (gd_key_spec self m reg Hreg)).
  by apply gd_layers_pre.
Qed.

Lemma momentum_calls_NoDup lr beta t m reg (layers : list layer) lv h :
  shape_preserving reg → layers_ok h layers → momentum_state_ok h layers lv →
  NoDup (call_obj <$> momentum_calls lr beta t m reg layers lv h).
Proof.
  intros Hreg Hok Hst. unfold momentum_calls.
  apply (run_calls_NoDup lr m reg _ (λ k e v, setitem v ("d" +:+ k) e) _
           (λ v ly, (v, ly)) (Momentum.update_key (Momentum.Make lr beta None) t m reg)
           _ (λ e g, moment beta e g) _ (momentum_key_spec lr beta t m reg Hreg)).
  by apply momentum_layers_pre.
Qed.

Lemma adam_calls_NoDup lr beta1 beta2 eps t m reg (layers : list layer) lv ls h :
  shape_preserving reg → layers_ok h layers → adam_state_ok h layers lv ls →
  NoDup (call_obj <$> adam_calls lr beta1 beta2 eps t m reg layers lv ls h).
Proof.
  intros Hreg Hok Hst. unfold adam_calls.
  apply (run_calls_NoDup lr m reg _
           (λ k (e : ndarray A * ndarray A) (aux : dict (ndarray A) * dict (ndarray A)),
              (setitem aux.1 ("d" +:+ k) e.1, setitem aux.2 ("d" +:+ k) e.2))
           _ (λ (aux : dict (ndarray A) * dict (ndarray A)) ly, (aux.1, aux.2, ly))
           (Adam.update_key (Adam.Make lr beta1 beta2 eps None None) t m reg)
           _ (λ e g, (moment beta1 e.1 g, moment2 beta2 e.2 g)) _
           (adam_key_spec lr beta1 beta2 eps t m reg Hreg)).
  by apply adam_layers_pre.
Qed.

(** The optimizer after a call: same hyper-parameters, moments advanced. *)
Definition next_optimizer (o : optimizer A) (layers : list layer) h : optimizer A :=
  match o with
  | Plain g => Plain g
  | WithMomentum s =>
      WithMomentum
        (Momentum.Make (Momentum.lr s) (Momentum.beta s)
           (Some (momentum_state (Momentum.beta s) layers
                    (default [] (Momentum.layer_v s)) h)))
  | WithAdam s =>
      let st := adam_state (Adam.beta1 s) (Adam.beta2 s) layers
                  (default [] (Adam.layer_v s)) (default [] (Adam.layer_s s)) h in
      WithAdam (Adam.Make (Adam.lr s) (Adam.beta1 s) (Adam.beta2 s) (Adam.eps s)
                  (Some st.1) (Some st.2))
  end.

Lemma update_params_next o layers t m reg h c :
  layers_ok h layers → state_ok h layers o → shape_preserving reg →
  ∃ h' c',
    update_params o layers t m reg (Store h c) =
      Ok ((next_optimizer o layers h, layers), Store h' (c ++ c')) ∧
    (∀ l ly k r rg p g, param_at h layers l ly k r rg p g →
       h' !! r = Some (decay (learning_rate o) m reg k (gradient_update o t l k p g))) ∧
    (∀ r, r ∉ param_refs layers → h' !! r = h !! r) ∧
    same_shapes layers h h' ∧
    state_ok h layers (next_optimizer o layers h) ∧
    (∀ x, x ∈ c' ↔
       ∃ l ly k r rg p g,
         param_at h layers l ly k r rg p g ∧
         x ∈ decay_calls m reg k r (gradient_update o t l k p g)) ∧
    NoDup (call_obj <$> c').
Proof.
  intros Hok Hst Hreg.
  assert (∀ h', (∀ l ly k r rg p g, param_at h layers l ly k r rg p g →
                   h' !! r = Some (decay (learning_rate o) m reg k
                                     (gradient_update o t l k p g))) →
                (∀ r, r ∉ param_refs layers → h' !! r = h !! r) →
                same_shapes layers h h') as Hsame.
  { intros h' Hcells Hother. split.
    - intros r Hr.
      destruct (param_refs_param_at h layers r Hok Hr) as (l & ly & k & rg & p & g & Hat).
      rewrite (Hcells _ _ _ _ _ _ _ Hat). destruct Hat as (_ & _ & _ & -> & _). simpl.
      by rewrite decay_shape, gradient_update_shape.
    - intros r Hr. apply Hother. destruct Hok as (_ & Hsep & _). by apply Hsep. }
  destruct o as [g|s|s]; simpl in Hst.
  - exists (write_all (gd_writes g m reg layers h) h), (gd_calls g m reg layers h).
    assert (∀ l ly k r rg p g0, param_at h layers l ly k r rg p g0 →
              write_all (gd_writes g m reg layers h) h !! r =
                Some (decay (GradientDescent.lr g) m reg k
                        (gd_step (GradientDescent.lr g) p g0))) as Hcells.
    { intros. by eapply gd_lookup. }
    assert (∀ r, r ∉ param_refs layers →
              write_all (gd_writes g m reg layers h) h !! r = h !! r) as Hother.
    { intros r Hr. by apply gd_lookup_other. }
    split_and!; [|done|done|by apply Hsame|done| |].
    + unfold update_params, bind. by rewrite gd_update_params_spec.
    + intros x. by apply gd_calls_elem.
    + by apply gd_calls_NoDup.
  - destruct s as [lr beta olv]. destruct Hst as (lv & Hlv & Hst).
    simpl in Hlv. subst olv.
    exists (write_all (momentum_writes lr beta t m reg layers lv h) h),
      (momentum_calls lr beta t m reg layers lv h).
    assert (∀ l ly k r rg p g, param_at h layers l ly k r rg p g →
              write_all (momentum_writes lr beta t m reg layers lv h) h !! r =
                Some (decay lr m reg k
                        (momentum_step lr beta t (stored (Some lv) l k) p g))) as Hcells.
    { intros l ly k r rg p g Hat. pose proof Hat as (Hl & Hin & _ & Hp & _).
      destruct (Hst l ly Hl) as (v & Hv & Hentries).
      destruct (Hentries k r p Hin Hp) as (e & He & _).
      assert (velocity_at lv l k e) as Hvel by by exists v.
      rewrite (stored_velocity_at lv l k e Hvel). by eapply momentum_lookup. }
    assert (∀ r, r ∉ param_refs layers →
              write_all (momentum_writes lr beta t m reg layers lv h) h !! r = h !! r)
      as Hother.
    { intros r Hr. by apply momentum_lookup_other. }
    split_and!; [|done|done|by apply Hsame| | |].
    + unfold update_params, bind. by rewrite momentum_update_params_spec.
    + simpl. eexists. split; [done|].
      apply (momentum_state_ok_next lr beta t layers lv h h Hok Hst).
      * intros r p _ Hp. by exists p.
      * intros r p _ Hp. by exists p.
    + intros x. by apply momentum_calls_elem.
    + by apply momentum_calls_NoDup.
  - destruct s as [lr beta1 beta2 eps olv ols].
    destruct Hst as (lv & ls & Hlv & Hls & Hst). simpl in Hlv, Hls. subst olv ols.
    exists (write_all (adam_writes lr beta1 beta2 eps t m reg layers lv ls h) h),
      (adam_calls lr beta1 beta2 eps t m reg layers lv ls h).
    assert (∀ l ly k r rg p g, param_at h layers l ly k r rg p g →
              write_all (adam_writes lr beta1 beta2 eps t m reg layers lv ls h) h !! r =
                Some (decay lr m reg k
                        (adam_step lr beta1 beta2 eps t
                           (stored (Some lv) l k) (stored (Some ls) l k) p g))) as Hcells.
    { intros l ly k r rg p g Hat. pose proof Hat as (Hl & Hin & _ & Hp & _).
      destruct (Hst l ly Hl) as (v & s & Hv & Hs & Hentries).
      destruct (Hentries k r p Hin Hp) as (ev & es & Hev & Hes & _).
      assert (velocity_at lv l k ev) as Hvel by by exists v.
      assert (velocity_at ls l k es) as Hsq by by exists s.
      rewrite (stored_velocity_at lv l k ev Hvel), (stored_velocity_at ls l k es Hsq).
      by eapply adam_lookup. }
    assert (∀ r, r ∉ param_refs layers →
              write_all (adam_writes lr beta1 beta2 eps t m reg layers lv ls h) h !! r =
                h !! r) as Hother.
    { intros r Hr. by apply adam_lookup_other. }
    split_and!; [|done|done|by apply Hsame| | |].
    + unfold update_params, bind. by rewrite adam_update_params_spec.
    + simpl. eexists _, _. split_and!; [done..|].
      by apply (adam_state_ok_next lr beta1 beta2 eps t).
    + intros x. by apply adam_calls_elem.
    + by apply adam_calls_NoDup.
Qed.

Lemma state_ok_same_shapes layers h h' o :
  same_shapes layers h h' → state_ok h layers o → state_ok h' layers o.
Proof.
  intros Hsame. destruct o as [g|s|s]; simpl; [done| |].
  - intros (lv & Hlv & Hst). exists lv. split; [done|].
    by eapply momentum_state_ok_same_shapes.
  - intros (lv & ls & Hlv & Hls & Hst). exists lv, ls. split_and!; [done..|].
    by eapply adam_state_ok_same_shapes.
Qed.
End Contract.

(** X5: the layer contract and the initialized optimizer state are kept by
    [update_params], for every variant: whenever a call that started from
    them has returned, the layers are the same, every parameter still has
    its gradient of the same shape and its moment buffers of that shape, and
    the learning rate is what it was; what a call leaves is what the next
    call needs. *)
Theorem X5_update_params_keeps_contract `{Scalar A} (o o' : optimizer A)
    (layers layers' : list layer) (t : Z) (m : A) (reg : option (regularizer A))
    (h : gmap ref (ndarray A)) (c : list (call A)) (s' : store A) :
  layers_ok h layers → state_ok h layers o → shape_preserving reg →
  update_params o layers t m reg (Store h c) = Ok ((o', layers'), s') →
  layers' = layers ∧
  layers_ok (heap s') layers ∧ state_ok (heap s') layers o' ∧
  learning_rate o' = learning_rate o.
Proof.
  intros Hok Hst Hreg Hret.
  destruct (update_params_next o layers t m reg h c Hok Hst Hreg)
    as (h' & c' & Hrun & _ & _ & Hsame & Hst' & _).
  rewrite Hrun in Hret. injection Hret as <- <- <-. simpl.
  split_and!; [done| | |by destruct o].
  - by eapply layers_ok_same_shapes.
  - by eapply state_ok_same_shapes.
Qed.

Lemma X5_witness :
  let zeros := Some [[("dW", vector [0.0; 0.0]%float)]] in
  let o := WithAdam (Adam.Make 0.1%float 0.9%float 0.999%float 1e-8%float zeros zeros) in
  let h := W_heap (vector [1.0; 2.0]%float) (vector [0.1; 0.2]%float) in
  let reg := Some (l2 0.5%float) in
  ∃ o' s',
    update_params o [W_layer] 1 32%float reg (Store h []) = Ok ((o', [W_layer]), s') ∧
    layers_ok (heap s') [W_layer] ∧ state_ok (heap s') [W_layer] o' ∧
    learning_rate o' = learning_rate o.
Proof.
  intros zeros o h reg.
  assert (layers_ok h [W_layer]) as Hok by (apply W_layer_ok; reflexivity).
  assert (state_ok h [W_layer] o) as Hst
    by exact (W_layer_adam_ok 0.1%float 0.9%float 0.999%float 1e-8%float
                (vector [1.0; 2.0]%float) (vector [0.1; 0.2]%float)).
  eexists _, _.
  refine ((λ Hrun,
             conj Hrun
               (proj2 (X5_update_params_keeps_contract o _ [W_layer] _ 1 32%float reg
                         h [] _ Hok Hst (l2_shape_preserving _) Hrun))) _).
  reflexivity.
Defined.

(** ** The general step of Momentum and of Adam *)

Section Steps.
Context `{Scalar A}.
Implicit Types (v s p g : ndarray A).

(** [beta * v + (1 - beta) * g], element by element. *)
Definition average (beta : A) (xs ys : list A) : list A :=
  zip_with (λ a y, fadd (fmul beta a) (fmul (fsub fone beta) y)) xs ys.

Lemma moment_data beta v g :
  moment beta v g = NDArray (shape v) (average beta (data v) (data g)).
Proof.
  unfold moment, zip_arr, rmul, average. simpl.
  by rewrite zip_with_fmap_l, zip_with_fmap_r.
Qed.

Lemma moment2_data beta v g :
  moment2 beta v g =
    NDArray (shape v) (average beta (data v) ((λ y, fmul y y) <$> data g)).
Proof.
  unfold moment2, zip_arr, rmul, np_square, average. simpl.
  by rewrite zip_with_fmap_l, zip_with_fmap_r.
Qed.

Lemma momentum_step_data lr beta t v p g :
  momentum_step lr beta t v p g =
    NDArray (shape p)
      (zip_with (λ x a, fsub x (fmul lr (fdiv a (fsub fone (fpow beta t)))))
         (data p) (average beta (data v) (data g))).
Proof.
  unfold momentum_step, bias_corrected. rewrite moment_data.
  unfold zip_arr, rmul, truediv_scalar. simpl.
  by rewrite <-list_fmap_compose, zip_with_fmap_r.
Qed.

End Steps.

(** Over the reals [b ** t] is the power of the real numbers. *)
Lemma fpow_pow (b : R) (t : Z) : (0 ≤ t)%Z → fpow b t = (b ^ Z.to_nat t)%R.
Proof.
  intros Ht. unfold fpow. destruct (Z.ltb_spec t 0); [lia|].
  induction (Z.to_nat t) as [|n IH]; [done|]. simpl. by rewrite IH.
Qed.

(** X6 (exact arithmetic): one call of [Momentum.update_params] without a
    regularizer, at any step index [t >= 1] with [beta ** t <> 1] and from
    any velocities of the right shapes, replaces every velocity by
    [beta * v + (1 - beta) * grad] (the value that is stored is the average
    before the bias correction) and every parameter by
    [param - lr * (v_new / (1 - beta ** t))], element by element. *)
Theorem X6_momentum_step (lr beta m : R) (t : Z)
    (layers : list layer) (lv : list (dict (ndarray R)))
    (h : gmap ref (ndarray R)) (c : list (call R)) :
  layers_ok h layers → momentum_state_ok h layers lv →
  (1 ≤ t)%Z → (beta ^ Z.to_nat t)%R ≠ 1%R →
  ∃ lv' h',
    Momentum.update_params (Momentum.Make lr beta (Some lv)) layers t m None (Store h c) =
      Ok ((Momentum.Make lr beta (Some lv'), layers), Store h' c) ∧
    ∀ l ly k r rg p g v,
      param_at h layers l ly k r rg p g → velocity_at lv l k v →
      let v_new := zip_with (λ a y, beta * a + (1 - beta) * y)%R (data v) (data g) in
      velocity_at lv' l k (NDArray (shape v) v_new) ∧
      h' !! r =
        Some (NDArray (shape p)
                (zip_with (λ x a, x - lr * (a / (1 - beta ^ Z.to_nat t)))%R
                   (data p) v_new)).
Proof.
  intros Hok Hst Ht _.
  exists (momentum_state beta layers lv h),
    (write_all (momentum_writes lr beta t m None layers lv h) h).
  split.
  - rewrite momentum_update_params_spec; [|apply no_regularizer_shape_preserving|done..].
    by rewrite momentum_calls_nil, app_nil_r.
  - intros l ly k r rg p g v Hat Hv v_new. split.
    + pose proof (momentum_state_at lr beta t layers lv h l ly k r rg p g v
                    Hok Hst Hat Hv) as Hv'.
      rewrite moment_data in Hv'. exact Hv'.
    + rewrite (momentum_lookup lr beta t m None layers lv h l ly k r rg p g v);
        [|done..].
      rewrite decay_not_L2; [|done]. rewrite momentum_step_data.
      rewrite fpow_pow; [done|lia].
Qed.

Lemma X6_witness :
  let h := W_heap (vector [1; 2]%R) (vector [0.1; 0.2]%R) in
  let lv := [[("dW", vector [0.5; 0.25]%R)]] in
  ∃ lv' h',
    Momentum.update_params (Momentum.Make 0.1%R 0.9%R (Some lv)) [W_layer]
        3 32%R None (Store h []) =
      Ok ((Momentum.Make 0.1%R 0.9%R (Some lv'), [W_layer]), Store h' []) ∧
    ∀ l ly k r rg p g v,
      param_at h [W_layer] l ly k r rg p g → velocity_at lv l k v →
      let v_new := zip_with (λ a y, 0.9 * a + (1 - 0.9) * y)%R (data v) (data g) in
      velocity_at lv' l k (NDArray (shape v) v_new) ∧
      h' !! r =
        Some (NDArray (shape p)
                (zip_with (λ x a, x - 0.1 * (a / (1 - 0.9 ^ Z.to_nat 3)))%R
                   (data p) v_new)).
Proof.
  apply X6_momentum_step.
  - apply W_layer_ok. reflexivity.
  - intros l ly Hl. destruct l as [|l]; [|done]. injection Hl as <-.
    eexists. split; [reflexivity|].
    intros k r p Hin Hp. apply list_elem_of_singleton in Hin. injection Hin as -> ->.
    injection Hp as <-. eexists. split; reflexivity.
  - lia.
  - simpl. lra.
Defined.



(** ** What the regularizer is called with *)

(** In a list without two elements of the same key, the elements with the
    key of [x] are [x] alone. *)
Lemma filter_key_singleton {X Y} `{EqDecision Y} (f : X → Y) (l : list X) (x : X) :
  NoDup (f <$> l) → x ∈ l → filter (λ y, f y = f x) l = [x].
Proof.
  induction l as [|a l IH]; [by intros _ ?%elem_of_nil|].
  rewrite fmap_cons. intros [Ha Hnd]%NoDup_cons Hin.
  destruct (decide (f a = f x)) as [Heq|Hne].
  - assert (a = x) as ->.
    { apply elem_of_cons in Hin as [->|Hin]; [done|].
      exfalso. apply Ha. rewrite Heq. by apply list_elem_of_fmap_2. }
    rewrite filter_cons_True; [|done]. f_equal.
    clear IH Hin Hnd. induction l as [|b l IH]; [done|].
    rewrite fmap_cons in Ha. apply not_elem_of_cons in Ha as [Hb Ha].
    rewrite filter_cons_False; [by apply IH|]. by intros Heq'.
  - rewrite filter_cons_False; [|done]. apply IH; [done|].
    apply elem_of_cons in Hin as [->|Hin]; done.
Qed.

(** X8: under an L2 regularizer, for every optimizer variant, the calls
    that one [update_params] makes to [compute_term_delta] are exactly one
    call per parameter with key "W", and no other call: every call has as
    its first argument the array object of such a parameter, holding at the
    time of the call the value that the gradient step has just written, and
    as its second argument [m] as passed to [update_params]; the calls on
    the array of such a parameter are that one call; and the parameter ends
    at that value minus [lr] times the result of the call. *)
Theorem X8_regularizer_calls `{Scalar A} (o : optimizer A)
    (layers : list layer) (t : Z) (m : A) (f : ndarray A → A → ndarray A)
    (h : gmap ref (ndarray A)) (c : list (call A)) :
  layers_ok h layers → state_ok h layers o → shape_preserving (Some (L2 f)) →
  ∃ o' h' c',
    update_params o layers t m (Some (L2 f)) (Store h c) =
      Ok ((o', layers), Store h' (c ++ c')) ∧
    (∀ x, x ∈ c' →
       ∃ l ly r rg p g,
         param_at h layers l ly "W" r rg p g ∧
         x = Call r (gradient_update o t l "W" p g) m) ∧
    (∀ l ly r rg p g, param_at h layers l ly "W" r rg p g →
       let u := gradient_update o t l "W" p g in
       filter (λ x, call_obj x = r) c' = [Call r u m] ∧
       h' !! r = Some (zip_arr fsub u (rmul (learning_rate o) (f u m)))).
Proof.
  intros Hok Hst Hreg.
  destruct (update_params_next o layers t m (Some (L2 f)) h c Hok Hst Hreg)
    as (h' & c' & Hrun & Hcells & _ & _ & _ & Hcalls & Hnd).
  exists (next_optimizer o layers h), h', c'. split_and!; [done| |].
  - intros x Hx. apply Hcalls in Hx as (l & ly & k & r & rg & p & g & Hat & Hx).
    unfold decay_calls in Hx.
    destruct (String.eqb_spec k "W") as [->|_]; [|by apply elem_of_nil in Hx].
    apply list_elem_of_singleton in Hx. by exists l, ly, r, rg, p, g.
  - intros l ly r rg p g Hat u. split.
    + apply (filter_key_singleton call_obj c' (Call r u m) Hnd).
      apply Hcalls. exists l, ly, "W", r, rg, p, g. split; [done|].
      apply list_elem_of_singleton. done.
    + by rewrite (Hcells l ly "W" r rg p g Hat).
Qed.

Lemma X8_witness :
  let o := WithMomentum (Momentum.Make 0.1%float 0.9%float
                           (Some [[("dW", vector [0.0; 0.0]%float)]])) in
  let h := W_heap (vector [1.0; 2.0]%float) (vector [0.1; 0.2]%float) in
  let f := λ (w : ndarray float) (m : float), rmul (fdiv 0.5%float m) w in
  ∃ o' h' c',
    update_params o [W_layer] 1 32%float (Some (L2 f)) (Store h []) =
      Ok ((o', [W_layer]), Store h' ([] ++ c')) ∧
    (∀ x, x ∈ c' →
       ∃ l ly r rg p g,
         param_at h [W_layer] l ly "W" r rg p g ∧
         x = Call r (gradient_update o 1 l "W" p g) 32%float) ∧
    (∀ l ly r rg p g, param_at h [W_layer] l ly "W" r rg p g →
       let u := gradient_update o 1 l "W" p g in
       filter (λ x, call_obj x = r) c' = [Call r u 32%float] ∧
       h' !! r = Some (zip_arr fsub u (rmul (learning_rate o) (f u 32%float)))).
Proof.
  apply X8_regularizer_calls.
  - apply W_layer_ok. reflexivity.
  - exact (W_layer_momentum_ok 0.1%float 0.9%float
             (vector [1.0; 2.0]%float) (vector [0.1; 0.2]%float)).
  - apply l2_shape_preserving.
Defined.

(** ** [init_params] as a reset *)

Section Reset.
Context `{Scalar A}.
Implicit Types (h : gmap ref (ndarray A)).

Lemma params_ok_same_shapes (layers : list layer) h h' :
  same_shapes layers h h' → params_ok h layers → params_ok h' layers.
Proof.
  intros [Hp _] Hok ly Hin. destruct (Hok ly Hin) as [Hk Hlive]. split; [done|].
  intros k r Hkr. destruct (Hlive k r Hkr) as [p Hpr].
  specialize (Hp r (param_in_refs layers ly k r Hin Hkr)). rewrite Hpr in Hp.
  destruct (h' !! r) as [p'|]; [by exists p'|done].
Qed.

Lemma zeros_dict_same_shapes (layers : list layer) h h' :
  same_shapes layers h h' → zeros_dict h' <$> layers = zeros_dict h <$> layers.
Proof.
  intros [Hp _]. apply list_fmap_ext. intros i ly Hi. unfold zeros_dict.
  apply list_fmap_ext. intros j [k r] Hj. simpl. do 2 f_equal.
  assert (r ∈ param_refs layers) as Hr.
  { eapply param_in_refs; by eapply list_elem_of_lookup_2. }
  specialize (Hp r Hr). rewrite !lookup_total_alt.
  destruct (h' !! r) as [p'|], (h !! r) as [p|]; simpl in *; congruence.
Qed.
End Reset.

(** X9: [init_params] looks only at the shapes of the parameter arrays and
    replaces the moment buffers altogether.  Called again after an
    [update_params], it leaves the optimizer exactly as [init_params] left
    it before the first update: the accumulated moments are discarded, for
    Momentum and for Adam, and the arrays are not touched. *)
Theorem X9_init_params_resets `{Scalar A} (mo : Momentum.optimizer A)
    (ad : Adam.optimizer A) (layers : list layer) (t : Z) (m : A)
    (reg : option (regularizer A)) (h : gmap ref (ndarray A)) (c : list (call A)) :
  layers_ok h layers → shape_preserving reg →
  (∃ o0 o1 s1,
     Momentum.init_params mo layers (Store h c) = Ok (o0, Store h c) ∧
     Momentum.update_params o0 layers t m reg (Store h c) = Ok ((o1, layers), s1) ∧
     Momentum.init_params o1 layers s1 = Ok (o0, s1)) ∧
  (∃ o0 o1 s1,
     Adam.init_params ad layers (Store h c) = Ok (o0, Store h c) ∧
     Adam.update_params o0 layers t m reg (Store h c) = Ok ((o1, layers), s1) ∧
     Adam.init_params o1 layers s1 = Ok (o0, s1)).
Proof.
  intros Hok Hreg.
  pose proof (layers_ok_params_ok _ _ Hok) as Hpok.
  set (lv := zeros_dict h <$> layers).
  split.
  - destruct (update_params_next
                (WithMomentum (Momentum.Make (Momentum.lr mo) (Momentum.beta mo) (Some lv)))
                layers t m reg h c Hok) as (h' & c' & Hrun & _ & _ & Hsame & _);
      [|done|].
    { eexists. split; [done|]. by apply zeros_momentum_state_ok. }
    simpl in Hrun. unfold bind in Hrun.
    destruct (Momentum.update_params _ layers t m reg (Store h c))
      as [[[o1 ls] s1]|] eqn:Hupd; [|done].
    unfold ret in Hrun. injection Hrun as -> -> ->.
    eexists (Momentum.Make (Momentum.lr mo) (Momentum.beta mo) (Some lv)), _,
      (Store h' (c ++ c')).
    split_and!; [by apply momentum_init_params_spec|exact Hupd|].
    rewrite momentum_init_params_spec; [|by eapply params_ok_same_shapes].
    by rewrite (zeros_dict_same_shapes layers h h' Hsame).
  - destruct (update_params_next
                (WithAdam (Adam.Make (Adam.lr ad) (Adam.beta1 ad) (Adam.beta2 ad)
                             (Adam.eps ad) (Some lv) (Some lv)))
                layers t m reg h c Hok) as (h' & c' & Hrun & _ & _ & Hsame & _);
      [|done|].
    { eexists _, _. split_and!; [done..|]. by apply zeros_adam_state_ok. }
    simpl in Hrun. unfold bind in Hrun.
    destruct (Adam.update_params _ layers t m reg (Store h c))
      as [[[o1 ls] s1]|] eqn:Hupd; [|done].
    unfold ret in Hrun. injection Hrun as -> -> ->.
    eexists (Adam.Make (Adam.lr ad) (Adam.beta1 ad) (Adam.beta2 ad) (Adam.eps ad)
               (Some lv) (Some lv)), _, (Store h' (c ++ c')).
    split_and!; [by apply adam_init_params_spec|exact Hupd|].
    rewrite adam_init_params_spec; [|by eapply params_ok_same_shapes].
    by rewrite (zeros_dict_same_shapes layers h h' Hsame).
Qed.

Lemma X9_witness :
  let h := W_heap (vector [1.0; 2.0]%float) (vector [0.1; 0.2]%float) in
  let mo := Momentum.new 0.1%float 0.9%float in
  let ad := Adam.new 0.1%float 0.9%float 0.999%float 1e-8%float in
  let reg := Some (l2 0.5%float) in
  (∃ o0 o1 s1,
     Momentum.init_params mo [W_layer] (Store h []) = Ok (o0, Store h []) ∧
     Momentum.update_params o0 [W_layer] 1 32%float reg (Store h []) =
       Ok ((o1, [W_layer]), s1) ∧
     Momentum.init_params o1 [W_layer] s1 = Ok (o0, s1)) ∧
  (∃ o0 o1 s1,
     Adam.init_params ad [W_layer] (Store h []) = Ok (o0, Store h []) ∧
     Adam.update_params o0 [W_layer] 1 32%float reg (Store h []) =
       Ok ((o1, [W_layer]), s1) ∧
     Adam.init_params o1 [W_layer] s1 = Ok (o0, s1)).
Proof.
  apply X9_init_params_resets.
  - apply W_layer_ok. reflexivity.
  - apply l2_shape_preserving.
Defined.

(** ** A weight array shared by several layers *)

Section Sharing.
Context `{Scalar A}.
Implicit Types (h : gmap ref (ndarray A)) (c : list (call A)).

(** Layers whose parameter "W" is one and the same array object [r]; each
    layer has a gradient array of its own. *)
Definition tied (r : ref) (rgs : list ref) : list layer :=
  (λ rg, Layer [("W", r)] [("dW", rg)]) <$> rgs.

Lemma gd_tied_loop (lr m : A) (r : ref) (rgs : list ref) (gs : list (ndarray A))
    (p : ndarray A) h c (done : list layer) :
  r ∉ rgs → h !! r = Some p →
  Forall2 (λ rg g, h !! rg = Some g ∧ shape g = shape p) rgs gs →
  for_each (tied r rgs)
    (λ ly done,
       let* ly' := GradientDescent.update_layer (GradientDescent.Make lr) m None ly in
       ret (done ++ [ly']))
    done (Store h c) =
  Ok (done ++ tied r rgs,
      Store (<[r := foldl (λ w g, zip_arr fsub w (rmul lr g)) p gs]> h) c).
Proof.
  intros Hr Hp Hgs. revert p h done Hp Hgs Hr.
  revert gs. induction rgs as [|rg rgs IH]; intros gs p h done Hp Hgs Hr.
  - apply Forall2_nil_inv_l in Hgs as ->. simpl. unfold ret.
    by rewrite app_nil_r, insert_id.
  - apply Forall2_cons_inv_l in Hgs as (g & gs' & [Hg Hs] & Hgs & ->).
    apply not_elem_of_cons in Hr as [Hne Hr].
    cbn [tied fmap list_fmap for_each]. unfold bind at 1.
    unfold bind at 1. unfold GradientDescent.update_layer. cbn [keys params fmap list_fmap fst for_each].
    unfold bind at 1.
    rewrite (gd_key_spec (GradientDescent.Make lr) m None
               no_regularizer_shape_preserving "W" _ tt tt (Store h c) r rg p g);
      [|done|done|done|done|done|by symmetry].
    rewrite decay_not_L2, decay_calls_nil, app_nil_r; [|done..].
    unfold ret at 1 2. cbn [heap calls].
    fold (tied r rgs).
    rewrite (IH gs' (gd_step lr p g)).
    + rewrite insert_insert_eq, <-(assoc_L (++)). done.
    + by rewrite lookup_insert_eq.
    + apply Forall2_same_length_lookup. split; [by eapply Forall2_length|].
      intros i rg' g' Hrg' Hg'.
      destruct (Forall2_lookup_lr _ _ _ i rg' g' Hgs Hrg' Hg') as [Hl Hsh].
      split; [|done]. rewrite lookup_insert_ne; [done|].
      intros <-. apply Hr. by eapply list_elem_of_lookup_2.
    + done.
Qed.
End Sharing.

(** X10: a parameter array that several layers share is stepped once for
    every layer that holds it.  For layers that all have the same array
    object as "W" and gradient arrays of their own, one call of
    [GradientDescent.update_params] without a regularizer subtracts [lr]
    times each layer's gradient from that one array, in the order of the
    layers, and touches nothing else. *)
Theorem X10_shared_parameter_stepped_per_layer `{Scalar A} (lr m : A)
    (r : ref) (rgs : list ref) (gs : list (ndarray A)) (p : ndarray A)
    (h : gmap ref (ndarray A)) (c : list (call A)) :
  r ∉ rgs → h !! r = Some p →
  Forall2 (λ rg g, h !! rg = Some g ∧ shape g = shape p) rgs gs →
  GradientDescent.update_params (GradientDescent.Make lr) (tied r rgs) m None (Store h c) =
    Ok (tied r rgs,
        Store (<[r := foldl (λ w g, zip_arr fsub w (rmul lr g)) p gs]> h) c).
Proof.
  intros Hr Hp Hgs. unfold GradientDescent.update_params.
  by rewrite (gd_tied_loop lr m r rgs gs p h c []).
Qed.

Lemma X10_witness :
  let h : gmap ref (ndarray float) :=
    <[0 := vector [1.0; 2.0]%float]>
      (<[1 := vector [0.5; 0.5]%float]> (<[2 := vector [0.25; 1.0]%float]> ∅)) in
  ∃ h',
    GradientDescent.update_params (GradientDescent.Make 2.0%float) (tied 0 [1; 2])
        32%float None (Store h []) =
      Ok (tied 0 [1; 2], Store h' []) ∧
    h' !! 0 = Some (vector [(-0.5)%float; (-1.0)%float]).
Proof.
  intros h. eexists. split.
  - apply (X10_shared_parameter_stepped_per_layer 2.0%float 32%float 0 [1; 2]
             [vector [0.5; 0.5]%float; vector [0.25; 1.0]%float]
             (vector [1.0; 2.0]%float)).
    + intros Hin. apply list_elem_of_In in Hin. simpl in Hin.
      destruct Hin as [Heq|[Heq|[]]]; discriminate Heq.
    + reflexivity.
    + repeat constructor.
  - reflexivity.
Defined.

(** ** Successive calls *)

Lemma gd_step_twice (lr1 lr2 : R) (p g : ndarray R) :
  gd_step lr2 (gd_step lr1 p g) g = gd_step (lr1 + lr2)%R p g.
Proof.
  unfold gd_step. rewrite !zip_arr_rmul. simpl. f_equal.
  generalize (data g). generalize (data p).
  induction l as [|x xs IH]; intros [|y ys]; simpl; try done.
  rewrite IH. f_equal. lra.
Qed.

Lemma param_at_same_shapes `{Scalar A} (layers : list layer)
    (h h' : gmap ref (ndarray A)) l ly k r rg p g p' :
  layers_ok h layers → (∀ r, r ∉ param_refs layers → h' !! r = h !! r) →
  param_at h layers l ly k r rg p g → h' !! r = Some p' →
  param_at h' layers l ly k r rg p' g.
Proof.
  intros Hok Hother Hat Hp'.
  destruct (param_at_refs _ _ _ _ _ _ _ _ _ Hat) as [_ Hrg].
  destruct Hat as (Hl & Hin & Hg & Hp & Hgr). split_and!; try done.
  rewrite Hother; [done|]. destruct Hok as (_ & Hsep & _). by apply Hsep.
Qed.

(** X11 (exact arithmetic): steps of plain gradient descent add up.  With
    the gradients left as they are and no regularizer, a call with learning
    rate [lr1] followed by a call with learning rate [lr2] leaves every
    array as one call with learning rate [lr1 + lr2] does. *)
Theorem X11_gradient_descent_steps_add (lr1 lr2 m : R) (layers : list layer)
    (h : gmap ref (ndarray R)) (c : list (call R)) :
  layers_ok h layers →
  ∃ h1 h2,
    GradientDescent.update_params (GradientDescent.Make lr1) layers m None (Store h c) =
      Ok (layers, Store h1 c) ∧
    GradientDescent.update_params (GradientDescent.Make lr2) layers m None (Store h1 c) =
      Ok (layers, Store h2 c) ∧
    GradientDescent.update_params (GradientDescent.Make (lr1 + lr2)%R) layers m None
        (Store h c) =
      Ok (layers, Store h2 c).
Proof.
  intros Hok.
  pose proof (no_regularizer_shape_preserving (A := R)) as Hreg.
  set (run := λ lr h, write_all (gd_writes (GradientDescent.Make lr) m None layers h) h).
  assert (∀ lr h0, layers_ok h0 layers →
            GradientDescent.update_params (GradientDescent.Make lr) layers m None
              (Store h0 c) = Ok (layers, Store (run lr h0) c)) as Hrun.
  { intros lr h0 Hok0. rewrite (gd_update_params_spec _ _ _ Hreg); [|done].
    by rewrite gd_calls_nil, app_nil_r. }
  assert (∀ lr h0 l ly k r rg p g, layers_ok h0 layers →
            param_at h0 layers l ly k r rg p g →
            run lr h0 !! r = Some (gd_step lr p g)) as Hcell.
  { intros lr h0 l ly k r rg p g Hok0 Hat. unfold run.
    rewrite (gd_lookup _ m None layers h0 l ly k r rg p g Hok0 Hat).
    by rewrite decay_not_L2. }
  assert (∀ lr h0 r, layers_ok h0 layers → r ∉ param_refs layers →
            run lr h0 !! r = h0 !! r) as Hother.
  { intros lr h0 r Hok0 Hr. by apply gd_lookup_other. }
  assert (layers_ok (run lr1 h) layers) as Hok1.
  { apply (layers_ok_same_shapes layers h); [|done]. split.
    - intros r Hr.
      destruct (param_refs_param_at h layers r Hok Hr) as (l & ly & k & rg & p & g & Hat).
      rewrite (Hcell lr1 h l ly k r rg p g Hok Hat).
      by destruct Hat as (_ & _ & _ & -> & _).
    - intros r Hr. apply Hother; [done|]. destruct Hok as (_ & Hsep & _). by apply Hsep. }
  exists (run lr1 h), (run lr2 (run lr1 h)). split_and!; [by apply Hrun..|].
  rewrite Hrun; [|done]. do 3 f_equal.
  apply map_eq. intros r. destruct (decide (r ∈ param_refs layers)) as [Hr|Hr].
  - destruct (param_refs_param_at h layers r Hok Hr) as (l & ly & k & rg & p & g & Hat).
    rewrite (Hcell (lr1 + lr2)%R h l ly k r rg p g Hok Hat).
    rewrite (Hcell lr2 (run lr1 h) l ly k r rg (gd_step lr1 p g) g Hok1).
    + by rewrite gd_step_twice.
    + apply (param_at_same_shapes layers h (run lr1 h) l ly k r rg p g);
        [done| |done|by eapply Hcell].
      intros r' Hr'. by apply Hother.
  - rewrite !Hother; done.
Qed.

Lemma X11_witness :
  let h := W_heap (vector [1; 2]%R) (vector [0.1; 0.2]%R) in
  ∃ h1 h2,
    GradientDescent.update_params (GradientDescent.Make 0.1%R) [W_layer] 32%R None
        (Store h []) =
      Ok ([W_layer], Store h1 []) ∧
    GradientDescent.update_params (GradientDescent.Make 0.25%R) [W_layer] 32%R None
        (Store h1 []) =
      Ok ([W_layer], Store h2 []) ∧
    GradientDescent.update_params (GradientDescent.Make (0.1 + 0.25)%R) [W_layer] 32%R None
        (Store h []) =
      Ok ([W_layer], Store h2 []).
Proof.
  apply X11_gradient_descent_steps_add.
  apply W_layer_ok. reflexivity.
Defined.

(** ** Exact arithmetic: degenerate hyper-parameters and bounds *)

Section Exact.
Implicit Types (v s p g : ndarray R) (h : gmap ref (ndarray R)).

Lemma power_0 (n : nat) : (0 < n)%nat → power 0%R n = 0%R.
Proof. destruct n as [|n]; [lia|]. intros _. simpl. lra. Qed.

Lemma fpow_0 (t : Z) : (1 ≤ t)%Z → fpow 0%R t = 0%R.
Proof.
  intros Ht. unfold fpow. destruct (Z.ltb_spec t 0); [lia|].
  apply power_0. lia.
Qed.

Lemma power_bounds (b : R) (n : nat) : (0 <= b <= 1)%R → (0 <= power b n <= 1)%R.
Proof.
  intros Hb. induction n as [|n IH]; simpl; [lra|]. nra.
Qed.

Lemma fpow_lt_1 (b : R) (t : Z) : (0 <= b < 1)%R → (1 ≤ t)%Z → (0 <= fpow b t < 1)%R.
Proof.
  intros Hb Ht. unfold fpow. destruct (Z.ltb_spec t 0); [lia|].
  destruct (Z.to_nat t) as [|n] eqn:Hn; [lia|]. simpl.
  pose proof (power_bounds b n). nra.
Qed.

Lemma average_0 (xs ys : list R) :
  length xs = length ys → average 0%R xs ys = ys.
Proof.
  revert ys. induction xs as [|x xs IH]; intros [|y ys] Hlen; try done.
  unfold average in *. simpl. rewrite IH; [|by injection Hlen]. f_equal. lra.
Qed.

Lemma momentum_step_beta_0 lr t v p g :
  (1 ≤ t)%Z → well_formed v → well_formed g → shape v = shape g →
  momentum_step lr 0%R t v p g = gd_step lr p g ∧ moment 0%R v g = g.
Proof.
  intros Ht Hv Hg Hs.
  assert (average 0%R (data v) (data g) = data g) as Havg.
  { apply average_0. unfold well_formed in *. congruence. }
  split.
  - rewrite momentum_step_data, Havg. unfold gd_step. rewrite zip_arr_rmul.
    f_equal. apply zip_with_ext; [|done..]. intros x y. simpl.
    rewrite fpow_0; [|done]. lra.
  - rewrite moment_data, Havg, Hs. by destruct g.
Qed.
End Exact.

(** X12 (exact arithmetic): with [beta = 0] Momentum is plain gradient
    descent at every step index [t >= 1] and from any velocities: a call
    leaves the parameters as [GradientDescent.update_params] with the same
    learning rate and regularizer does, and stores the gradient itself as
    the new velocity. *)
Theorem X12_momentum_beta_zero_is_plain (lr m : R) (t : Z)
    (reg : option (regularizer R)) (layers : list layer)
    (lv : list (dict (ndarray R))) (h : gmap ref (ndarray R)) (c : list (call R)) :
  layers_ok h layers → momentum_state_ok h layers lv → shape_preserving reg →
  arrays_well_formed h →
  (∀ l ly k r rg p g v, param_at h layers l ly k r rg p g → velocity_at lv l k v →
     well_formed v) →
  (1 ≤ t)%Z →
  ∃ lv' h' c1 c2,
    Momentum.update_params (Momentum.Make lr 0%R (Some lv)) layers t m reg (Store h c) =
      Ok ((Momentum.Make lr 0%R (Some lv'), layers), Store h' c1) ∧
    GradientDescent.update_params (GradientDescent.Make lr) layers m reg (Store h c) =
      Ok (layers, Store h' c2) ∧
    ∀ l ly k r rg p g, param_at h layers l ly k r rg p g → velocity_at lv' l k g.
Proof.
  intros Hok Hst Hreg Hwf Hvwf Ht.
  assert (∀ l ly k r rg p g, param_at h layers l ly k r rg p g →
            ∃ v, velocity_at lv l k v ∧
                 momentum_step lr 0%R t v p g = gd_step lr p g ∧ moment 0%R v g = g)
    as Hcell.
  { intros l ly k r rg p g Hat. pose proof Hat as (Hl & Hin & _ & Hp & Hg).
    destruct (Hst l ly Hl) as (d & Hd & Hentries).
    destruct (Hentries k r p Hin Hp) as (v & Hv & Hsv).
    assert (velocity_at lv l k v) as Hvel by by exists d.
    exists v. split; [done|]. apply momentum_step_beta_0; [done| | |].
    - by eapply Hvwf.
    - by eapply Hwf.
    - rewrite Hsv. by eapply param_at_shape. }
  eexists (momentum_state 0%R layers lv h),
    (write_all (momentum_writes lr 0%R t m reg layers lv h) h), _, _.
  split_and!.
  - by rewrite momentum_update_params_spec.
  - rewrite (gd_update_params_spec _ _ _ Hreg); [|done]. do 3 f_equal.
    apply map_eq. intros r. destruct (decide (r ∈ param_refs layers)) as [Hr|Hr].
    + destruct (param_refs_param_at h layers r Hok Hr) as (l & ly & k & rg & p & g & Hat).
      destruct (Hcell _ _ _ _ _ _ _ Hat) as (v & Hv & Hstep & _).
      rewrite (gd_lookup _ m reg layers h l ly k r rg p g Hok Hat).
      rewrite (momentum_lookup lr 0%R t m reg layers lv h l ly k r rg p g v
                 Hok Hst Hat Hv).
      simpl. by rewrite Hstep.
    + rewrite gd_lookup_other, momentum_lookup_other; done.
  - intros l ly k r rg p g Hat.
    destruct (Hcell _ _ _ _ _ _ _ Hat) as (v & Hv & _ & Hm).
    pose proof (momentum_state_at lr 0%R t layers lv h l ly k r rg p g v
                  Hok Hst Hat Hv) as Hv'.
    by rewrite Hm in Hv'.
Qed.

Lemma zeros_velocity_well_formed `{Scalar A} (h : gmap ref (ndarray A))
    (layers : list layer) (l : nat) (k : string) (v : ndarray A) :
  velocity_at (zeros_dict h <$> layers) l k v → well_formed v.
Proof.
  intros (d & Hd & Hv). rewrite list_lookup_fmap in Hd.
  destruct (layers !! l) as [ly|]; [|done]. injection Hd as <-.
  apply getitem_elem_of in Hv. unfold zeros_dict in Hv.
  apply list_elem_of_fmap in Hv as ([k' r] & [= _ ->] & _).
  apply np_zeros_well_formed.
Qed.

Lemma X12_witness :
  let h := W_heap (vector [1; 2]%R) (vector [0.1; 0.2]%R) in
  let lv := zeros_dict h <$> [W_layer] in
  ∃ lv' h' c1 c2,
    Momentum.update_params (Momentum.Make 0.1%R 0%R (Some lv)) [W_layer] 5 32%R None
        (Store h []) =
      Ok ((Momentum.Make 0.1%R 0%R (Some lv'), [W_layer]), Store h' c1) ∧
    GradientDescent.update_params (GradientDescent.Make 0.1%R) [W_layer] 32%R None
        (Store h []) =
      Ok ([W_layer], Store h' c2) ∧
    ∀ l ly k r rg p g, param_at h [W_layer] l ly k r rg p g → velocity_at lv' l k g.
Proof.
  intros h lv. apply X12_momentum_beta_zero_is_plain.
  - apply W_layer_ok. reflexivity.
  - apply zeros_momentum_state_ok, layers_ok_params_ok, W_layer_ok. reflexivity.
  - apply no_regularizer_shape_preserving.
  - apply W_heap_well_formed; reflexivity.
  - intros l ly k r rg p g v _ Hv. by eapply zeros_velocity_well_formed.
  - lia.
Defined.

Section ExactAdam.
Implicit Types (v s p g : ndarray R) (h : gmap ref (ndarray R)).

(** All elements are non-negative. *)
Definition nonneg (a : ndarray R) : Prop := Forall (λ x, (0 <= x)%R) (data a).

Lemma nonneg_zeros (sh : list nat) : nonneg (np_zeros sh).
Proof.
  unfold nonneg. simpl. apply Forall_forall.
  intros x ->%elem_of_replicate_inv. simpl. lra.
Qed.

Lemma nonneg_moment2 beta2 s g :
  (0 <= beta2 <= 1)%R → nonneg s → nonneg (moment2 beta2 s g).
Proof.
  intros Hb Hs. rewrite moment2_data. unfold nonneg in *. simpl.
  unfold average. revert Hs. generalize (data g). generalize (data s).
  induction l as [|a l IH]; intros [|y ys] Hs; simpl; try by constructor.
  apply Forall_cons in Hs as [Ha Hl]. constructor; [|by apply IH].
  simpl. pose proof (Rle_0_sqr y). unfold Rsqr in *. nra.
Qed.

Lemma nonneg_bias_corrected beta2 t s :
  (0 <= beta2 < 1)%R → (1 ≤ t)%Z → nonneg s → nonneg (bias_corrected beta2 t s).
Proof.
  intros Hb Ht Hs. unfold nonneg, bias_corrected, truediv_scalar in *. simpl.
  apply Forall_fmap. eapply Forall_impl; [exact Hs|]. intros x Hx. simpl.
  pose proof (fpow_lt_1 beta2 t Hb Ht).
  apply Rmult_le_pos; [done|]. apply Rlt_le, Rinv_0_lt_compat. lra.
Qed.

Lemma zeros_velocity_nonneg h (layers : list layer) (l : nat) (k : string) s :
  velocity_at (zeros_dict h <$> layers) l k s → nonneg s.
Proof.
  intros (d & Hd & Hs). rewrite list_lookup_fmap in Hd.
  destruct (layers !! l) as [ly|]; [|done]. injection Hd as <-.
  apply getitem_elem_of in Hs. unfold zeros_dict in Hs.
  apply list_elem_of_fmap in Hs as ([k' r'] & [= _ ->] & _).
  apply nonneg_zeros.
Qed.
End ExactAdam.

(** X13 (exact arithmetic): Adam keeps its second moment non-negative.  When
    [0 <= beta2 < 1], [t >= 1] and the stored second moments have no
    negative element (as after [init_params]), a call of [update_params]
    stores second moments without a negative element, and the array
    [s_corrected] that [np.sqrt] is applied to has none either. *)
Theorem X13_adam_second_moment_nonneg (lr beta1 beta2 eps m : R) (t : Z)
    (reg : option (regularizer R)) (layers : list layer)
    (lv ls : list (dict (ndarray R))) (h : gmap ref (ndarray R)) (c : list (call R)) :
  layers_ok h layers → adam_state_ok h layers lv ls → shape_preserving reg →
  (0 <= beta2 < 1)%R → (1 ≤ t)%Z →
  (∀ l ly k r rg p g s, param_at h layers l ly k r rg p g → velocity_at ls l k s →
     nonneg s) →
  ∃ lv' ls' s',
    Adam.update_params (Adam.Make lr beta1 beta2 eps (Some lv) (Some ls)) layers t m reg
        (Store h c) =
      Ok ((Adam.Make lr beta1 beta2 eps (Some lv') (Some ls'), layers), s') ∧
    ∀ l ly k r rg p g, param_at h layers l ly k r rg p g →
      ∃ s_new, velocity_at ls' l k s_new ∧ nonneg s_new ∧
               nonneg (truediv_scalar s_new (1 - fpow beta2 t)%R).
Proof.
  intros Hok Hst Hreg Hb Ht Hpos.
  eexists (adam_state beta1 beta2 layers lv ls h).1,
    (adam_state beta1 beta2 layers lv ls h).2, _.
  split; [by rewrite adam_update_params_spec|].
  intros l ly k r rg p g Hat. pose proof Hat as (Hl & Hin & _ & Hp & _).
  destruct (Hst l ly Hl) as (dv & ds & Hdv & Hds & Hentries).
  destruct (Hentries k r p Hin Hp) as (ev & es & Hev & Hes & _).
  assert (velocity_at lv l k ev) as Hvel by by exists dv.
  assert (velocity_at ls l k es) as Hsq by by exists ds.
  destruct (adam_state_at lr beta1 beta2 eps t layers lv ls h l ly k r rg p g ev es)
    as [_ Hs']; [done..|].
  assert (nonneg (moment2 beta2 es g)) as Hnew.
  { apply nonneg_moment2; [lra|]. by eapply Hpos. }
  exists (moment2 beta2 es g). split_and!; [done|done|].
  by apply (nonneg_bias_corrected beta2 t).
Qed.

Lemma X13_witness :
  let h := W_heap (vector [1; 2]%R) (vector [0.1; 0.2]%R) in
  let lv := zeros_dict h <$> [W_layer] in
  ∃ lv' ls' s',
    Adam.update_params (Adam.Make 0.1 0.9 0.999 1e-8 (Some lv) (Some lv))%R [W_layer]
        1 32%R None (Store h []) =
      Ok ((Adam.Make 0.1 0.9 0.999 1e-8 (Some lv') (Some ls'))%R, [W_layer], s') ∧
    ∀ l ly k r rg p g, param_at h [W_layer] l ly k r rg p g →
      ∃ s_new, velocity_at ls' l k s_new ∧ nonneg s_new ∧
               nonneg (truediv_scalar s_new (1 - fpow 0.999 1)%R).
Proof.
  intros h lv. apply X13_adam_second_moment_nonneg.
  - apply W_layer_ok. reflexivity.
  - apply zeros_adam_state_ok, layers_ok_params_ok, W_layer_ok. reflexivity.
  - apply no_regularizer_shape_preserving.
  - lra.
  - lia.
  - intros l ly k r rg p g s _ Hs. by eapply zeros_velocity_nonneg.
Defined.

(** X14 (exact arithmetic): the first step of Adam moves no parameter element
    by [lr] or more, however large the gradient: from freshly initialized
    moments, with [lr > 0], [eps > 0] and no regularizer, every element of
    every parameter array changes by less than [lr]. *)
Theorem X14_adam_first_step_bounded (lr beta1 beta2 eps m : R) (layers : list layer)
    (h : gmap ref (ndarray R)) (c : list (call R)) :
  layers_ok h layers → arrays_well_formed h → beta1 ≠ 1%R → beta2 ≠ 1%R →
  (0 < lr)%R → (0 < eps)%R →
  ∃ o1 o2 h',
    Adam.init_params (Adam.new lr beta1 beta2 eps) layers (Store h c) =
      Ok (o1, Store h c) ∧
    Adam.update_params o1 layers 1 m None (Store h c) = Ok ((o2, layers), Store h' c) ∧
    ∀ l ly k r rg p g, param_at h layers l ly k r rg p g →
      ∃ p', h' !! r = Some p' ∧ shape p' = shape p ∧
            length (data p') = length (data p) ∧
            ∀ i x x', data p !! i = Some x → data p' !! i = Some x' →
                      (Rabs (x' - x) < lr)%R.
Proof.
  intros Hok Hwf Hb1 Hb2 Hlr Heps.
  pose proof (layers_ok_params_ok _ _ Hok) as Hpok.
  pose proof (zeros_adam_state_ok h layers Hpok) as Hst.
  set (lv := zeros_dict h <$> layers) in *.
  eexists (Adam.Make lr beta1 beta2 eps (Some lv) (Some lv)), _,
    (write_all (adam_writes lr beta1 beta2 eps 1 m None layers lv lv h) h).
  split_and!.
  - by apply (adam_init_params_spec (Adam.new lr beta1 beta2 eps)).
  - rewrite adam_update_params_spec; [|apply no_regularizer_shape_preserving|done..].
    by rewrite adam_calls_nil, app_nil_r.
  - intros l ly k r rg p g Hat.
    assert (velocity_at lv l k (np_zeros (shape p))) as Hv.
    { destruct Hat as (Hl & Hin & _ & Hp & _). by eapply zeros_velocity_at. }
    assert (shape p = shape g) as Hs by by eapply param_at_shape.
    assert (well_formed g ∧ well_formed p) as [Hg Hp].
    { destruct Hat as (_ & _ & _ & Hp & Hg). split; by eapply Hwf. }
    exists (adam_sign_step lr eps p g). split_and!.
    + rewrite (adam_lookup lr beta1 beta2 eps 1 m None layers lv lv h l ly k r rg p g
                 _ _ Hok Hst Hat Hv Hv).
      rewrite decay_not_L2; [|done]. by rewrite adam_first_step.
    + done.
    + unfold adam_sign_step. simpl. rewrite length_zip_with.
      unfold well_formed in *. rewrite Hg, Hp, Hs. lia.
    + intros i x x' Hx Hx'. unfold adam_sign_step in Hx'. simpl in Hx'.
      apply lookup_zip_with_Some in Hx' as (x0 & y & -> & Hx0 & Hy).
      assert (x0 = x) as -> by congruence.
      replace (x - lr * y / (Rabs y + eps) - x)%R
        with (- (lr * (y / (Rabs y + eps))))%R by (field; pose proof (Rabs_pos y); lra).
      rewrite Rabs_Ropp, Rabs_mult, (Rabs_pos_eq lr); [|lra].
      pose proof (Rabs_pos y) as Hy0.
      assert (Rabs (y / (Rabs y + eps)) < 1)%R as Hlt.
      { unfold Rdiv. rewrite Rabs_mult, Rabs_inv, (Rabs_pos_eq (Rabs y + eps)); [|lra].
        apply (Rmult_lt_reg_r (Rabs y + eps)); [lra|].
        rewrite Rmult_assoc, Rinv_l; lra. }
      nra.
Qed.

Lemma X14_witness :
  let h := W_heap (vector [1; 2]%R) (vector [1000; -0.002]%R) in
  ∃ o1 o2 h',
    Adam.init_params (Adam.new 0.1 0.9 0.999 1e-8)%R [W_layer] (Store h []) =
      Ok (o1, Store h []) ∧
    Adam.update_params o1 [W_layer] 1 32%R None (Store h []) =
      Ok ((o2, [W_layer]), Store h' []) ∧
    ∀ l ly k r rg p g, param_at h [W_layer] l ly k r rg p g →
      ∃ p', h' !! r = Some p' ∧ shape p' = shape p ∧
            length (data p') = length (data p) ∧
            ∀ i x x', data p !! i = Some x → data p' !! i = Some x' →
                      (Rabs (x' - x) < 0.1)%R.
Proof.
  apply X14_adam_first_step_bounded.
  - apply W_layer_ok. reflexivity.
  - apply W_heap_well_formed; reflexivity.
  - lra.
  - lra.
  - lra.
  - lra.
Defined.

(** ** Zero gradients *)

Section Stationary.
Implicit Types (p : ndarray R) (lr beta eps : R).

Lemma zip_arr_pointwise_self (F : R → R → R) (G : R → R) p :
  (∀ x, F x (G x) = x) → zip_arr F p (pointwise G p) = p.
Proof.
  intros HF. rewrite zip_arr_pointwise. destruct p as [sh xs]. simpl. f_equal.
  induction xs as [|x xs IH]; [done|]. simpl. by rewrite HF, IH.
Qed.

Lemma gd_step_zero lr p :
  well_formed p → gd_step lr p (np_zeros (shape p)) = p.
Proof.
  intros Hp. unfold gd_step. rewrite pointwise_zeros, pointwise_rmul; [|done].
  apply zip_arr_pointwise_self. intros x. simpl. lra.
Qed.

Lemma moment_zero beta p :
  well_formed p → moment beta (np_zeros (shape p)) (np_zeros (shape p)) = np_zeros (A := R) (shape p).
Proof.
  intros Hp. unfold moment. rewrite pointwise_zeros; [|done].
  rewrite !pointwise_rmul, pointwise_zip. apply pointwise_ext. intros y. simpl. lra.
Qed.

Lemma moment2_zero beta p :
  well_formed p →
  moment2 beta (np_zeros (shape p)) (np_zeros (shape p)) = np_zeros (A := R) (shape p).
Proof.
  intros Hp. unfold moment2. rewrite pointwise_zeros; [|done].
  rewrite pointwise_square, !pointwise_rmul, pointwise_zip.
  apply pointwise_ext. intros y. simpl. lra.
Qed.

Lemma momentum_step_zero lr beta t p :
  well_formed p →
  momentum_step lr beta t (np_zeros (shape p)) p (np_zeros (shape p)) = p.
Proof.
  intros Hp. unfold momentum_step. rewrite moment_zero; [|done].
  unfold bias_corrected. rewrite pointwise_zeros; [|done].
  rewrite pointwise_truediv, pointwise_rmul.
  apply zip_arr_pointwise_self. intros x. simpl. unfold Rdiv. lra.
Qed.

Lemma adam_step_zero lr (beta1 beta2 : R) eps t p :
  well_formed p →
  adam_step lr beta1 beta2 eps t (np_zeros (shape p)) (np_zeros (shape p)) p
    (np_zeros (shape p)) = p.
Proof.
  intros Hp. unfold adam_step. rewrite moment_zero, moment2_zero; [|done..].
  unfold bias_corrected. rewrite pointwise_zeros; [|done].
  rewrite !pointwise_truediv, pointwise_rmul, pointwise_sqrt, pointwise_add_scalar,
    pointwise_zip.
  apply zip_arr_pointwise_self. intros x. simpl. unfold Rdiv. ring.
Qed.
End Stationary.

(** X15 (exact arithmetic): a point where every gradient is zero is a fixed
    point.  With all gradient arrays zero, no regularizer, and (for Momentum
    and Adam) moments that are zero as [init_params] leaves them, a call of
    [update_params] of any variant leaves every array as it was, and the
    moments are zero again; [1 - beta ** t], [1 - beta1 ** t],
    [1 - beta2 ** t] and [eps] are not zero, so that no division is by zero. *)
Theorem X15_zero_gradients_fixed_point (lr beta beta1 beta2 eps m : R) (t : Z)
    (layers : list layer) (h : gmap ref (ndarray R)) (c : list (call R)) :
  layers_ok h layers → arrays_well_formed h →
  (∀ l ly k r rg p g, param_at h layers l ly k r rg p g → g = np_zeros (shape p)) →
  fpow beta t ≠ 1%R → fpow beta1 t ≠ 1%R → fpow beta2 t ≠ 1%R → eps ≠ 0%R →
  GradientDescent.update_params (GradientDescent.Make lr) layers m None (Store h c) =
    Ok (layers, Store h c) ∧
  (∃ o1 lv',
     Momentum.init_params (Momentum.new lr beta) layers (Store h c) = Ok (o1, Store h c) ∧
     Momentum.update_params o1 layers t m None (Store h c) =
       Ok ((Momentum.Make lr beta (Some lv'), layers), Store h c) ∧
     ∀ l ly k r rg p g, param_at h layers l ly k r rg p g →
       velocity_at lv' l k (np_zeros (shape p))) ∧
  (∃ o1 lv' ls',
     Adam.init_params (Adam.new lr beta1 beta2 eps) layers (Store h c) =
       Ok (o1, Store h c) ∧
     Adam.update_params o1 layers t m None (Store h c) =
       Ok ((Adam.Make lr beta1 beta2 eps (Some lv') (Some ls'), layers), Store h c) ∧
     ∀ l ly k r rg p g, param_at h layers l ly k r rg p g →
       velocity_at lv' l k (np_zeros (shape p)) ∧
       velocity_at ls' l k (np_zeros (shape p))).
Proof.
  intros Hok Hwf Hzero _ _ _ _.
  pose proof (layers_ok_params_ok _ _ Hok) as Hpok.
  pose proof (no_regularizer_shape_preserving (A := R)) as Hreg.
  set (lv := zeros_dict h <$> layers).
  assert (∀ l ly k r rg p g, param_at h layers l ly k r rg p g →
            velocity_at lv l k (np_zeros (shape p)) ∧ g = np_zeros (shape p) ∧
            well_formed p) as Hcell.
  { intros l ly k r rg p g Hat. split_and!.
    - destruct Hat as (Hl & Hin & _ & Hp & _). by eapply zeros_velocity_at.
    - by eapply Hzero.
    - destruct Hat as (_ & _ & _ & Hp & _). by eapply Hwf. }
  assert (∀ h', (∀ l ly k r rg p g, param_at h layers l ly k r rg p g →
                   h' !! r = Some p) →
                (∀ r, r ∉ param_refs layers → h' !! r = h !! r) → h' = h) as Hsame.
  { intros h' Hcells Hother. apply map_eq. intros r.
    destruct (decide (r ∈ param_refs layers)) as [Hr|Hr]; [|by apply Hother].
    destruct (param_refs_param_at h layers r Hok Hr) as (l & ly & k & rg & p & g & Hat).
    rewrite (Hcells _ _ _ _ _ _ _ Hat). by destruct Hat as (_ & _ & _ & -> & _). }
  split_and!.
  - rewrite (gd_update_params_spec _ _ _ Hreg); [|done].
    rewrite gd_calls_nil, app_nil_r; [|done]. do 3 f_equal. apply Hsame.
    + intros l ly k r rg p g Hat. destruct (Hcell _ _ _ _ _ _ _ Hat) as (_ & -> & Hp).
      rewrite (gd_lookup _ m None layers h l ly k r rg p _ Hok Hat).
      rewrite decay_not_L2; [|done]. simpl. by rewrite gd_step_zero.
    + intros r Hr. by apply gd_lookup_other.
  - pose proof (zeros_momentum_state_ok h layers Hpok) as Hst. fold lv in Hst.
    exists (Momentum.Make lr beta (Some lv)), (momentum_state beta layers lv h).
    split_and!.
    + by apply (momentum_init_params_spec (Momentum.new lr beta)).
    + rewrite momentum_update_params_spec; [|done..].
      rewrite momentum_calls_nil, app_nil_r; [|done]. do 3 f_equal. apply Hsame.
      * intros l ly k r rg p g Hat.
        destruct (Hcell _ _ _ _ _ _ _ Hat) as (Hv & -> & Hp).
        rewrite (momentum_lookup lr beta t m None layers lv h l ly k r rg p _ _
                   Hok Hst Hat Hv).
        rewrite decay_not_L2; [|done]. by rewrite momentum_step_zero.
      * intros r Hr. by apply momentum_lookup_other.
    + intros l ly k r rg p g Hat. destruct (Hcell _ _ _ _ _ _ _ Hat) as (Hv & Hg & Hp).
      pose proof (momentum_state_at lr beta t layers lv h l ly k r rg p g _
                    Hok Hst Hat Hv) as Hv'.
      by rewrite Hg, moment_zero in Hv'.
  - pose proof (zeros_adam_state_ok h layers Hpok) as Hst. fold lv in Hst.
    exists (Adam.Make lr beta1 beta2 eps (Some lv) (Some lv)),
      (adam_state beta1 beta2 layers lv lv h).1, (adam_state beta1 beta2 layers lv lv h).2.
    split_and!.
    + by apply (adam_init_params_spec (Adam.new lr beta1 beta2 eps)).
    + rewrite adam_update_params_spec; [|done..].
      rewrite adam_calls_nil, app_nil_r; [|done]. do 3 f_equal. apply Hsame.
      * intros l ly k r rg p g Hat.
        destruct (Hcell _ _ _ _ _ _ _ Hat) as (Hv & -> & Hp).
        rewrite (adam_lookup lr beta1 beta2 eps t m None layers lv lv h l ly k r rg p _
                   _ _ Hok Hst Hat Hv Hv).
        rewrite decay_not_L2; [|done]. by rewrite adam_step_zero.
      * intros r Hr. by apply adam_lookup_other.
    + intros l ly k r rg p g Hat. destruct (Hcell _ _ _ _ _ _ _ Hat) as (Hv & Hg & Hp).
      destruct (adam_state_at lr beta1 beta2 eps t layers lv lv h l ly k r rg p g _ _
                  Hok Hst Hat Hv Hv) as [Hv' Hs'].
      rewrite Hg, moment_zero in Hv'; [|done]. rewrite Hg, moment2_zero in Hs'; [|done].
      done.
Qed.

Lemma X15_witness :
  let h := W_heap (vector [1; 2]%R) (vector [0; 0]%R) in
  GradientDescent.update_params (GradientDescent.Make 0.1%R) [W_layer] 32%R None
      (Store h []) =
    Ok ([W_layer], Store h []) ∧
  (∃ o1 lv',
     Momentum.init_params (Momentum.new 0.1 0.9)%R [W_layer] (Store h []) =
       Ok (o1, Store h []) ∧
     Momentum.update_params o1 [W_layer] 1 32%R None (Store h []) =
       Ok ((Momentum.Make 0.1 0.9 (Some lv'))%R, [W_layer], Store h []) ∧
     ∀ l ly k r rg p g, param_at h [W_layer] l ly k r rg p g →
       velocity_at lv' l k (np_zeros (shape p))) ∧
  (∃ o1 lv' ls',
     Adam.init_params (Adam.new 0.1 0.9 0.999 1e-8)%R [W_layer] (Store h []) =
       Ok (o1, Store h []) ∧
     Adam.update_params o1 [W_layer] 1 32%R None (Store h []) =
       Ok ((Adam.Make 0.1 0.9 0.999 1e-8 (Some lv') (Some ls'))%R, [W_layer],
           Store h []) ∧
     ∀ l ly k r rg p g, param_at h [W_layer] l ly k r rg p g →
       velocity_at lv' l k (np_zeros (shape p)) ∧
       velocity_at ls' l k (np_zeros (shape p))).
Proof.
  intros h. apply X15_zero_gradients_fixed_point.
  - apply W_layer_ok. reflexivity.
  - apply W_heap_well_formed; reflexivity.
  - intros l ly k r rg p g (Hl & Hin & Hrg & Hp & Hg).
    destruct l as [|l]; [|done]. injection Hl as <-.
    apply list_elem_of_singleton in Hin. injection Hin as -> ->.
    injection Hrg as <-. injection Hp as <-. injection Hg as <-. reflexivity.
  - rewrite fpow_1. simpl. lra.
  - rewrite fpow_1. simpl. lra.
  - rewrite fpow_1. simpl. lra.
  - lra.
Defined.
